(** * RL-Optimised-Compiler: a shallow embedding of the front end and optimizer

    The development follows the Python sources under [src/api]:

    - [lexer.py]              -> [Module Lexer]
    - [ast_nodes.py]          -> the [Expression] / [Statement] types
    - [parser.py]             -> [Module Parser]
    - [semantic_analyzer.py]  -> [Module SemanticAnalyzer]
    - [intermediate_code.py]  -> [Module IntermediateCodeGenerator]
    - [rl_optimizer.py]       -> [Module RLOptimizer]

    Python objects with mutable attributes are records threaded through the
    functions that mutate them; a raised exception is the [Raise] case of
    [outcome]; a loop whose termination is not structural runs on fuel and
    reports [OutOfFuel] when the fuel does not suffice.

    Text is [string] over [ascii], read as the code points U+0000..U+00FF;
    the [str] predicates ([isdigit], [isalpha], [isalnum]) are CPython's on
    that range.  Python's [float] is IEEE-754 binary64, taken from the
    standard library's [SpecFloat] at precision 53 and [emax] 1024.

    Two modules are written from the specification and not from the
    sources, for the code to be compared with: [LexicalStructure] (the
    lexical structure of §4.1) and [LoweringScheme] (the lowering of
    §4.4). *)

From stdpp Require Import gmap strings list.
From Stdlib Require Import ZArith Ascii DecimalString DecimalNat SpecFloat.
From Stdlib Require String.


(** ** Outcomes of a call *)

Inductive outcome (E A : Type) : Type :=
| Ok (a : A)
| Raise (e : E)
| OutOfFuel.
Arguments Ok {E A} a.
Arguments Raise {E A} e.
Arguments OutOfFuel {E A}.

#[global] Instance outcome_ret {E} : MRet (outcome E) := fun _ a => Ok a.
#[global] Instance outcome_bind {E} : MBind (outcome E) := fun _ _ k r =>
  match r with
  | Ok a => k a
  | Raise e => Raise e
  | OutOfFuel => OutOfFuel
  end.

(** ** Python's [str] and [int] primitives *)

Module PyStr.

Definition dquote : ascii := Eval cbv in ascii_of_nat 34.
Definition squote : ascii := Eval cbv in ascii_of_nat 39.
Definition newline : ascii := Eval cbv in ascii_of_nat 10.
Definition tab : ascii := Eval cbv in ascii_of_nat 9.
Definition cr : ascii := Eval cbv in ascii_of_nat 13.
Definition backslash : ascii := Eval cbv in ascii_of_nat 92.

Definition code (c : ascii) : nat := nat_of_ascii c.

Definition between (lo hi : nat) (c : ascii) : bool :=
  (lo <=? code c)%nat && (code c <=? hi)%nat.

Definition is_ascii_digit (c : ascii) : bool := between 48 57 c.

(** [c.isdigit()]: the decimal digits and the superscripts U+00B2, U+00B3,
    U+00B9. *)
Definition isdigit (c : ascii) : bool :=
  is_ascii_digit c || (code c =? 178)%nat || (code c =? 179)%nat
  || (code c =? 185)%nat.

(** [c.isalpha()]: the letters of the range (categories Lu, Ll, Lo). *)
Definition isalpha (c : ascii) : bool :=
  between 65 90 c || between 97 122 c
  || (code c =? 170)%nat || (code c =? 181)%nat || (code c =? 186)%nat
  || between 192 214 c || between 216 246 c || between 248 255 c.

(** [c.isalnum()]: [isalpha], [isdecimal], [isdigit] or [isnumeric]; the
    vulgar fractions U+00BC..U+00BE are the numerics that are no digits. *)
Definition isalnum (c : ascii) : bool :=
  isalpha c || isdigit c || between 188 190 c.

Definition chars (s : string) : list ascii := String.list_ascii_of_string s.
Definition of_chars (l : list ascii) : string := String.string_of_list_ascii l.

(** [c in s] for a one-character [c]. *)
Definition char_in (c : ascii) (s : string) : bool :=
  existsb (Ascii.eqb c) (chars s).

Definition startswith (s p : string) : bool := String.prefix p s.

Fixpoint last_char (s : string) : option ascii :=
  match s with
  | EmptyString => None
  | String c EmptyString => Some c
  | String _ s' => last_char s'
  end.

(** [s.endswith(c)] for a one-character [c]. *)
Definition endswith_char (s : string) (c : ascii) : bool :=
  match last_char s with
  | Some d => Ascii.eqb c d
  | None => false
  end.

(** [sub in s] on strings: substring search. *)
Fixpoint contains (sub s : string) : bool :=
  String.prefix sub s ||
  match s with
  | EmptyString => false
  | String _ s' => contains sub s'
  end.

(** [s[start:stop]] for [0 <= start]. *)
Definition slice (start stop : nat) (s : string) : string :=
  String.substring start (stop - start) s.

(** Truth value of an [Optional[str]]: [None] and the empty string are
    false. *)
Definition truthy (o : option string) : bool :=
  match o with
  | Some EmptyString | None => false
  | Some _ => true
  end.

(** [str(n)] for a natural number and for an [int]. *)
Definition str_nat (n : nat) : string :=
  NilEmpty.string_of_uint (Nat.to_uint n).

Definition str_int (z : Z) : string :=
  match z with
  | Z0 => "0"
  | Zpos p => NilEmpty.string_of_uint (Pos.to_uint p)
  | Zneg p => String "-"%char (NilEmpty.string_of_uint (Pos.to_uint p))
  end.

End PyStr.

(** ** Python's [float]: IEEE-754 binary64 *)

Module PyFloat.

Definition prec : Z := 53.
Definition emax : Z := 1024.

Definition float : Type := spec_float.

Definition add : float -> float -> float := SFadd prec emax.
Definition sub : float -> float -> float := SFsub prec emax.
Definition mul : float -> float -> float := SFmul prec emax.
Definition div : float -> float -> float := SFdiv prec emax.

(** [x == y] on floats. *)
Definition eqb : float -> float -> bool := SFeqb.

Definition zero : float := S754_zero false.

(** [x == 0]. *)
Definition is_zero (x : float) : bool := eqb x zero.

(** The float nearest to [(-1)^s * d * 10^e], ties to even; overflow gives
    an infinity and underflow a zero, as [float(str)] does. *)
Definition of_decimal (s : bool) (d : Z) (e : Z) : float :=
  match d with
  | Zpos m =>
      let num := (Zpos m * 10 ^ Z.max e 0)%Z in
      let den := (10 ^ Z.max (- e) 0)%Z in
      match num, den with
      | Zpos n, Zpos q => div (S754_finite s n 0) (S754_finite false q 0)
      | _, _ => S754_nan
      end
  | _ => S754_zero s
  end.

(** *** [float(str)] *)

Definition digit_val (c : ascii) : Z := Z.of_nat (PyStr.code c - 48).

(** Consumes the leading decimal digits of [l]: the value they add to [acc],
    how many there are, and what follows. *)
Fixpoint take_digits (acc : Z) (n : nat) (l : list ascii) : Z * nat * list ascii :=
  match l with
  | c :: l' =>
      if PyStr.is_ascii_digit c
      then take_digits (acc * 10 + digit_val c)%Z (S n) l'
      else (acc, n, l)
  | [] => (acc, n, l)
  end.

Definition is_char (c : ascii) (l : list ascii) : bool :=
  match l with
  | d :: _ => Ascii.eqb c d
  | [] => false
  end.

(** An optional sign: whether it is a minus, and what follows. *)
Definition take_sign (l : list ascii) : bool * list ascii :=
  match l with
  | c :: l' =>
      if Ascii.eqb c "-" then (true, l')
      else if Ascii.eqb c "+" then (false, l')
      else (false, l)
  | [] => (false, l)
  end.

(** The exponent part [e[+-]ddd]; without a digit after it nothing is
    consumed. *)
Definition take_exponent (l : list ascii) : Z * list ascii :=
  match l with
  | c :: l' =>
      if Ascii.eqb c "e" || Ascii.eqb c "E" then
        let '(neg, l1) := take_sign l' in
        let '(v, n, l2) := take_digits 0 0 l1 in
        match n with
        | O => (0%Z, l)
        | S _ => ((if neg then - v else v)%Z, l2)
        end
      else (0%Z, l)
  | [] => (0%Z, l)
  end.

(** The decimal-number reader behind [float]: sign, digits, an optional
    point and digits, an optional exponent.  [None] when no digit is read. *)
Definition strtod (l : list ascii) : option (float * list ascii) :=
  let '(neg, l0) := take_sign l in
  let '(d1, n1, l1) := take_digits 0 0 l0 in
  let '(d2, n2, l2) :=
    if is_char "." l1 then take_digits d1 0 (tail l1) else (d1, O, l1) in
  match (n1 + n2)%nat with
  | O => None
  | S _ =>
      let '(e, l3) := take_exponent l2 in
      Some (of_decimal neg d2 (e - Z.of_nat n2), l3)
  end.

Definition lower (c : ascii) : ascii :=
  if PyStr.between 65 90 c then ascii_of_nat (PyStr.code c + 32) else c.

(** [l] starts with [w], letter case apart; what follows the match. *)
Fixpoint take_word (w : list ascii) (l : list ascii) : option (list ascii) :=
  match w, l with
  | [], _ => Some l
  | a :: w', c :: l' => if Ascii.eqb a (lower c) then take_word w' l' else None
  | _ :: _, [] => None
  end.

(** [inf], [infinity] and [nan], with an optional sign. *)
Definition parse_inf_or_nan (l : list ascii) : option (float * list ascii) :=
  let '(neg, l0) := take_sign l in
  match take_word (PyStr.chars "inf") l0 with
  | Some l1 =>
      match take_word (PyStr.chars "inity") l1 with
      | Some l2 => Some (S754_infinity neg, l2)
      | None => Some (S754_infinity neg, l1)
      end
  | None =>
      match take_word (PyStr.chars "nan") l0 with
      | Some l1 => Some (S754_nan, l1)
      | None => None
      end
  end.

(** Underscores may stand between two digits only; they are dropped. *)
Fixpoint drop_underscores (prev : option ascii) (l : list ascii) : option (list ascii) :=
  match l with
  | [] =>
      match prev with
      | Some p => if Ascii.eqb p "_" then None else Some []
      | None => Some []
      end
  | c :: l' =>
      if Ascii.eqb c "_" then
        match prev with
        | Some p => if PyStr.is_ascii_digit p then drop_underscores (Some c) l' else None
        | None => None
        end
      else
        let after_underscore :=
          match prev with Some p => Ascii.eqb p "_" | None => false end in
        if after_underscore && negb (PyStr.is_ascii_digit c) then None
        else cons c <$> drop_underscores (Some c) l'
  end.

(** The whitespace [float] strips from both ends of its argument: the
    ASCII whitespace (tab to carriage return, and the blank), and U+0085
    and U+00A0, which it turns into blanks first.  The separators
    U+001C..U+001F are whitespace for [str.isspace] and not for [float]. *)
Definition is_space (c : ascii) : bool :=
  PyStr.between 9 13 c || (PyStr.code c =? 32)%nat || (PyStr.code c =? 133)%nat
  || (PyStr.code c =? 160)%nat.

Fixpoint lstrip (l : list ascii) : list ascii :=
  match l with
  | c :: l' => if is_space c then lstrip l' else l
  | [] => []
  end.

Definition strip (l : list ascii) : list ascii := rev (lstrip (rev (lstrip l))).

(** [float(s)]; [None] stands for the [ValueError]. *)
Definition of_string (s : string) : option float :=
  l ← drop_underscores None (PyStr.chars s);
  let l := strip l in
  match strtod l with
  | Some (x, []) => Some x
  | Some (_, _ :: _) => None
  | None =>
      match parse_inf_or_nan l with
      | Some (x, []) => Some x
      | _ => None
      end
  end.

(** *** [int(x)] and the test [x == int(x)] *)

(** [int(x)]: truncation; [None] stands for the [OverflowError] on an
    infinity and the [ValueError] on a NaN. *)
Definition to_int (x : float) : option Z :=
  match x with
  | S754_zero _ => Some 0%Z
  | S754_finite s m e =>
      let a := (if (0 <=? e)%Z then Zpos m * 2 ^ e else Zpos m / 2 ^ (- e))%Z in
      Some (if s then - a else a)%Z
  | S754_infinity _ | S754_nan => None
  end.

(** [x == n] for a float and an [int]: the comparison is exact. *)
Definition eqb_int (x : float) (n : Z) : bool :=
  match x with
  | S754_zero _ => (n =? 0)%Z
  | S754_finite s m e =>
      let a := (if s then Zneg m else Zpos m) in
      if (0 <=? e)%Z then (n =? a * 2 ^ e)%Z else (n * 2 ^ (- e) =? a)%Z
  | S754_infinity _ | S754_nan => false
  end.

(** *** [str(x)]: the shortest decimal text that reads back as [x] *)

Definition ndigits (z : Z) : nat := Decimal.nb_digits (N.to_uint (Z.to_N z)).

Definition digits_of (z : Z) : list ascii :=
  PyStr.chars (NilEmpty.string_of_uint (N.to_uint (Z.to_N z))).

(** A positive finite float [m * 2^e] as the fraction [(num, den)]. *)
Definition fraction (m : positive) (e : Z) : Z * Z :=
  if (0 <=? e)%Z then (Zpos m * 2 ^ e, 1)%Z else (Zpos m, 2 ^ (- e))%Z.

(** The [k] with [10^(k-1) <= num/den < 10^k]. *)
Definition decimal_point (num den : Z) : Z :=
  let k0 := (Z.of_nat (ndigits num) - Z.of_nat (ndigits den))%Z in
  if (den * 10 ^ Z.max k0 0 <=? num * 10 ^ Z.max (- k0) 0)%Z
  then (k0 + 1)%Z else k0.

(** The [n]-digit decimals next to [num/den] on either side, scaled by
    [10^t] with [t = n - k], and the one of them that reads back as [x]
    (the nearer one when both do). *)
Definition candidate (x : float) (num den : Z) (k : Z) (n : nat) : option (Z * Z) :=
  let t := (Z.of_nat n - k)%Z in
  let a := (num * 10 ^ Z.max t 0)%Z in
  let b := (den * 10 ^ Z.max (- t) 0)%Z in
  let lo := (a / b)%Z in
  let r := (a mod b)%Z in
  let hi := (lo + 1)%Z in
  let lo_ok := eqb (of_decimal false lo (- t)) x in
  let hi_ok := eqb (of_decimal false hi (- t)) x in
  let nearer :=
    match (2 * r ?= b)%Z with
    | Lt => lo
    | Gt => hi
    | Eq => if Z.even lo then lo else hi
    end in
  if (r =? 0)%Z then Some (lo, t)
  else if lo_ok && hi_ok then Some (nearer, t)
  else if lo_ok then Some (lo, t)
  else if hi_ok then Some (hi, t)
  else None.

(** The first of [n], [n+1], ... digits that gives a candidate; 17 digits
    always do. *)
Fixpoint shortest (tries : nat) (x : float) (num den k : Z) (n : nat) : Z * Z :=
  match tries with
  | O => ((num * 10 ^ Z.max (17 - k) 0) / (den * 10 ^ Z.max (k - 17) 0), 17 - k)%Z
  | S tries' =>
      match candidate x num den k n with
      | Some c => c
      | None => shortest tries' x num den k (S n)
      end
  end.

Fixpoint strip_zeros_rev (l : list ascii) : list ascii :=
  match l with
  | c :: l' => if Ascii.eqb c "0" then strip_zeros_rev l' else l
  | [] => []
  end.

Definition strip_trailing_zeros (l : list ascii) : list ascii :=
  match rev (strip_zeros_rev (rev l)) with
  | [] => ["0"%char]
  | l' => l'
  end.

Definition zeros (n : nat) : list ascii := replicate n "0"%char.

(** The text of the digits [ds] with the decimal point after the first
    [decpt] of them: exponent notation when [decpt <= -4] or [decpt > 16],
    else positional notation with at least one digit after the point. *)
Definition format_short (ds : list ascii) (decpt : Z) : list ascii :=
  if (decpt <=? -4)%Z || (16 <? decpt)%Z then
    let ex := (decpt - 1)%Z in
    let mant :=
      match ds with
      | d :: ((_ :: _) as more) => d :: "."%char :: more
      | _ => ds
      end in
    let exd := digits_of (Z.abs ex) in
    mant ++ ["e"%char; if (ex <? 0)%Z then "-"%char else "+"%char]
         ++ (if (Z.abs ex <? 10)%Z then "0"%char :: exd else exd)
  else if (decpt <=? 0)%Z then
    "0"%char :: "."%char :: zeros (Z.to_nat (- decpt)) ++ ds
  else if (Z.of_nat (length ds) <=? decpt)%Z then
    ds ++ zeros (Z.to_nat decpt - length ds) ++ ["."%char; "0"%char]
  else
    take (Z.to_nat decpt) ds ++ "."%char :: drop (Z.to_nat decpt) ds.

(** [str(x)] (which is [repr(x)]). *)
Definition to_string (x : float) : string :=
  match x with
  | S754_zero s => if s then "-0.0" else "0.0"
  | S754_infinity s => if s then "-inf" else "inf"
  | S754_nan => "nan"
  | S754_finite s m e =>
      let '(num, den) := fraction m e in
      let k := decimal_point num den in
      let '(d, t) := shortest 17 (S754_finite false m e) num den k 1 in
      let all := digits_of d in
      let decpt := (Z.of_nat (length all) - t)%Z in
      let body := format_short (strip_trailing_zeros all) decpt in
      PyStr.of_chars (if s then "-"%char :: body else body)
  end.

End PyFloat.

(** ** lexer.py *)

(** [TokenType] is a Python [Enum].  [RPAREN] and [RBRACE] are both given the
    value ["RBRACE"]; an [Enum] makes the second name with a value an alias
    of the first, so [TokenType.RBRACE] is the member [TokenType.RPAREN].
    The member is the constructor [RPAREN], and [RBRACE] abbreviates it. *)
Inductive TokenType : Set :=
| NUMBER | STRING | IDENTIFIER
| PRINT | SCAN | WHILE | IF | ELSE
| PLUS | MINUS | MULTIPLY | DIVIDE | ASSIGN | PLUS_ASSIGN | MINUS_ASSIGN
| EQUAL | NOT_EQUAL | GREATER | LESS | GREATER_EQUAL | LESS_EQUAL
| AND | OR | NOT
| LPAREN | RPAREN | LBRACE | SEMICOLON
| NEWLINE | EOF.

Definition RBRACE : TokenType := RPAREN.

#[global] Instance TokenType_eq_dec : EqDecision TokenType.
Proof. solve_decision. Defined.

Module Token.
Record t : Set := mk { type : TokenType; value : string; line : nat; column : nat }.
End Token.

(** The two [SyntaxError]s the lexer raises, with the values their messages
    are formatted from. *)
Inductive SyntaxError : Set :=
| UnterminatedString (line : nat)
| UnknownCharacter (char : ascii) (line column : nat).

Module Lexer.

Record t : Set := mk {
  source : string;
  position : nat;
  line : nat;
  column : nat;
  tokens : list Token.t
}.

(** [Lexer(source_code)] *)
Definition init (source_code : string) : t := mk source_code 0 1 1 [].

Definition keywords (word : string) : option TokenType :=
  if decide (word = "print") then Some PRINT
  else if decide (word = "scan") then Some SCAN
  else if decide (word = "while") then Some WHILE
  else if decide (word = "if") then Some IF
  else if decide (word = "else") then Some ELSE
  else None.

Definition operators (op : string) : option TokenType :=
  if decide (op = "+") then Some PLUS
  else if decide (op = "-") then Some MINUS
  else if decide (op = "*") then Some MULTIPLY
  else if decide (op = "/") then Some DIVIDE
  else if decide (op = "=") then Some ASSIGN
  else if decide (op = "+=") then Some PLUS_ASSIGN
  else if decide (op = "-=") then Some MINUS_ASSIGN
  else if decide (op = "==") then Some EQUAL
  else if decide (op = "!=") then Some NOT_EQUAL
  else if decide (op = ">") then Some GREATER
  else if decide (op = "<") then Some LESS
  else if decide (op = ">=") then Some GREATER_EQUAL
  else if decide (op = "<=") then Some LESS_EQUAL
  else if decide (op = "&&") then Some AND
  else if decide (op = "||") then Some OR
  else if decide (op = "!") then Some NOT
  else None.

Definition len (lx : t) : nat := String.length (source lx).

(** How many characters lie at or after [position]. *)
Definition remaining (lx : t) : nat := len lx - position lx.

Definition current_char (lx : t) : option ascii :=
  String.get (position lx) (source lx).

Definition peek_char (lx : t) (offset : nat) : option ascii :=
  String.get (position lx + offset) (source lx).

Definition advance (lx : t) : t :=
  match current_char lx with
  | Some c =>
      if Ascii.eqb c PyStr.newline
      then mk (source lx) (S (position lx)) (S (line lx)) 1 (tokens lx)
      else mk (source lx) (S (position lx)) (line lx) (S (column lx)) (tokens lx)
  | None => mk (source lx) (S (position lx)) (line lx) (S (column lx)) (tokens lx)
  end.

Definition append (tok : Token.t) (lx : t) : t :=
  mk (source lx) (position lx) (line lx) (column lx) (tokens lx ++ [tok]).

(** [while self.current_char() and p(self.current_char()): self.advance()].
    Every round consumes a character, so [remaining lx] rounds suffice
    ([advance_while_stops]). *)
Fixpoint advance_while (fuel : nat) (p : ascii -> bool) (lx : t) : t :=
  match fuel with
  | O => lx
  | S fuel' =>
      match current_char lx with
      | Some c => if p c then advance_while fuel' p (advance lx) else lx
      | None => lx
      end
  end.

Definition is_blank (c : ascii) : bool :=
  Ascii.eqb c " " || Ascii.eqb c PyStr.tab || Ascii.eqb c PyStr.cr.

Definition skip_whitespace (lx : t) : t :=
  advance_while (remaining lx) is_blank lx.

Definition is_number_char (c : ascii) : bool :=
  PyStr.isdigit c || Ascii.eqb c ".".

Definition read_number (lx : t) : string * t :=
  let start_pos := position lx in
  let lx := advance_while (remaining lx) is_number_char lx in
  (PyStr.slice start_pos (position lx) (source lx), lx).

(** The loop of [read_string]: up to the closing quote, a backslash taking
    the character after it along. *)
Fixpoint string_body (fuel : nat) (lx : t) : t :=
  match fuel with
  | O => lx
  | S fuel' =>
      match current_char lx with
      | Some c =>
          if Ascii.eqb c PyStr.dquote then lx
          else if Ascii.eqb c PyStr.backslash
               then string_body fuel' (advance (advance lx))
               else string_body fuel' (advance lx)
      | None => lx
      end
  end.

Definition read_string (lx : t) : outcome SyntaxError (string * t) :=
  let lx := advance lx in
  let start_pos := position lx in
  let lx := string_body (remaining lx) lx in
  match current_char lx with
  | None => Raise (UnterminatedString (line lx))
  | Some _ =>
      let value := PyStr.slice start_pos (position lx) (source lx) in
      Ok (value, advance lx)
  end.

Definition is_identifier_char (c : ascii) : bool :=
  PyStr.isalnum c || Ascii.eqb c "_".

Definition read_identifier (lx : t) : string * t :=
  let start_pos := position lx in
  let lx := advance_while (remaining lx) is_identifier_char lx in
  (PyStr.slice start_pos (position lx) (source lx), lx).

Definition str1 (c : ascii) : string := String c EmptyString.

Definition is_operator_start (c : ascii) : bool := PyStr.char_in c "+-=!><&|".

Definition is_delimiter (c : ascii) : bool :=
  PyStr.char_in c "*/(){};" || Ascii.eqb c PyStr.newline.

Definition not_newline (c : ascii) : bool := negb (Ascii.eqb c PyStr.newline).

(** One round of the loop of [tokenize]: [false] for [break], [true] when
    the loop goes on to test its condition again. *)
Definition tokenize_body (lx : t) : outcome SyntaxError (bool * t) :=
  let lx := skip_whitespace lx in
  match current_char lx with
  | None => Ok (false, lx)
  | Some char =>
      if Ascii.eqb char "/" && bool_decide (peek_char lx 1 = Some "/"%char)
      then Ok (true, advance_while (remaining lx) not_newline lx)
      else
        let line := line lx in
        let column := column lx in
        if Ascii.eqb char PyStr.newline then
          Ok (true, advance (append (Token.mk NEWLINE (str1 char) line column) lx))
        else if PyStr.isdigit char then
          let '(value, lx) := read_number lx in
          Ok (true, append (Token.mk NUMBER value line column) lx)
        else if Ascii.eqb char PyStr.dquote then
          '(value, lx) ← read_string lx;
          Ok (true, append (Token.mk STRING value line column) lx)
        else if PyStr.isalpha char || Ascii.eqb char "_" then
          let '(value, lx) := read_identifier lx in
          let token_type := default IDENTIFIER (keywords value) in
          Ok (true, append (Token.mk token_type value line column) lx)
        else if is_operator_start char then
          let two_char :=
            match peek_char lx 1 with
            | Some next_char => String char (str1 next_char)
            | None => str1 char
            end in
          match operators two_char with
          | Some ty =>
              Ok (true, advance (advance (append (Token.mk ty two_char line column) lx)))
          | None =>
              match operators (str1 char) with
              | Some ty =>
                  Ok (true, advance (append (Token.mk ty (str1 char) line column) lx))
              | None => Raise (UnknownCharacter char line column)
              end
          end
        else if is_delimiter char then
          let token_type :=
            if Ascii.eqb char "(" then Some LPAREN
            else if Ascii.eqb char ")" then Some RPAREN
            else if Ascii.eqb char "{" then Some LBRACE
            else if Ascii.eqb char "}" then Some RBRACE
            else if Ascii.eqb char ";" then Some SEMICOLON
            else operators (str1 char) in
          match token_type with
          | Some ty => Ok (true, advance (append (Token.mk ty (str1 char) line column) lx))
          | None => Ok (true, advance lx)
          end
        else Raise (UnknownCharacter char line column)
  end.

(** [while self.position < len(self.source): ...] *)
Fixpoint tokenize_loop (fuel : nat) (lx : t) : outcome SyntaxError t :=
  if (position lx <? len lx)%nat then
    match fuel with
    | O => OutOfFuel
    | S fuel' =>
        '(continue, lx) ← tokenize_body lx;
        if continue : bool then tokenize_loop fuel' lx else Ok lx
    end
  else Ok lx.

(** [Lexer(source_code).tokenize()] *)
Definition tokenize (source_code : string) : outcome SyntaxError (list Token.t) :=
  lx ← tokenize_loop (String.length source_code) (init source_code);
  Ok (tokens lx ++ [Token.mk EOF EmptyString (line lx) (column lx)]).

End Lexer.

(** ** ast_nodes.py *)

Inductive Expression : Type :=
| NumberLiteral (value : PyFloat.float)
| StringLiteral (value : string)
| Identifier (name : string)
| BinaryOperation (left : Expression) (operator : string) (right : Expression)
| UnaryOperation (operator : string) (operand : Expression).

#[local] Unset Elimination Schemes.
Inductive Statement : Type :=
| AssignmentStatement (target : string) (operator : string) (value : Expression)
| PrintStatement (expression : Expression)
| ScanStatement (target : string)
| WhileStatement (condition : Expression) (body : list Statement)
| IfStatement (condition : Expression) (then_body : list Statement)
    (else_body : option (list Statement)).
#[local] Set Elimination Schemes.

Inductive Program : Type :=
| Build_Program (statements : list Statement).

Definition statements (p : Program) : list Statement :=
  match p with Build_Program l => l end.

(** ** parser.py *)

(** What the parser raises: its own [ParseError]s, with the values their
    messages are formatted from, the [ValueError] of [float] on a number
    token that is no number, and the [IndexError] of [self.tokens[-1]] on an
    empty token list. *)
Inductive ParserException : Type :=
| ExpectedToken (expected got : TokenType) (line : nat)
| UnexpectedToken (got : TokenType) (line : nat)
| ExpectedAssignmentOperator (line : nat)
| ValueError (text : string)
| IndexError.

Module Parser.

Record t : Type := mk { tokens : list Token.t; position : nat }.

Abbreviation M A := (outcome ParserException (A * t)%type).

(** [current_token] on a token list that is not empty; [parse] turns the
    empty one away, where Python raises on the first call. *)
Definition current_token (p : t) : Token.t :=
  let eof := List.last (tokens p) (Token.mk EOF EmptyString 0 0) in
  nth (position p) (tokens p) eof.

Definition advance (p : t) : t :=
  if (position p <? length (tokens p) - 1)%nat
  then mk (tokens p) (S (position p))
  else p.

Definition match_ (p : t) (token_types : list TokenType) : bool :=
  bool_decide (Token.type (current_token p) ∈ token_types).

Definition consume (token_type : TokenType) (p : t) : M Token.t :=
  if decide (Token.type (current_token p) = token_type)
  then Ok (current_token p, advance p)
  else Raise (ExpectedToken token_type (Token.type (current_token p))
                (Token.line (current_token p))).

(** [while self.match(NEWLINE): self.advance()]: [advance] stops at the
    last token, so the loop runs for ever on a list that ends in a NEWLINE;
    within [length tokens] rounds it has either left or reached that token. *)
Fixpoint skip_newlines_loop (fuel : nat) (p : t) : M unit :=
  if match_ p [NEWLINE] then
    match fuel with
    | O => OutOfFuel
    | S fuel' => skip_newlines_loop fuel' (advance p)
    end
  else Ok (tt, p).

Definition skip_newlines (p : t) : M unit :=
  skip_newlines_loop (length (tokens p)) p.

(** *** Expressions.  Each level takes the parser of the level it calls;
    [parse_expression] closes the recursion. *)

Section Expressions.
Variable parse_expression : t -> M Expression.

Definition parse_primary (p : t) : M Expression :=
  if match_ p [NUMBER] then
    match PyFloat.of_string (Token.value (current_token p)) with
    | Some value => Ok (NumberLiteral value, advance p)
    | None => Raise (ValueError (Token.value (current_token p)))
    end
  else if match_ p [STRING] then
    Ok (StringLiteral (Token.value (current_token p)), advance p)
  else if match_ p [IDENTIFIER] then
    Ok (Identifier (Token.value (current_token p)), advance p)
  else if match_ p [LPAREN] then
    '(expr, p) ← parse_expression (advance p);
    '(_, p) ← consume RPAREN p;
    Ok (expr, p)
  else Raise (UnexpectedToken (Token.type (current_token p))
                (Token.line (current_token p))).

Fixpoint parse_unary_rec (fuel : nat) (p : t) : M Expression :=
  if match_ p [NOT; MINUS] then
    match fuel with
    | O => OutOfFuel
    | S fuel' =>
        let operator := Token.value (current_token p) in
        '(operand, p) ← parse_unary_rec fuel' (advance p);
        Ok (UnaryOperation operator operand, p)
    end
  else parse_primary p.

Definition parse_unary (p : t) : M Expression :=
  parse_unary_rec (length (tokens p)) p.

(** The loop shared by the binary levels:
    [while self.match(...): operator; advance; right = sub(); expr = BinaryOperation(...)]. *)
Fixpoint binary_loop (token_types : list TokenType) (sub : t -> M Expression)
    (fuel : nat) (expr : Expression) (p : t) : M Expression :=
  if match_ p token_types then
    match fuel with
    | O => OutOfFuel
    | S fuel' =>
        let operator := Token.value (current_token p) in
        '(rhs, p) ← sub (advance p);
        binary_loop token_types sub fuel' (BinaryOperation expr operator rhs) p
    end
  else Ok (expr, p).

Definition binary_level (token_types : list TokenType) (sub : t -> M Expression)
    (p : t) : M Expression :=
  '(expr, p) ← sub p;
  binary_loop token_types sub (length (tokens p)) expr p.

Definition parse_multiplication : t -> M Expression :=
  binary_level [MULTIPLY; DIVIDE] parse_unary.

Definition parse_addition : t -> M Expression :=
  binary_level [PLUS; MINUS] parse_multiplication.

Definition parse_comparison : t -> M Expression :=
  binary_level [GREATER; LESS; GREATER_EQUAL; LESS_EQUAL] parse_addition.

Definition parse_equality : t -> M Expression :=
  binary_level [EQUAL; NOT_EQUAL] parse_comparison.

Definition parse_logical_and : t -> M Expression :=
  binary_level [AND] parse_equality.

Definition parse_logical_or : t -> M Expression :=
  binary_level [OR] parse_logical_and.

End Expressions.

Fixpoint parse_expression_rec (fuel : nat) (p : t) : M Expression :=
  match fuel with
  | O => OutOfFuel
  | S fuel' => parse_logical_or (parse_expression_rec fuel') p
  end.

Definition parse_expression (p : t) : M Expression :=
  parse_expression_rec (S (length (tokens p))) p.

(** *** Statements *)

Definition parse_print_statement (p : t) : M Statement :=
  '(_, p) ← consume PRINT p;
  '(_, p) ← consume LPAREN p;
  '(expr, p) ← parse_expression p;
  '(_, p) ← consume RPAREN p;
  '(_, p) ← consume SEMICOLON p;
  Ok (PrintStatement expr, p).

Definition parse_scan_statement (p : t) : M Statement :=
  '(_, p) ← consume SCAN p;
  '(_, p) ← consume LPAREN p;
  '(target, p) ← consume IDENTIFIER p;
  '(_, p) ← consume RPAREN p;
  '(_, p) ← consume SEMICOLON p;
  Ok (ScanStatement (Token.value target), p).

Definition parse_assignment_statement (p : t) : M Statement :=
  '(target, p) ← consume IDENTIFIER p;
  if match_ p [ASSIGN; PLUS_ASSIGN; MINUS_ASSIGN] then
    let operator := Token.value (current_token p) in
    '(value, p) ← parse_expression (advance p);
    '(_, p) ← consume SEMICOLON p;
    Ok (AssignmentStatement (Token.value target) operator value, p)
  else Raise (ExpectedAssignmentOperator (Token.line (current_token p))).

Section Statements.
Variable parse_statement : t -> M (option Statement).

(** The loop that reads a block up to its closing brace:
    [while not match(RBRACE) and not match(EOF): stmt = parse_statement(); ...]. *)
Fixpoint parse_block (fuel : nat) (body : list Statement) (p : t) : M (list Statement) :=
  if negb (match_ p [RBRACE]) && negb (match_ p [EOF]) then
    match fuel with
    | O => OutOfFuel
    | S fuel' =>
        '(stmt, p) ← parse_statement p;
        let body := match stmt with Some s => body ++ [s] | None => body end in
        '(_, p) ← skip_newlines p;
        parse_block fuel' body p
    end
  else Ok (body, p).

Definition parse_while_statement (p : t) : M Statement :=
  '(_, p) ← consume WHILE p;
  '(_, p) ← consume LPAREN p;
  '(condition, p) ← parse_expression p;
  '(_, p) ← consume RPAREN p;
  '(_, p) ← consume LBRACE p;
  '(_, p) ← skip_newlines p;
  '(body, p) ← parse_block (length (tokens p)) [] p;
  '(_, p) ← consume RBRACE p;
  Ok (WhileStatement condition body, p).

Definition parse_if_statement (p : t) : M Statement :=
  '(_, p) ← consume IF p;
  '(_, p) ← consume LPAREN p;
  '(condition, p) ← parse_expression p;
  '(_, p) ← consume RPAREN p;
  '(_, p) ← consume LBRACE p;
  '(_, p) ← skip_newlines p;
  '(then_body, p) ← parse_block (length (tokens p)) [] p;
  '(_, p) ← consume RBRACE p;
  if match_ p [ELSE] then
    '(_, p) ← consume LBRACE (advance p);
    '(_, p) ← skip_newlines p;
    '(else_body, p) ← parse_block (length (tokens p)) [] p;
    '(_, p) ← consume RBRACE p;
    Ok (IfStatement condition then_body (Some else_body), p)
  else Ok (IfStatement condition then_body None, p).

End Statements.

Fixpoint parse_statement_rec (fuel : nat) (p : t) : M (option Statement) :=
  match fuel with
  | O => OutOfFuel
  | S fuel' =>
      '(_, p) ← skip_newlines p;
      if match_ p [PRINT] then
        '(s, p) ← parse_print_statement p; Ok (Some s, p)
      else if match_ p [SCAN] then
        '(s, p) ← parse_scan_statement p; Ok (Some s, p)
      else if match_ p [WHILE] then
        '(s, p) ← parse_while_statement (parse_statement_rec fuel') p; Ok (Some s, p)
      else if match_ p [IF] then
        '(s, p) ← parse_if_statement (parse_statement_rec fuel') p; Ok (Some s, p)
      else if match_ p [IDENTIFIER] then
        '(s, p) ← parse_assignment_statement p; Ok (Some s, p)
      else if negb (match_ p [EOF; NEWLINE]) then
        Raise (UnexpectedToken (Token.type (current_token p))
                 (Token.line (current_token p)))
      else Ok (None, p)
  end.

Definition parse_statement (p : t) : M (option Statement) :=
  parse_statement_rec (S (length (tokens p))) p.

(** The loop of [parse]: [while not self.match(EOF): ...]. *)
Fixpoint parse_loop (fuel : nat) (statements : list Statement) (p : t) : M (list Statement) :=
  if negb (match_ p [EOF]) then
    match fuel with
    | O => OutOfFuel
    | S fuel' =>
        '(stmt, p) ← parse_statement p;
        let statements :=
          match stmt with Some s => statements ++ [s] | None => statements end in
        '(_, p) ← skip_newlines p;
        parse_loop fuel' statements p
    end
  else Ok (statements, p).

(** [Parser(tokens).parse()] *)
Definition parse (tokens : list Token.t) : outcome ParserException Program :=
  match tokens with
  | [] => Raise IndexError
  | _ :: _ =>
      '(_, p) ← skip_newlines (mk tokens 0);
      '(statements, _) ← parse_loop (length tokens) [] p;
      Ok (Build_Program statements)
  end.

End Parser.

(** ** semantic_analyzer.py *)

Module SymbolTable.

(** [symbols] maps a defined name to the value given to [define] (always
    the default [None], here [tt]); [parent] is the enclosing scope. *)
#[local] Unset Elimination Schemes.
Inductive t : Type :=
| mk (symbols : gmap string unit) (parent : option t).
#[local] Set Elimination Schemes.

Definition symbols (st : t) : gmap string unit :=
  match st with mk s _ => s end.

Definition parent (st : t) : option t :=
  match st with mk _ p => p end.

(** [SymbolTable()] *)
Definition init : t := mk ∅ None.

Definition define (name : string) (st : t) : t :=
  mk (<[name := tt]> (symbols st)) (parent st).

Fixpoint lookup (name : string) (st : t) : bool :=
  match st with
  | mk s p =>
      if bool_decide (is_Some (s !! name)) then true
      else match p with
           | Some st' => lookup name st'
           | None => false
           end
  end.

End SymbolTable.

Module SemanticAnalyzer.

Record t : Type := mk { symbol_table : SymbolTable.t; errors : list string }.

(** [SemanticAnalyzer()] *)
Definition init : t := mk SymbolTable.init [].

Definition report (message : string) (a : t) : t :=
  mk (symbol_table a) (errors a ++ [message]).

Definition undefined_variable (name : string) : string :=
  "Undefined variable '" +:+ name +:+ "'".

Definition visit_identifier (name : string) (a : t) : t :=
  if SymbolTable.lookup name (symbol_table a) then a
  else report (undefined_variable name) a.

(** [isinstance(node.right, NumberLiteral) and node.right.value == 0] *)
Definition is_literal_zero (e : Expression) : bool :=
  match e with
  | NumberLiteral value => PyFloat.is_zero value
  | _ => false
  end.

Fixpoint visit_expression (e : Expression) (a : t) : t :=
  match e with
  | NumberLiteral _ => a
  | StringLiteral _ => a
  | Identifier name => visit_identifier name a
  | BinaryOperation lhs operator rhs =>
      let a := visit_expression lhs a in
      let a := visit_expression rhs a in
      if (bool_decide (operator = "/") || bool_decide (operator = "%"))
         && is_literal_zero rhs
      then report "Division by zero" a
      else a
  | UnaryOperation _ operand => visit_expression operand a
  end.

Definition define (name : string) (a : t) : t :=
  mk (SymbolTable.define name (symbol_table a)) (errors a).

(** [for stmt in body: accept_visitor(stmt, self)] *)
Definition visit_all (visit : Statement -> t -> t) : list Statement -> t -> t :=
  fix go (l : list Statement) (a : t) : t :=
    match l with
    | [] => a
    | s :: l' => go l' (visit s a)
    end.

Fixpoint visit_statement (s : Statement) (a : t) : t :=
  match s with
  | AssignmentStatement target _ value =>
      define target (visit_expression value a)
  | PrintStatement expression => visit_expression expression a
  | ScanStatement target => define target a
  | WhileStatement condition body =>
      visit_all visit_statement body (visit_expression condition a)
  | IfStatement condition then_body else_body =>
      let a := visit_expression condition a in
      let a := visit_all visit_statement then_body a in
      match else_body with
      | Some ((_ :: _) as l) => visit_all visit_statement l a
      | Some [] | None => a
      end
  end.

Definition visit_program (p : Program) (a : t) : t :=
  visit_all visit_statement (statements p) a.

(** [analyze]: the diagnostics, and the analyzer as the call leaves it.
    [self.errors] is reset; the symbol table is the one the analyzer was
    built with, as earlier calls left it. *)
Definition analyze (ast : Program) (a : t) : list string * t :=
  let a := visit_program ast (mk (symbol_table a) []) in
  (errors a, a).

End SemanticAnalyzer.

(** ** intermediate_code.py *)

Record ThreeAddressCode : Type := TAC {
  operation : string;
  arg1 : option string;
  arg2 : option string;
  result : option string
}.

#[global] Instance ThreeAddressCode_eq_dec : EqDecision ThreeAddressCode.
Proof. solve_decision. Defined.

Module IntermediateCodeGenerator.

Record t : Type := mk {
  code : list ThreeAddressCode;
  temp_counter : nat;
  label_counter : nat
}.

(** [IntermediateCodeGenerator()] *)
Definition init : t := mk [] 0 0.

Definition new_temp (g : t) : string * t :=
  let n := S (temp_counter g) in
  ("t" +:+ PyStr.str_nat n, mk (code g) n (label_counter g)).

Definition new_label (g : t) : string * t :=
  let n := S (label_counter g) in
  ("L" +:+ PyStr.str_nat n, mk (code g) (temp_counter g) n).

Definition emit (operation : string) (arg1 arg2 result : option string) (g : t) : t :=
  mk (code g ++ [TAC operation arg1 arg2 result]) (temp_counter g) (label_counter g).

Definition visit_number_literal (value : PyFloat.float) : string :=
  PyFloat.to_string value.

Definition visit_string_literal (value : string) : string :=
  String PyStr.dquote (value +:+ String PyStr.dquote EmptyString).

Fixpoint visit_expression (e : Expression) (g : t) : string * t :=
  match e with
  | NumberLiteral value => (visit_number_literal value, g)
  | StringLiteral value => (visit_string_literal value, g)
  | Identifier name => (name, g)
  | BinaryOperation lhs operator rhs =>
      let '(l, g) := visit_expression lhs g in
      let '(r, g) := visit_expression rhs g in
      let '(temp, g) := new_temp g in
      (temp, emit operator (Some l) (Some r) (Some temp) g)
  | UnaryOperation operator operand =>
      let '(o, g) := visit_expression operand g in
      let '(temp, g) := new_temp g in
      (temp, emit operator (Some o) None (Some temp) g)
  end.

Definition visit_assignment_statement (target operator : string) (value : Expression)
    (g : t) : t :=
  let '(v, g) := visit_expression value g in
  if decide (operator = "=") then
    emit "ASSIGN" (Some v) None (Some target) g
  else if decide (operator = "+=") then
    let '(temp, g) := new_temp g in
    let g := emit "+" (Some target) (Some v) (Some temp) g in
    emit "ASSIGN" (Some temp) None (Some target) g
  else if decide (operator = "-=") then
    let '(temp, g) := new_temp g in
    let g := emit "-" (Some target) (Some v) (Some temp) g in
    emit "ASSIGN" (Some temp) None (Some target) g
  else g.

Definition visit_print_statement (expression : Expression) (g : t) : t :=
  let '(expr, g) := visit_expression expression g in
  emit "PRINT" (Some expr) None None g.

Definition visit_scan_statement (target : string) (g : t) : t :=
  emit "SCAN" None None (Some target) g.

(** [for stmt in body: accept_visitor(stmt, self)] *)
Definition visit_all (visit : Statement -> t -> t) : list Statement -> t -> t :=
  fix go (l : list Statement) (g : t) : t :=
    match l with
    | [] => g
    | s :: l' => go l' (visit s g)
    end.

Fixpoint visit_statement (s : Statement) (g : t) : t :=
  match s with
  | AssignmentStatement target operator value =>
      visit_assignment_statement target operator value g
  | PrintStatement expression => visit_print_statement expression g
  | ScanStatement target => visit_scan_statement target g
  | WhileStatement condition body =>
      let '(start_label, g) := new_label g in
      let '(end_label, g) := new_label g in
      let g := emit "LABEL" (Some start_label) None None g in
      let '(cond, g) := visit_expression condition g in
      let g := emit "IF_FALSE" (Some cond) (Some end_label) None g in
      let g := visit_all visit_statement body g in
      let g := emit "GOTO" (Some start_label) None None g in
      emit "LABEL" (Some end_label) None None g
  | IfStatement condition then_body else_body =>
      let '(else_label, g) := new_label g in
      let '(end_label, g) := new_label g in
      let '(cond, g) := visit_expression condition g in
      let g := emit "IF_FALSE" (Some cond) (Some else_label) None g in
      let g := visit_all visit_statement then_body g in
      match else_body with
      | Some ((_ :: _) as l) =>
          let g := emit "GOTO" (Some end_label) None None g in
          let g := emit "LABEL" (Some else_label) None None g in
          let g := visit_all visit_statement l g in
          emit "LABEL" (Some end_label) None None g
      | Some [] | None => emit "LABEL" (Some else_label) None None g
      end
  end.

Definition visit_while_statement (condition : Expression) (body : list Statement)
    (g : t) : t :=
  visit_statement (WhileStatement condition body) g.

Definition visit_program (p : Program) (g : t) : t :=
  visit_all visit_statement (statements p) g.

(** [generate]: the code, and the generator as the call leaves it. *)
Definition generate (ast : Program) (g : t) : list ThreeAddressCode * t :=
  let g := visit_program ast (mk [] 0 0) in
  (code g, g).

End IntermediateCodeGenerator.

(** ** rl_optimizer.py *)

Module RLOptimizer.

(** The exceptions that can leave the optimizer: the [TypeError] of
    [x in y] on a [None], and the [IndexError] of [code[i]]. *)
Inductive Exception : Set :=
| TypeError
| IndexError.

Record t : Type := mk {
  q_table : gmap string (gmap string PyFloat.float);
  learning_rate : PyFloat.float;
  discount_factor : PyFloat.float;
  epsilon : PyFloat.float;
  optimization_history : list (string * PyFloat.float);
  variable_usage : gmap string (gset nat);
  variable_defs : gmap string (gset nat)
}.

(** [RLOptimizer()] *)
Definition init : t :=
  mk ∅ (PyFloat.of_decimal false 1 (-1)) (PyFloat.of_decimal false 9 (-1))
     (PyFloat.of_decimal false 1 (-1)) [] ∅ ∅.

Definition set_analysis (usage defs : gmap string (gset nat)) (o : t) : t :=
  mk (q_table o) (learning_rate o) (discount_factor o) (epsilon o)
     (optimization_history o) usage defs.

(** [op in ops] for a list of strings. *)
Definition op_in (op : string) (ops : list string) : bool :=
  bool_decide (op ∈ ops).

Definition arithmetic : list string := ["+"; "-"; "*"; "/"].

Definition is_constant (value : option string) : bool :=
  match value with
  | Some s =>
      match PyFloat.of_string s with
      | Some _ => true
      | None => PyStr.startswith s (String PyStr.dquote EmptyString)
                && PyStr.endswith_char s PyStr.dquote
      end
  | None => false
  end.

Definition try_parse_float (value : option string) : option PyFloat.float :=
  s ← value; PyFloat.of_string s.

(** *** [analyze_code] *)

(** [table[key].add(i)], with [table[key] = set()] first when [key] is new. *)
Definition add_site (key : string) (i : nat) (table : gmap string (gset nat))
  : gmap string (gset nat) :=
  <[key := default ∅ (table !! key) ∪ {[i]}]> table.

(** [if key not in table: table[key] = set()] *)
Definition ensure_key (key : string) (table : gmap string (gset nat))
  : gmap string (gset nat) :=
  match table !! key with
  | Some _ => table
  | None => <[key := ∅]> table
  end.

Definition record_use (i : nat) (arg : option string) (usage : gmap string (gset nat))
  : gmap string (gset nat) :=
  match arg with
  | Some a => if PyStr.truthy arg && negb (is_constant arg) then add_site a i usage else usage
  | None => usage
  end.

(** The body of the loop of [analyze_code] for instruction [i]. *)
Definition analyze_instruction (i : nat) (instr : ThreeAddressCode)
    (tables : gmap string (gset nat) * gmap string (gset nat))
  : gmap string (gset nat) * gmap string (gset nat) :=
  let '(usage, defs) := tables in
  let '(usage, defs) :=
    match result instr with
    | Some r =>
        if PyStr.truthy (result instr)
           && negb (op_in (operation instr) ["LABEL"; "GOTO"; "IF_FALSE"; "PRINT"])
        then (ensure_key r usage, add_site r i defs)
        else (usage, defs)
    | None => (usage, defs)
    end in
  (record_use i (arg2 instr) (record_use i (arg1 instr) usage), defs).

Fixpoint analyze_from (i : nat) (code : list ThreeAddressCode)
    (tables : gmap string (gset nat) * gmap string (gset nat))
  : gmap string (gset nat) * gmap string (gset nat) :=
  match code with
  | [] => tables
  | instr :: code' => analyze_from (S i) code' (analyze_instruction i instr tables)
  end.

Definition analyze_code (code : list ThreeAddressCode) (o : t) : t :=
  let '(usage, defs) := analyze_from 0 code (∅, ∅) in
  set_analysis usage defs o.

(** [is_variable_used_later]; as in the source, [code] is not consulted:
    the answer comes from the usage table of the last [analyze_code]. *)
Definition is_variable_used_later (o : t) (code : list ThreeAddressCode)
    (position : nat) (variable : string) : bool :=
  match variable_usage o !! variable with
  | None => false
  | Some sites => existsb (fun usage_pos => position <? usage_pos)%nat (elements sites)
  end.

(** *** The rewrite primitives *)

(** The value of [val1 op val2]; [None] for the division by zero, which is
    refused. *)
Definition fold_value (op : string) (val1 val2 : PyFloat.float) : option PyFloat.float :=
  if decide (op = "+") then Some (PyFloat.add val1 val2)
  else if decide (op = "-") then Some (PyFloat.sub val1 val2)
  else if decide (op = "*") then Some (PyFloat.mul val1 val2)
  else if decide (op = "/") then
    if negb (PyFloat.is_zero val2) then Some (PyFloat.div val1 val2) else None
  else None.

(** [str(int(result))] when [result == int(result)], else [str(result)];
    [None] when [int(result)] raises (an infinity or a NaN). *)
Definition format_result (r : PyFloat.float) : option string :=
  n ← PyFloat.to_int r;
  Some (if PyFloat.eqb_int r n then PyStr.str_int n else PyFloat.to_string r).

(** What [apply_constant_folding] puts in the place of [instr], if anything.
    Every [None] is a path on which the source returns [code] as it is: the
    guard fails, [float] raises on a quoted operand, the division is by
    zero, or [int] raises. *)
Definition folded (instr : ThreeAddressCode) : option ThreeAddressCode :=
  if op_in (operation instr) arithmetic && is_constant (arg1 instr)
     && is_constant (arg2 instr)
  then
    val1 ← try_parse_float (arg1 instr);
    val2 ← try_parse_float (arg2 instr);
    r ← fold_value (operation instr) val1 val2;
    result_str ← format_result r;
    Some (TAC "ASSIGN" (Some result_str) None (result instr))
  else None.

Definition apply_constant_folding (code : list ThreeAddressCode) (position : nat)
  : list ThreeAddressCode :=
  match code !! position with
  | None => code
  | Some instr =>
      match folded instr with
      | Some instr' => <[position := instr']> code
      | None => code
      end
  end.

Definition side_effects : list string := ["PRINT"; "SCAN"; "LABEL"; "GOTO"; "IF_FALSE"].

Definition apply_dead_code_elimination (o : t) (code : list ThreeAddressCode)
    (position : nat) : list ThreeAddressCode :=
  match code !! position with
  | None => code
  | Some instr =>
      if op_in (operation instr) side_effects then code
      else if PyStr.truthy (result instr)
              && is_variable_used_later o code position (default EmptyString (result instr))
      then code
      else delete position code
  end.

Definition apply_common_subexpression_elimination (code : list ThreeAddressCode)
    (position : nat) : list ThreeAddressCode :=
  match code !! position with
  | None => code
  | Some current =>
      let reusable (i : nat) : bool :=
        match code !! i with
        | Some prev =>
            bool_decide (operation prev = operation current)
            && bool_decide (arg1 prev = arg1 current)
            && bool_decide (arg2 prev = arg2 current)
            && PyStr.truthy (result prev)
            && negb (existsb (fun c => bool_decide (result c = result prev))
                       (take (position - S i) (drop (S i) code)))
        | None => false
        end in
      match find reusable (seq 0 position) with
      | Some i =>
          match code !! i with
          | Some prev => <[position := TAC "ASSIGN" (result prev) None (result current)]> code
          | None => code
          end
      | None => code
      end
  end.

(** [is_constant(x) and try_parse_float(x) == 2] *)
Definition is_two (x : option string) : bool :=
  is_constant x &&
  match try_parse_float x with
  | Some v => PyFloat.eqb_int v 2
  | None => false
  end.

Definition apply_strength_reduction (code : list ThreeAddressCode) (position : nat)
  : list ThreeAddressCode :=
  match code !! position with
  | None => code
  | Some instr =>
      if decide (operation instr = "*") then
        if is_two (arg2 instr) then
          <[position := TAC "+" (arg1 instr) (arg1 instr) (result instr)]> code
        else if is_two (arg1 instr) then
          <[position := TAC "+" (arg2 instr) (arg2 instr) (result instr)]> code
        else code
      else code
  end.

(** *** Loops *)

(** One entry of the list [find_loops] returns (a [dict] in the source). *)
Record Loop : Type := mkLoop {
  start : nat;
  end_ : nat;
  condition : nat;
  label : option string;
  modified_vars : gset string;
  invariant_candidates : list nat;
  parent : option nat;
  children : list nat
}.

Definition set_nesting (p : option nat) (c : list nat) (l : Loop) : Loop :=
  mkLoop (start l) (end_ l) (condition l) (label l) (modified_vars l)
         (invariant_candidates l) p c.

Definition set_modified_vars (m : gset string) (l : Loop) : Loop :=
  mkLoop (start l) (end_ l) (condition l) (label l) m
         (invariant_candidates l) (parent l) (children l).

Definition enumerate {A} (l : list A) : list (nat * A) := imap pair l.

(** [labels[instr.arg1] = i] for every LABEL; a later one replaces an
    earlier one of the same name. *)
Definition find_labels (code : list ThreeAddressCode) : gmap (option string) nat :=
  foldl (fun labels '(i, instr) =>
           if decide (operation instr = "LABEL") then <[arg1 instr := i]> labels
           else labels)
        ∅ (enumerate code).

Definition is_operation (op : string) (code : list ThreeAddressCode) (j : nat) : bool :=
  match code !! j with
  | Some instr => bool_decide (operation instr = op)
  | None => false
  end.

(** The loop a GOTO at [i] closes, if it jumps back over an IF_FALSE. *)
Definition back_edge (code : list ThreeAddressCode) (labels : gmap (option string) nat)
    (i : nat) (instr : ThreeAddressCode) : option Loop :=
  if decide (operation instr = "GOTO") then
    target ← labels !! arg1 instr;
    if (target <? i)%nat then
      condition_pos ← find (is_operation "IF_FALSE" code) (seq target (i - target));
      Some (mkLoop target i condition_pos (arg1 instr) ∅ [] None [])
    else None
  else None.

(** [loops.sort(key=lambda x: x['start'])]: the sort is stable. *)
Fixpoint insert_by_start (l : Loop) (sorted : list Loop) : list Loop :=
  match sorted with
  | [] => [l]
  | l' :: rest =>
      if (start l <? start l')%nat then l :: sorted
      else l' :: insert_by_start l rest
  end.

Definition sort_by_start (loops : list Loop) : list Loop :=
  foldl (fun sorted l => insert_by_start l sorted) [] loops.

(** The inner loop of the nesting pass, for the pair [(i, j)]. *)
Definition nest_pair (i : nat) (loops : list Loop) (j : nat) : list Loop :=
  match loops !! i, loops !! j with
  | Some loop, Some other_loop =>
      if negb (i =? j)%nat && (start loop <? start other_loop)%nat
         && (end_ other_loop <? end_ loop)%nat
      then
        let loops := <[j := set_nesting (Some i) (children other_loop) other_loop]> loops in
        <[i := set_nesting (parent loop) (children loop ++ [j]) loop]> loops
      else loops
  | _, _ => loops
  end.

(** The outer loop of the nesting pass: loop [i] has its own [parent] and
    [children] reset, then marks the loops it contains. *)
Definition nest_from (loops : list Loop) (i : nat) : list Loop :=
  match loops !! i with
  | Some loop =>
      foldl (nest_pair i) (<[i := set_nesting None [] loop]> loops)
            (seq 0 (length loops))
  | None => loops
  end.

Definition collect_modified (code : list ThreeAddressCode) (l : Loop) : Loop :=
  let step (m : gset string) (i : nat) : gset string :=
    match code !! i with
    | Some instr =>
        match result instr with
        | Some r =>
            if PyStr.truthy (result instr)
               && negb (op_in (operation instr) ["LABEL"; "GOTO"; "IF_FALSE"])
            then m ∪ {[r]} else m
        | None => m
        end
    | None => m
    end in
  set_modified_vars (foldl step (modified_vars l) (seq (start l) (S (end_ l) - start l))) l.

Definition find_loops (code : list ThreeAddressCode) : list Loop :=
  let labels := find_labels code in
  let loops := omap (fun '(i, instr) => back_edge code labels i instr) (enumerate code) in
  let loops := sort_by_start loops in
  let loops := foldl nest_from loops (seq 0 (length loops)) in
  collect_modified code <$> loops.

(** One entry of the list [find_constant_assignments] returns. *)
Record ConstantAssignment : Type := mkCA {
  ca_position : nat;
  ca_loop_idx : nat;
  ca_result : option string
}.

(** [code[i]] *)
Definition item (code : list ThreeAddressCode) (i : nat)
  : outcome Exception ThreeAddressCode :=
  match code !! i with
  | Some instr => Ok instr
  | None => Raise IndexError
  end.

(** [any(code[j].operation == 'IF_FALSE' and r in code[j].arg1 for j in js)];
    [r in a] raises when either side is [None]. *)
Fixpoint is_loop_control (code : list ThreeAddressCode) (r : option string)
    (js : list nat) : outcome Exception bool :=
  match js with
  | [] => Ok false
  | j :: js' =>
      cj ← item code j;
      if decide (operation cj = "IF_FALSE") then
        match r, arg1 cj with
        | Some r', Some a =>
            if PyStr.contains r' a then Ok true else is_loop_control code r js'
        | _, _ => Raise TypeError
        end
      else is_loop_control code r js'
  end.

(** The first ASSIGN among [js] that copies [r], as an entry for [loop_idx]. *)
Fixpoint first_copy (code : list ThreeAddressCode) (r : option string) (loop_idx : nat)
    (js : list nat) : outcome Exception (list ConstantAssignment) :=
  match js with
  | [] => Ok []
  | j :: js' =>
      next_instr ← item code j;
      if bool_decide (operation next_instr = "ASSIGN") && bool_decide (arg1 next_instr = r)
      then Ok [mkCA j loop_idx (result next_instr)]
      else first_copy code r loop_idx js'
  end.

(** The body of the loops of [find_constant_assignments] for instruction
    [i] of loop [loop_idx]: the entries to append. *)
Definition constant_assignment_at (code : list ThreeAddressCode) (loop_idx : nat)
    (loop : Loop) (i : nat) : outcome Exception (list ConstantAssignment) :=
  instr ← item code i;
  if bool_decide (operation instr = "ASSIGN") && is_constant (arg1 instr) then
    control ← is_loop_control code (result instr) (seq (S i) (S (end_ loop) - S i));
    Ok (if control : bool then [] else [mkCA i loop_idx (result instr)])
  else if op_in (operation instr) arithmetic && is_constant (arg1 instr)
          && is_constant (arg2 instr)
  then first_copy code (result instr) loop_idx (seq (S i) (end_ loop - S i))
  else Ok [].

(** [acc] extended by [f x] for every [x] of [xs], in order, up to the
    first exception. *)
Fixpoint collect {A B} (f : A -> outcome Exception (list B)) (xs : list A) (acc : list B)
  : outcome Exception (list B) :=
  match xs with
  | [] => Ok acc
  | x :: xs' => found ← f x; collect f xs' (acc ++ found)
  end.

Definition find_constant_assignments (code : list ThreeAddressCode) (loops : list Loop)
  : outcome Exception (list ConstantAssignment) :=
  collect (fun '(loop_idx, loop) =>
             collect (constant_assignment_at code loop_idx loop)
                     (seq (S (start loop)) (end_ loop - S (start loop))) [])
          (enumerate loops) [].

(** [while loops[current]['parent'] is not None: current = loops[current]['parent']] *)
Fixpoint outermost (fuel : nat) (loops : list Loop) (current_loop_idx : nat)
  : outcome Exception nat :=
  match loops !! current_loop_idx with
  | None => Raise IndexError
  | Some loop =>
      match parent loop with
      | None => Ok current_loop_idx
      | Some p =>
          match fuel with
          | O => OutOfFuel
          | S fuel' => outermost fuel' loops p
          end
      end
  end.

(** [l.insert(i, x)]: at the end when [i] is past it. *)
Definition insert_at {A} (i : nat) (x : A) (l : list A) : list A :=
  take i l ++ x :: drop i l.

Definition apply_loop_invariant_motion (code : list ThreeAddressCode) (position : nat)
    (loop_idx : nat) (loops : list Loop) : outcome Exception (list ThreeAddressCode) :=
  match code !! position, loops !! loop_idx with
  | Some instr, Some _ =>
      current_loop_idx ← outermost (length loops) loops loop_idx;
      match loops !! current_loop_idx with
      | Some outermost_loop =>
          Ok (insert_at (start outermost_loop) instr (delete position code))
      | None => Raise IndexError
      end
  | _, _ => Ok code
  end.

(** *** [fix_loop_control_flow] *)

(** The first index among [js] whose instruction satisfies [p]. *)
Definition first_index (p : ThreeAddressCode -> bool) (code : list ThreeAddressCode)
    (js : list nat) : option nat :=
  find (fun j => match code !! j with Some c => p c | None => false end) js.

Definition is_increment (c : ThreeAddressCode) : bool :=
  bool_decide (operation c = "+") && PyStr.truthy (result c).

(** The first loop of [fix_loop_control_flow] at instruction [i]: [Some]
    the sequence the function calls itself on, [None] when the loop moves
    on to the next instruction.  With a loop variable that holds neither
    [i] nor [j] nothing is inserted, and the call is still made. *)
Definition repair_condition (new_code : list ThreeAddressCode) (i : nat)
    (instr : ThreeAddressCode) : option (list ThreeAddressCode) :=
  if decide (operation instr = "IF_FALSE") then
    let var_name := arg1 instr in
    let defined :=
      existsb (fun c => bool_decide (result c = var_name)) (take i new_code) in
    if defined then None
    else
      loop_end ← first_index (fun c => bool_decide (operation c = "GOTO")) new_code
                   (seq (S i) (length new_code - S i));
      j ← first_index is_increment new_code (rev (seq (S i) (loop_end - i)));
      c ← new_code !! j;
      let loop_var := arg1 c in
      match loop_var with
      | Some v =>
          if PyStr.truthy loop_var then
            if PyStr.char_in "j" v || PyStr.char_in "i" v
            then Some (insert_at i (TAC "<" loop_var (Some "2.0") var_name) new_code)
            else Some new_code
          else None
      | None => None
      end
  else None.

(** The second loop at instruction [i]. *)
Definition repair_increment (new_code : list ThreeAddressCode) (i : nat)
    (instr : ThreeAddressCode) : option (list ThreeAddressCode) :=
  match result instr with
  | Some r =>
      if bool_decide (operation instr = "+") && PyStr.truthy (result instr)
         && PyStr.startswith r "t"
         && (bool_decide (arg1 instr = Some "i") || bool_decide (arg1 instr = Some "j"))
         && bool_decide (arg2 instr = Some "1.0")
      then
        let new_code := <[i := TAC "ASSIGN" (result instr) None (arg1 instr)]> new_code in
        Some (insert_at (S i) (TAC "=" (arg1 instr) None (arg1 instr)) new_code)
      else None
  | None => None
  end.

Fixpoint first_some {A B} (f : A -> option B) (l : list A) : option B :=
  match l with
  | [] => None
  | x :: l' =>
      match f x with
      | Some b => Some b
      | None => first_some f l'
      end
  end.

(** [for i, instr in enumerate(new_code): ...]: the first [Some] of the
    body ends the loop. *)
Definition first_repair
    (body : list ThreeAddressCode -> nat -> ThreeAddressCode -> option (list ThreeAddressCode))
    (new_code : list ThreeAddressCode) : option (list ThreeAddressCode) :=
  first_some (fun '(i, instr) => body new_code i instr) (enumerate new_code).

(** [fuel] bounds the depth of the recursion; the source has no bound. *)
Fixpoint fix_loop_control_flow (fuel : nat) (code : list ThreeAddressCode)
  : outcome Exception (list ThreeAddressCode) :=
  match fuel with
  | O => OutOfFuel
  | S fuel' =>
      match first_repair repair_condition code with
      | Some new_code => fix_loop_control_flow fuel' new_code
      | None =>
          match first_repair repair_increment code with
          | Some new_code => fix_loop_control_flow fuel' new_code
          | None => Ok code
          end
      end
  end.

(** *** The driver [optimize] *)

(** A call that may change the optimizer and may raise: the optimizer as
    the call leaves it, and the outcome. *)
Abbreviation Run A := (t * outcome Exception A)%type.

Definition and_then {A B} (r : Run A) (k : A -> t -> Run B) : Run B :=
  match r with
  | (o, Ok a) => k a o
  | (o, Raise e) => (o, Raise e)
  | (o, OutOfFuel) => (o, OutOfFuel)
  end.

(** The code and the log of a pass. *)
Abbreviation Progress := (list ThreeAddressCode * list string)%type.

Definition log_entry (pass : string) (position : nat) (reward : string) : string :=
  "Applied " +:+ pass +:+ " at position " +:+ PyStr.str_nat position
  +:+ " (reward: " +:+ reward +:+ ")".

(** First pass, the body of [for position in range(len(optimized_code))]. *)
Definition constant_folding_step (st : Progress * t) (position : nat) : Progress * t :=
  let '((optimized_code, optimization_log), o) := st in
  match optimized_code !! position with
  | None => st
  | Some instr =>
      if op_in (operation instr) arithmetic && is_constant (arg1 instr)
         && is_constant (arg2 instr)
      then
        let new_code := apply_constant_folding optimized_code position in
        if decide (new_code = optimized_code) then st
        else ((new_code,
               optimization_log ++ [log_entry "constant_folding" position "15.00"]),
              analyze_code new_code o)
      else st
  end.

Definition constant_folding_pass (optimized_code : list ThreeAddressCode)
    (optimization_log : list string) (o : t) : Progress * t :=
  foldl constant_folding_step ((optimized_code, optimization_log), o)
        (seq 0 (length optimized_code)).

(** Second pass: [for ca in constant_assignments].  The list iterated is
    the one computed before the loop; [loops] is the current one. *)
Fixpoint loop_invariant_pass (constant_assignments : list ConstantAssignment)
    (loops : list Loop) (optimized_code : list ThreeAddressCode)
    (optimization_log : list string) (o : t) : Run Progress :=
  match constant_assignments with
  | [] => (o, Ok (optimized_code, optimization_log))
  | ca :: rest =>
      let position := ca_position ca in
      match apply_loop_invariant_motion optimized_code position (ca_loop_idx ca) loops with
      | Ok new_code =>
          if decide (new_code = optimized_code)
          then loop_invariant_pass rest loops optimized_code optimization_log o
          else
            let optimization_log :=
              optimization_log ++ [log_entry "loop_invariant_motion" position "30.00"] in
            let o := analyze_code new_code o in
            let loops := find_loops new_code in
            match find_constant_assignments new_code loops with
            | Ok _ => loop_invariant_pass rest loops new_code optimization_log o
            | Raise e => (o, Raise e)
            | OutOfFuel => (o, OutOfFuel)
            end
      | Raise e => (o, Raise e)
      | OutOfFuel => (o, OutOfFuel)
      end
  end.

(** Third pass: [while position < len(optimized_code)].  Every round
    either steps [position] or shortens the code, so [length code] rounds
    suffice ([dead_code_pass_total]). *)
Fixpoint dead_code_loop (fuel : nat) (position : nat)
    (optimized_code : list ThreeAddressCode) (optimization_log : list string) (o : t)
  : Run Progress :=
  match optimized_code !! position with
  | None => (o, Ok (optimized_code, optimization_log))
  | Some instr =>
      match fuel with
      | O => (o, OutOfFuel)
      | S fuel' =>
          let new_code := apply_dead_code_elimination o optimized_code position in
          if PyStr.truthy (result instr)
             && negb (is_variable_used_later o optimized_code position
                        (default EmptyString (result instr)))
             && negb (op_in (operation instr) side_effects)
             && negb (length new_code =? length optimized_code)%nat
          then
            dead_code_loop fuel' position new_code
              (optimization_log ++ [log_entry "dead_code_elimination" position "25.00"])
              (analyze_code new_code o)
          else dead_code_loop fuel' (S position) optimized_code optimization_log o
      end
  end.

Definition dead_code_pass (optimized_code : list ThreeAddressCode)
    (optimization_log : list string) (o : t) : Run Progress :=
  dead_code_loop (length optimized_code) 0 optimized_code optimization_log o.

(** [optimize(code)] up to its third pass: the first analysis, the
    constant-folding pass, the loops and the loop-invariant pass. *)
Definition early_passes (code : list ThreeAddressCode) (o : t) : Run Progress :=
  let optimized_code := code in
  let optimization_log := [] in
  let o := analyze_code optimized_code o in
  let '((optimized_code, optimization_log), o) :=
    constant_folding_pass optimized_code optimization_log o in
  let loops := find_loops optimized_code in
  and_then (o, find_constant_assignments optimized_code loops)
    (fun constant_assignments o =>
  loop_invariant_pass constant_assignments loops optimized_code optimization_log o).

(** [optimize(code)] up to its fourth pass. *)
Definition optimize_passes (code : list ThreeAddressCode) (o : t) : Run Progress :=
  and_then (early_passes code o)
    (fun '(optimized_code, optimization_log) o =>
  dead_code_pass optimized_code optimization_log o).

(** [optimize(code)]; [fuel] bounds the recursion of the fourth pass. *)
Definition optimize (fuel : nat) (code : list ThreeAddressCode) (o : t) : Run Progress :=
  and_then (optimize_passes code o)
    (fun '(optimized_code, optimization_log) o =>
  and_then (o, fix_loop_control_flow fuel optimized_code)
    (fun optimized_code o => (o, Ok (optimized_code, optimization_log)))).

(** *** The policy: proposing and applying actions *)

(** [OptimizationAction]; [loop_info] is a dict that holds the key
    ['loop_idx'] or nothing. *)
Record OptimizationAction : Type := mkAction {
  type : string;
  position : nat;
  confidence : PyFloat.float;
  loop_info : option nat
}.

(** [prev] computes what [current] computes and has a result to reuse. *)
Definition same_expression (current prev : ThreeAddressCode) : bool :=
  bool_decide (operation prev = operation current)
  && bool_decide (arg1 prev = arg1 current)
  && bool_decide (arg2 prev = arg2 current)
  && PyStr.truthy (result prev).

(** No operand of [current] that is a variable is modified in
    [outer_loop]. *)
Definition invariant_to (current : ThreeAddressCode) (outer_loop : Loop) : bool :=
  negb (existsb (fun arg =>
                   match arg with
                   | Some a => PyStr.truthy arg && negb (is_constant arg)
                               && bool_decide (a ∈ modified_vars outer_loop)
                   | None => false
                   end)
                [arg1 current; arg2 current]).

(** The last loop in front of [loop_idx] that encloses [loop] and to which
    [current] is invariant, or [loop_idx]. *)
Definition outermost_invariant (current : ThreeAddressCode) (loops : list Loop)
    (loop_idx : nat) (loop : Loop) : nat :=
  foldl (fun outermost_loop_idx '(j, outer_loop) =>
           if (j <? loop_idx)%nat && (start outer_loop <=? start loop)%nat
              && (end_ loop <=? end_ outer_loop)%nat && invariant_to current outer_loop
           then j else outermost_loop_idx)
        loop_idx (enumerate loops).

(** The loop-invariant action of [get_possible_actions]: one, for the first
    loop that lists [position] among its candidates. *)
Definition loop_invariant_action (current : ThreeAddressCode) (position : nat)
    (loops : list Loop) : list OptimizationAction :=
  match find (fun '(_, loop) => bool_decide (position ∈ invariant_candidates loop))
             (enumerate loops) with
  | Some (loop_idx, loop) =>
      [mkAction "loop_invariant" position (PyFloat.of_decimal false 9 (-1))
         (Some (outermost_invariant current loops loop_idx loop))]
  | None => []
  end.

Definition get_possible_actions (o : t) (code : list ThreeAddressCode) (position : nat)
    (loops : list Loop) : list OptimizationAction :=
  match code !! position with
  | None => []
  | Some current =>
      let binary :=
        op_in (operation current) arithmetic
        && PyStr.truthy (arg1 current) && PyStr.truthy (arg2 current) in
      (if binary && is_constant (arg1 current) && is_constant (arg2 current)
       then [mkAction "constant_folding" position (PyFloat.of_decimal false 8 (-1)) None]
       else [])
      ++ (if PyStr.truthy (result current)
             && negb (is_variable_used_later o code position
                        (default EmptyString (result current)))
             && negb (op_in (operation current) ["PRINT"; "SCAN"])
          then [mkAction "dead_code_elimination" position
                  (PyFloat.of_decimal false 7 (-1)) None]
          else [])
      ++ (if binary && existsb (same_expression current) (take position code)
          then [mkAction "common_subexpression" position
                  (PyFloat.of_decimal false 6 (-1)) None]
          else [])
      ++ (if bool_decide (operation current = "*")
             && PyStr.truthy (arg1 current) && PyStr.truthy (arg2 current)
             && (is_two (arg1 current) || is_two (arg2 current))
          then [mkAction "strength_reduction" position
                  (PyFloat.of_decimal false 5 (-1)) None]
          else [])
      ++ loop_invariant_action current position loops
  end.

(** [apply_optimization]; without a ['loop_idx'] the comparison of [None]
    with [len(loops)] raises, when it is reached. *)
Definition apply_optimization (o : t) (code : list ThreeAddressCode)
    (action : OptimizationAction) (loops : list Loop)
  : outcome Exception (list ThreeAddressCode) :=
  if decide (type action = "constant_folding") then
    Ok (apply_constant_folding code (position action))
  else if decide (type action = "dead_code_elimination") then
    Ok (apply_dead_code_elimination o code (position action))
  else if decide (type action = "common_subexpression") then
    Ok (apply_common_subexpression_elimination code (position action))
  else if decide (type action = "strength_reduction") then
    Ok (apply_strength_reduction code (position action))
  else if decide (type action = "loop_invariant") then
    match loop_info action with
    | Some loop_idx => apply_loop_invariant_motion code (position action) loop_idx loops
    | None =>
        match code !! position action with
        | Some _ => Raise TypeError
        | None => Ok code
        end
    end
  else Ok code.

End RLOptimizer.

(** ** code_generator.py: [DirectASTToPythonGenerator] *)

Module DirectASTToPythonGenerator.

(** [indent_level] is a Python [int]; the header of [generate] steps it
    down by two at once. *)
Record t : Type := mk { code_lines : list string; indent_level : Z }.

(** [DirectASTToPythonGenerator()] *)
Definition init : t := mk [] 0.

(** ["    " * n] for a natural number [n]. *)
Fixpoint spaces (n : nat) : string :=
  match n with
  | O => EmptyString
  | S n' => "    " +:+ spaces n'
  end.

(** ["    " * self.indent_level]: empty when the level is not positive. *)
Definition indent (g : t) : string := spaces (Z.to_nat (indent_level g)).

Definition emit (line : string) (g : t) : t :=
  mk (code_lines g ++ [indent g +:+ line]) (indent_level g).

(** [self.indent_level += k] *)
Definition shift (k : Z) (g : t) : t := mk (code_lines g) (indent_level g + k).

(** [sep.join(l)] *)
Fixpoint join (sep : string) (l : list string) : string :=
  match l with
  | [] => EmptyString
  | [x] => x
  | x :: l' => x +:+ sep +:+ join sep l'
  end.

Definition visit_number_literal (value : PyFloat.float) : string :=
  PyFloat.to_string value.

Definition visit_string_literal (value : string) : string :=
  String PyStr.dquote (value +:+ String PyStr.dquote EmptyString).

(** The visits of expressions return text and emit nothing. *)
Fixpoint visit_expression (e : Expression) : string :=
  match e with
  | NumberLiteral value => visit_number_literal value
  | StringLiteral value => visit_string_literal value
  | Identifier name => name
  | BinaryOperation lhs operator rhs =>
      let l := visit_expression lhs in
      let r := visit_expression rhs in
      if decide (operator = "&&") then "(" +:+ l +:+ " and " +:+ r +:+ ")"
      else if decide (operator = "||") then "(" +:+ l +:+ " or " +:+ r +:+ ")"
      else "(" +:+ l +:+ " " +:+ operator +:+ " " +:+ r +:+ ")"
  | UnaryOperation operator operand =>
      let o := visit_expression operand in
      if decide (operator = "!") then "(not " +:+ o +:+ ")"
      else "(" +:+ operator +:+ o +:+ ")"
  end.

Definition visit_assignment_statement (target operator : string) (value : Expression)
    (g : t) : t :=
  let v := visit_expression value in
  if decide (operator = "=") then emit (target +:+ " = " +:+ v) g
  else if decide (operator = "+=") then emit (target +:+ " += " +:+ v) g
  else if decide (operator = "-=") then emit (target +:+ " -= " +:+ v) g
  else g.

Definition visit_print_statement (expression : Expression) (g : t) : t :=
  emit ("custom_print(" +:+ visit_expression expression +:+ ")") g.

Definition visit_scan_statement (target : string) (g : t) : t :=
  emit (target +:+ " = float(custom_input())") g.

(** [for stmt in body: accept_visitor(stmt, self)] *)
Definition visit_all (visit : Statement -> t -> t) : list Statement -> t -> t :=
  fix go (l : list Statement) (g : t) : t :=
    match l with
    | [] => g
    | s :: l' => go l' (visit s g)
    end.

Fixpoint visit_statement (s : Statement) (g : t) : t :=
  match s with
  | AssignmentStatement target operator value =>
      visit_assignment_statement target operator value g
  | PrintStatement expression => visit_print_statement expression g
  | ScanStatement target => visit_scan_statement target g
  | WhileStatement condition body =>
      let g := emit ("while " +:+ visit_expression condition +:+ ":") g in
      let g := shift 1 g in
      let g := visit_all visit_statement body g in
      shift (-1) g
  | IfStatement condition then_body else_body =>
      let g := emit ("if " +:+ visit_expression condition +:+ ":") g in
      let g := shift 1 g in
      let g := visit_all visit_statement then_body g in
      let g := shift (-1) g in
      match else_body with
      | Some ((_ :: _) as l) =>
          let g := emit "else:" g in
          let g := shift 1 g in
          let g := visit_all visit_statement l g in
          shift (-1) g
      | Some [] | None => g
      end
  end.

Definition visit_program (p : Program) (g : t) : t :=
  visit_all visit_statement (statements p) g.

(** The setup [generate] emits in front of the program. *)
Definition emit_header (g : t) : t :=
  let g := emit "# Generated Python code" g in
  let g := emit "# Modules and variables are provided by the execution environment" g in
  let g := emit "" g in
  let g := emit "def custom_input():" g in
  let g := shift 1 g in
  let g := emit "global input_index" g in
  let g := emit "if input_index < len(input_values):" g in
  let g := shift 1 g in
  let g := emit "value = input_values[input_index]" g in
  let g := emit "input_index += 1" g in
  let g := emit "return value" g in
  let g := shift (-1) g in
  let g := emit "else:" g in
  let g := shift 1 g in
  let g := emit "return '0'" g in
  let g := shift (-2) g in
  let g := emit "" g in
  let g := emit "def custom_print(value):" g in
  let g := shift 1 g in
  let g := emit "output_buffer.write(str(value) + '\n')" g in
  let g := shift (-1) g in
  let g := emit "" g in
  emit "# Main execution" g.

(** [generate]: the Python text, and the generator as the call leaves it. *)
Definition generate (ast : Program) (g : t) : string * t :=
  let g := emit_header (mk [] 0) in
  let g := visit_program ast g in
  let g := emit "" g in
  let g := emit "result = output_buffer.getvalue()" g in
  (join (String PyStr.newline EmptyString) (code_lines g), g).

End DirectASTToPythonGenerator.

(** ** compiler.py: the stages up to the optimizer *)

Module SourceToSourceCompiler.

Inductive Failure : Type :=
| LexFailure (e : SyntaxError)
| ParseFailure (e : ParserException)
| SemanticErrors (errors : list string)
| OptimizerFailure (e : RLOptimizer.Exception).

Definition lift {E A} (wrap : E -> Failure) (r : outcome E A) : outcome Failure A :=
  match r with
  | Ok a => Ok a
  | Raise e => Raise (wrap e)
  | OutOfFuel => OutOfFuel
  end.

(** Stages 1 and 2: [Lexer(source_code).tokenize()], [Parser(tokens).parse()]. *)
Definition parse_source (source_code : string) : outcome Failure Program :=
  tokens ← lift LexFailure (Lexer.tokenize source_code);
  lift ParseFailure (Parser.parse tokens).

(** Stages 1 to 4 with a new analyzer and generator: the intermediate code
    of a source text that passes the semantic analysis. *)
Definition intermediate_code (source_code : string)
  : outcome Failure (list ThreeAddressCode) :=
  ast ← parse_source source_code;
  let '(semantic_errors, _) := SemanticAnalyzer.analyze ast SemanticAnalyzer.init in
  match semantic_errors with
  | _ :: _ => Raise (SemanticErrors semantic_errors)
  | [] => Ok (fst (IntermediateCodeGenerator.generate ast IntermediateCodeGenerator.init))
  end.

(** Stage 5 on that code, with a new optimizer. *)
Definition optimized_code (fuel : nat) (source_code : string)
  : outcome Failure (list ThreeAddressCode * list string) :=
  code ← intermediate_code source_code;
  lift OptimizerFailure (snd (RLOptimizer.optimize fuel code RLOptimizer.init)).

(** Stage 6 on the program of stages 1 to 3, with a new generator: the
    Python text of a source text that passes the semantic analysis. *)
Definition python_code (source_code : string) : outcome Failure string :=
  ast ← parse_source source_code;
  let '(semantic_errors, _) := SemanticAnalyzer.analyze ast SemanticAnalyzer.init in
  match semantic_errors with
  | _ :: _ => Raise (SemanticErrors semantic_errors)
  | [] => Ok (fst (DirectASTToPythonGenerator.generate ast DirectASTToPythonGenerator.init))
  end.

End SourceToSourceCompiler.

(** * Vocabulary of the properties *)

(** What the constant-folding pass leaves in the place of an instruction. *)
Definition fold_or_keep (instr : ThreeAddressCode) : ThreeAddressCode :=
  default instr (RLOptimizer.folded instr).

(** The code the first pass of [optimize] leaves. *)
Definition constant_folded (code : list ThreeAddressCode) : list ThreeAddressCode :=
  fst (fst (RLOptimizer.constant_folding_pass code [] RLOptimizer.init)).

(** [name] is assigned a literal by some instruction of [code]. *)
Definition assigns_literal (name : string) (code : list ThreeAddressCode) : bool :=
  existsb (fun instr =>
             bool_decide (operation instr = "ASSIGN")
             && bool_decide (result instr = Some name)
             && RLOptimizer.is_constant (arg1 instr))
          code.

(** The float [1.0]. *)
Definition one : PyFloat.float := S754_finite false 4503599627370496 (-52).

(** The scenario [x = 2; y = x + 3; print(y);] and its intermediate code. *)
Definition scenario_source : string := "x = 2; y = x + 3; print(y);".

Definition scenario_code : list ThreeAddressCode :=
  [ TAC "ASSIGN" (Some "2.0") None (Some "x");
    TAC "+" (Some "x") (Some "3.0") (Some "t1");
    TAC "ASSIGN" (Some "t1") None (Some "y");
    TAC "PRINT" (Some "y") None None ].

(** [x = 0; while (1) { x = x + 1; }] and the code the first three passes
    of [optimize] leave of it: the test of the loop is the literal [1.0],
    which no instruction defines, and the increment reads [x]. *)
Definition stuck_source : string := "x = 0; while (1) { x = x + 1; }".

Definition stuck_code : list ThreeAddressCode :=
  [ TAC "ASSIGN" (Some "0.0") None (Some "x");
    TAC "LABEL" (Some "L1") None None;
    TAC "IF_FALSE" (Some "1.0") (Some "L2") None;
    TAC "+" (Some "x") (Some "1.0") (Some "t1");
    TAC "GOTO" (Some "L1") None None;
    TAC "LABEL" (Some "L2") None None ].

(** The operators of an expression: its binary and unary operation nodes. *)
Fixpoint expression_operators (e : Expression) : nat :=
  match e with
  | BinaryOperation lhs _ rhs => S (expression_operators lhs + expression_operators rhs)
  | UnaryOperation _ operand => S (expression_operators operand)
  | NumberLiteral _ | StringLiteral _ | Identifier _ => 0
  end.

Fixpoint statement_operators (s : Statement) : nat :=
  match s with
  | AssignmentStatement _ _ value => expression_operators value
  | PrintStatement expression => expression_operators expression
  | ScanStatement _ => 0
  | WhileStatement condition body =>
      expression_operators condition + sum_list (statement_operators <$> body)
  | IfStatement condition then_body else_body =>
      expression_operators condition + sum_list (statement_operators <$> then_body)
      + match else_body with
        | Some l => sum_list (statement_operators <$> l)
        | None => 0
        end
  end.

(** The number of expression operators in a program. *)
Definition program_operators (p : Program) : nat :=
  sum_list (statement_operators <$> statements p).

(** A statement that is no [while] and no [if]. *)
Definition is_plain (s : Statement) : bool :=
  match s with
  | AssignmentStatement _ _ _ | PrintStatement _ | ScanStatement _ => true
  | WhileStatement _ _ | IfStatement _ _ _ => false
  end.

(** An assignment with [+=] or [-=]. *)
Definition is_compound_assignment (s : Statement) : bool :=
  match s with
  | AssignmentStatement _ operator _ =>
      bool_decide (operator = "+=") || bool_decide (operator = "-=")
  | _ => false
  end.

(** The assignment operators the parser produces: [=], [+=], [-=]. *)
Definition has_parsed_operator (s : Statement) : bool :=
  match s with
  | AssignmentStatement _ operator _ =>
      bool_decide (operator = "=") || is_compound_assignment s
  | _ => true
  end.

(** [x += 1;] *)
Definition increment_program : Program :=
  Build_Program [AssignmentStatement "x" "+=" (NumberLiteral one)].

(** [x = 2; y = x + 3; y -= -x * 2; scan(z); print(y / z);] *)
Definition straight_line_source : string :=
  "x = 2; y = x + 3; y -= -x * 2; scan(z); print(y / z);".

Definition straight_line_program : Program :=
  Eval vm_compute in
    match SourceToSourceCompiler.parse_source straight_line_source with
    | Ok p => p
    | _ => Build_Program []
    end.

(** The instructions a generator has emitted between two of its states. *)
Definition emitted (g g' : IntermediateCodeGenerator.t) : list ThreeAddressCode :=
  drop (length (IntermediateCodeGenerator.code g)) (IntermediateCodeGenerator.code g').

(** The name of the [n]-th label of a generation. *)
Definition label_name (n : nat) : string := "L" +:+ PyStr.str_nat n.

(** The identifier [x] occurs in the expression [e]. *)
Fixpoint mentions (x : string) (e : Expression) : bool :=
  match e with
  | Identifier name => bool_decide (name = x)
  | BinaryOperation lhs _ rhs => mentions x lhs || mentions x rhs
  | UnaryOperation _ operand => mentions x operand
  | NumberLiteral _ | StringLiteral _ => false
  end.


(** Some assignment or [scan] in [s], at any depth, has the target [x]. *)
Fixpoint defines (x : string) (s : Statement) : bool :=
  match s with
  | AssignmentStatement target _ _ => bool_decide (target = x)
  | ScanStatement target => bool_decide (target = x)
  | PrintStatement _ => false
  | WhileStatement _ body => existsb (defines x) body
  | IfStatement _ then_body else_body =>
      existsb (defines x) then_body
      || match else_body with
         | Some l => existsb (defines x) l
         | None => false
         end
  end.


(** [x = x + 1;] *)
Definition self_reference_program : Program :=
  Build_Program
    [AssignmentStatement "x" "=" (BinaryOperation (Identifier "x") "+" (NumberLiteral one))].

(** The number of newline characters among the first [p] characters. *)
Definition newlines_before (p : nat) (s : string) : nat :=
  length (List.filter (Ascii.eqb PyStr.newline) (take p (PyStr.chars s))).

(** The characters [tokenize] accepts wherever they stand outside strings
    and comments: blanks, the newline, digits, the double quote, letters,
    the underscore, the operator and delimiter characters; [&] and [|] are
    left out, which are accepted in pairs only. *)
Definition always_tokenized (c : ascii) : bool :=
  Lexer.is_blank c || Ascii.eqb c PyStr.newline || PyStr.isdigit c
  || Ascii.eqb c PyStr.dquote || PyStr.isalpha c || Ascii.eqb c "_"
  || (Lexer.is_operator_start c && negb (Ascii.eqb c "&") && negb (Ascii.eqb c "|"))
  || Lexer.is_delimiter c.

(** The lexer's line counter is one more than the newlines it has passed. *)
Definition line_counted (lx : Lexer.t) : Prop :=
  Lexer.line lx = S (newlines_before (Lexer.position lx) (Lexer.source lx)).

(** What the scanning loops keep: the source, the line count, and the
    position never moving back. *)
Definition follows (lx lx' : Lexer.t) : Prop :=
  Lexer.source lx' = Lexer.source lx /\ Lexer.position lx <= Lexer.position lx'
  /\ (line_counted lx -> line_counted lx').

(** [v] is an operand of [instr]. *)
Definition reads (v : string) (instr : ThreeAddressCode) : bool :=
  bool_decide (arg1 instr = Some v) || bool_decide (arg2 instr = Some v).

(** The use of [v] by [instr] that [analyze_code] records: [v] is an operand
    of [instr], is not empty, and is not taken for a literal. *)
Definition recorded_use (v : string) (instr : ThreeAddressCode) : bool :=
  reads v instr && PyStr.truthy (Some v) && negb (RLOptimizer.is_constant (Some v)).

(** [j] is a use site of [v] in the usage table [usage]. *)
Definition site_of (usage : gmap string (gset nat)) (v : string) (j : nat) : Prop :=
  exists sites, usage !! v = Some sites /\ j ∈ sites.

(** The usage table of [o] is the one [analyze_code(code)] computes. *)
Definition analysis_current (o : RLOptimizer.t) (code : list ThreeAddressCode) : Prop :=
  RLOptimizer.variable_usage o
  = RLOptimizer.variable_usage (RLOptimizer.analyze_code code o).

(** The elements of [l] that [keep] marks. *)
Fixpoint select {A} (keep : list bool) (l : list A) : list A :=
  match keep, l with
  | k :: keep', x :: l' => if k then x :: select keep' l' else select keep' l'
  | _, _ => []
  end.

(** No instruction of [later] has the result of [instr] as an operand, when
    that result is a name (not empty) that does not read as a literal. *)
Definition unread (instr : ThreeAddressCode) (later : list ThreeAddressCode) : Prop :=
  forall r, result instr = Some r ->
            PyStr.truthy (Some r) = true ->
            RLOptimizer.is_constant (Some r) = false ->
            Forall (fun l => reads r l = false) later.

(** [instr] is none of PRINT, SCAN, LABEL, GOTO, IF_FALSE. *)
Definition unprotected (instr : ThreeAddressCode) : Prop :=
  RLOptimizer.op_in (operation instr) RLOptimizer.side_effects = false.

(** [a = 1; print(a);] and [a = 1; print(2);] as intermediate code. *)
Definition live_code : list ThreeAddressCode :=
  [ TAC "ASSIGN" (Some "1.0") None (Some "a"); TAC "PRINT" (Some "a") None None ].

Definition dead_code : list ThreeAddressCode :=
  [ TAC "ASSIGN" (Some "1.0") None (Some "a"); TAC "PRINT" (Some "2.0") None None ].

(** [inf = 1; print(inf);] *)
Definition literal_named_program : Program :=
  Build_Program
    [AssignmentStatement "inf" "=" (NumberLiteral one); PrintStatement (Identifier "inf")].

(** * Vocabulary of the further properties *)

(** The text of a NUMBER token: it opens with a digit and holds digits and
    dots. *)
Definition number_text (v : string) : bool :=
  match v with
  | String c _ => PyStr.isdigit c && forallb Lexer.is_number_char (PyStr.chars v)
  | EmptyString => false
  end.

(** The text of an identifier or keyword: it opens with a letter or an
    underscore and holds letters, digits and underscores. *)
Definition word_text (v : string) : bool :=
  match v with
  | String c _ =>
      (PyStr.isalpha c || Ascii.eqb c "_")
      && forallb Lexer.is_identifier_char (PyStr.chars v)
  | EmptyString => false
  end.

(** The value of [tok] is of the lexical class of its type.  No token
    [tokenize] reads from the text is an EOF token. *)
Definition well_formed (tok : Token.t) : bool :=
  let v := Token.value tok in
  match Token.type tok with
  | NUMBER => number_text v
  | STRING => true
  | IDENTIFIER => word_text v && bool_decide (Lexer.keywords v = None)
  | PRINT | SCAN | WHILE | IF | ELSE =>
      bool_decide (Lexer.keywords v = Some (Token.type tok))
  | LPAREN => bool_decide (v = "(")
  | RPAREN => bool_decide (v = ")") || bool_decide (v = "}")
  | LBRACE => bool_decide (v = "{")
  | SEMICOLON => bool_decide (v = ";")
  | NEWLINE => bool_decide (v = Lexer.str1 PyStr.newline)
  | EOF => false
  | _ => bool_decide (Lexer.operators v = Some (Token.type tok))
  end.

(** The numbers of [l] never decrease. *)
Definition ascending (l : list nat) : Prop :=
  forall i j x y, i <= j -> l !! i = Some x -> l !! j = Some y -> x <= y.

(** What the loop of [tokenize] keeps of its tokens: they are well formed,
    their lines start at 1, never decrease and do not pass the line of the
    lexer, and there are no more of them than characters read. *)
Definition tokens_invariant (lx : Lexer.t) : Prop :=
  line_counted lx
  /\ Forall (fun tok => well_formed tok = true) (Lexer.tokens lx)
  /\ ascending (Token.line <$> Lexer.tokens lx)
  /\ Forall (fun tok => 1 <= Token.line tok <= Lexer.line lx) (Lexer.tokens lx)
  /\ length (Lexer.tokens lx) <= Lexer.position lx
  /\ length (Lexer.tokens lx) <= Lexer.len lx.

(** [x = 1;] and [print(x);] on two lines. *)
Definition two_line_source : string :=
  "x = 1;" +:+ Lexer.str1 PyStr.newline +:+ "print(x);".

(** The last token of [toks] is an EOF token. *)
Definition ends_in_eof (toks : list Token.t) : Prop :=
  Token.type <$> last toks = Some EOF.

(** A call returned: with a value or with an exception. *)
Definition returned {E A} (r : outcome E A) : Prop :=
  match r with
  | Ok _ | Raise _ => True
  | OutOfFuel => False
  end.


Section ParserVocabulary.
Import Parser.

(** The parser stands on a token of a list that ends in EOF. *)
Definition on_tokens (p : t) : Prop :=
  ends_in_eof (tokens p) /\ position p < length (tokens p).

(** The tokens in front of the last one that are still to read. *)
Definition tokens_left (p : t) : nat := length (tokens p) - 1 - position p.

(** The outcome [r] of a call made at [p]: it returned, and on the same
    tokens, not before [p]; [strict]: behind [p]. *)
Definition steps {A} (strict : bool) (p : t) (r : M A) : Prop :=
  match r with
  | Ok (_, p') =>
      on_tokens p' /\ tokens p' = tokens p
      /\ (if strict then position p < position p' else position p <= position p')
  | Raise _ => True
  | OutOfFuel => False
  end.

(** The outcome of [parse_statement] at [p]: a statement read takes a
    token; without one the parser stands on an EOF token. *)
Definition statement_steps (p : t) (r : M (option Statement)) : Prop :=
  match r with
  | Ok (Some _, p') => on_tokens p' /\ tokens p' = tokens p /\ position p < position p'
  | Ok (None, p') =>
      on_tokens p' /\ tokens p' = tokens p /\ position p <= position p'
      /\ match_ p' [EOF] = true
  | Raise _ => True
  | OutOfFuel => False
  end.

End ParserVocabulary.

(** Some division in [e], with [/] or [%], has the literal zero as its
    right operand. *)
Fixpoint divides_by_zero (e : Expression) : bool :=
  match e with
  | BinaryOperation lhs operator rhs =>
      divides_by_zero lhs || divides_by_zero rhs
      || ((bool_decide (operator = "/") || bool_decide (operator = "%"))
          && SemanticAnalyzer.is_literal_zero rhs)
  | UnaryOperation _ operand => divides_by_zero operand
  | NumberLiteral _ | StringLiteral _ | Identifier _ => false
  end.

(** Some expression of [s], at any depth, satisfies [p]. *)
Fixpoint statement_has (p : Expression -> bool) (s : Statement) : bool :=
  match s with
  | AssignmentStatement _ _ value => p value
  | PrintStatement expression => p expression
  | ScanStatement _ => false
  | WhileStatement condition body => p condition || existsb (statement_has p) body
  | IfStatement condition then_body else_body =>
      p condition || existsb (statement_has p) then_body
      || match else_body with
         | Some l => existsb (statement_has p) l
         | None => false
         end
  end.

(** Where a message comes from: it was there, or it is the division
    message, or it names an identifier of the statement that the table did
    not hold when the visit began. *)
Definition sound_from (a : SemanticAnalyzer.t) (mentioned : string -> bool) (m : string) : Prop :=
  m ∈ SemanticAnalyzer.errors a \/ m = "Division by zero"
  \/ exists x, m = SemanticAnalyzer.undefined_variable x
               /\ SymbolTable.lookup x (SemanticAnalyzer.symbol_table a) = false
               /\ mentioned x = true.

(** The name of the [n]-th temporary of a generation. *)
Definition temp_name (n : nat) : string := "t" +:+ PyStr.str_nat n.

(** The operands of the LABEL instructions of [code], in order. *)
Definition labels_of (code : list ThreeAddressCode) : list (option string) :=
  omap (fun instr =>
          if decide (operation instr = "LABEL") then Some (arg1 instr) else None)
       code.

(** The jump targets of [code]: the operand of a GOTO, the second operand
    of an IF_FALSE. *)
Definition targets_of (code : list ThreeAddressCode) : list (option string) :=
  omap (fun instr =>
          if decide (operation instr = "GOTO") then Some (arg1 instr)
          else if decide (operation instr = "IF_FALSE") then Some (arg2 instr)
          else None)
       code.

(** Some operation node of [e] has an operator among [ops]. *)
Fixpoint has_operator (ops : list string) (e : Expression) : bool :=
  match e with
  | BinaryOperation lhs operator rhs =>
      bool_decide (operator ∈ ops) || has_operator ops lhs || has_operator ops rhs
  | UnaryOperation operator operand =>
      bool_decide (operator ∈ ops) || has_operator ops operand
  | NumberLiteral _ | StringLiteral _ | Identifier _ => false
  end.

(** The operations of the intermediate code that carry labels. *)
Definition control_operations : list string := ["LABEL"; "GOTO"; "IF_FALSE"].

(** The labels a piece of code defines are those numbered [ns], each
    once, all issued after [n] and up to [n']; its jumps go to labels it
    defines. *)
Definition labels_closed (n n' : nat) (l : list ThreeAddressCode) : Prop :=
  exists ns,
    labels_of l ≡ₚ (fun k => Some (label_name k)) <$> ns
    /\ NoDup ns /\ Forall (fun k => n < k <= n') ns
    /\ forall target, target ∈ targets_of l -> target ∈ labels_of l.

(** A loop with a conditional in it. *)
Definition nested_source : string :=
  "while (x < 3) { if (x) { x = x + 1; } else { x = 2; } if (x) { } }".

Definition nested_program : Program :=
  Eval vm_compute in
    match SourceToSourceCompiler.parse_source nested_source with
    | Ok p => p
    | _ => Build_Program []
    end.

(** A rewrite of the instruction at [position] that stays in place: the
    length, every other instruction, and the result of every instruction
    are those of [code]. *)
Definition in_place (code code' : list ThreeAddressCode) (position : nat) : Prop :=
  length code' = length code
  /\ (forall i, i <> position -> code' !! i = code !! i)
  /\ result <$> code' = result <$> code.

(** A loop as [find_loops] records it: a LABEL at [start], a GOTO to that
    label at [end_] behind it, and at [condition], between the two, an
    IF_FALSE. *)
Definition loop_span (code : list ThreeAddressCode) (l : RLOptimizer.Loop) : Prop :=
  RLOptimizer.start l < RLOptimizer.condition l < RLOptimizer.end_ l
  /\ (exists instr, code !! RLOptimizer.start l = Some instr
                    /\ operation instr = "LABEL"
                    /\ arg1 instr = RLOptimizer.label l)
  /\ (exists instr, code !! RLOptimizer.end_ l = Some instr
                    /\ operation instr = "GOTO"
                    /\ arg1 instr = RLOptimizer.label l)
  /\ (exists instr, code !! RLOptimizer.condition l = Some instr
                    /\ operation instr = "IF_FALSE")
  /\ (forall j instr, RLOptimizer.start l <= j < RLOptimizer.condition l ->
                      code !! j = Some instr -> operation instr <> "IF_FALSE").

(** The fields of a loop that the nesting pass leaves alone. *)
Definition loop_core (l : RLOptimizer.Loop)
  : nat * nat * nat * option string * gset string * list nat :=
  (RLOptimizer.start l, RLOptimizer.end_ l, RLOptimizer.condition l,
   RLOptimizer.label l, RLOptimizer.modified_vars l, RLOptimizer.invariant_candidates l).

(** The loops are in the order of their starts. *)
Definition by_start (loops : list RLOptimizer.Loop) : Prop :=
  forall i j li lj, i <= j -> loops !! i = Some li -> loops !! j = Some lj ->
                    RLOptimizer.start li <= RLOptimizer.start lj.

(** Every loop starts no later than the loops behind it. *)
Fixpoint starts_sorted (loops : list RLOptimizer.Loop) : Prop :=
  match loops with
  | [] => True
  | l :: rest =>
      Forall (fun l' => RLOptimizer.start l <= RLOptimizer.start l') rest
      /\ starts_sorted rest
  end.

(** The increment [t1 = i + 1.0] on its own. *)
Definition increment_code : list ThreeAddressCode :=
  [ TAC "+" (Some "i") (Some "1.0") (Some "t1") ].

(** A loop with a constant assignment in its body. *)
Definition loop_code : list ThreeAddressCode :=
  [ TAC "LABEL" (Some "L1") None None;
    TAC "<" (Some "i") (Some "3.0") (Some "t1");
    TAC "IF_FALSE" (Some "t1") (Some "L2") None;
    TAC "ASSIGN" (Some "5.0") None (Some "a");
    TAC "GOTO" (Some "L1") None None;
    TAC "LABEL" (Some "L2") None None ].

(** The kinds of action the rewrite primitives implement in place or by
    deletion. *)
Definition local_actions : list string :=
  ["constant_folding"; "dead_code_elimination"; "common_subexpression";
   "strength_reduction"].

(** [t1 = x * 2] with a later use of [t1]: a strength reduction is
    proposed. *)
Definition doubling_code : list ThreeAddressCode :=
  [ TAC "*" (Some "x") (Some "2") (Some "t1"); TAC "PRINT" (Some "t1") None None ].

(** [line] opens with [pre]. *)
Definition opens_with (pre line : string) : Prop := exists rest, line = pre +:+ rest.

(** The lines a Python generator has emitted between two of its states. *)
Definition emitted_lines (g g' : DirectASTToPythonGenerator.t) : list string :=
  drop (length (DirectASTToPythonGenerator.code_lines g))
       (DirectASTToPythonGenerator.code_lines g').


(** * The lowering of the specification

    §4.4 of the specification says what the generator emits for every kind
    of node.  [LoweringScheme] writes these sentences down as functions
    from the syntax tree to the instructions, with the number of
    temporaries and of labels issued so far as arguments.  Nothing in it is
    taken from the generator: the theorems compare the two. *)

Module LoweringScheme.

(** "Expression lowering returns an operand reference (a literal's own
    text, or a freshly allocated temporary holding a computed
    sub-result)": the temporary of an operation is the last one its
    operators take, [t] of them being issued before. *)
Definition operand (t : nat) (e : Expression) : string :=
  match e with
  | NumberLiteral value => PyFloat.to_string value
  | StringLiteral value => String PyStr.dquote (value +:+ String PyStr.dquote EmptyString)
  | Identifier name => name
  | BinaryOperation _ _ _ | UnaryOperation _ _ => temp_name (t + expression_operators e)
  end.

(** "... and emits zero or more instructions as a side effect; evaluation
    order is left-then-right for every binary form": the instructions of
    the left operand, those of the right one, and the operation itself. *)
Fixpoint expression (t : nat) (e : Expression) : list ThreeAddressCode :=
  match e with
  | NumberLiteral _ | StringLiteral _ | Identifier _ => []
  | BinaryOperation lhs operator rhs =>
      let t' := t + expression_operators lhs in
      expression t lhs ++ expression t' rhs
      ++ [TAC operator (Some (operand t lhs)) (Some (operand t' rhs)) (Some (operand t e))]
  | UnaryOperation operator operand_ =>
      expression t operand_
      ++ [TAC operator (Some (operand t operand_)) None (Some (operand t e))]
  end.

(** [+=] and [-=] go through a temporary of their own. *)
Definition is_compound (operator : string) : bool :=
  bool_decide (operator = "+=") || bool_decide (operator = "-=").

(** The temporaries a statement takes: one for every operator of its
    expressions, and one for a compound assignment. *)
Fixpoint temporaries (s : Statement) : nat :=
  match s with
  | AssignmentStatement _ operator value =>
      expression_operators value + (if is_compound operator then 1 else 0)
  | PrintStatement expression => expression_operators expression
  | ScanStatement _ => 0
  | WhileStatement condition body =>
      expression_operators condition + sum_list (temporaries <$> body)
  | IfStatement condition then_body else_body =>
      expression_operators condition + sum_list (temporaries <$> then_body)
      + match else_body with
        | Some l => sum_list (temporaries <$> l)
        | None => 0
        end
  end.

(** The labels a statement takes: two for every [while] and every [if]. *)
Fixpoint labels (s : Statement) : nat :=
  match s with
  | AssignmentStatement _ _ _ | PrintStatement _ | ScanStatement _ => 0
  | WhileStatement _ body => 2 + sum_list (labels <$> body)
  | IfStatement _ then_body else_body =>
      2 + sum_list (labels <$> then_body)
      + match else_body with
        | Some l => sum_list (labels <$> l)
        | None => 0
        end
  end.

(** The instructions of a block: those of its statements, in order, each
    numbering its temporaries and labels behind the ones before it. *)
Definition block (statement : nat -> nat -> Statement -> list ThreeAddressCode)
  : nat -> nat -> list Statement -> list ThreeAddressCode :=
  fix go (t n : nat) (l : list Statement) : list ThreeAddressCode :=
    match l with
    | [] => []
    | s :: l' => statement t n s ++ go (t + temporaries s) (n + labels s) l'
    end.

(** "Statement lowering: assignment with [=] emits one ASSIGN; [+=]/[-=]
    emit the corresponding binary op into a temporary then an ASSIGN back
    into the target.  [print] emits PRINT of the evaluated operand.  [scan]
    emits a SCAN whose result is the target name directly.  [while] emits:
    LABEL(start), condition code, IF_FALSE(condition, end-label), body
    code, GOTO(start), LABEL(end).  [if] emits: condition code,
    IF_FALSE(condition, else-label), then-body, [GOTO(end-label),
    LABEL(else-label), else-body,] LABEL(end-label or else-label)
    depending on whether an else-branch exists."

    [t] temporaries and [n] labels are issued before the statement.  The
    syntax tree has the assignment operators [=], [+=] and [-=] only; an
    else-branch without a statement counts as none. *)
Fixpoint statement (t n : nat) (s : Statement) : list ThreeAddressCode :=
  match s with
  | AssignmentStatement target operator value =>
      let v := operand t value in
      let temp := temp_name (S (t + expression_operators value)) in
      expression t value
      ++ (if decide (operator = "=") then
            [TAC "ASSIGN" (Some v) None (Some target)]
          else if decide (operator = "+=") then
            [TAC "+" (Some target) (Some v) (Some temp);
             TAC "ASSIGN" (Some temp) None (Some target)]
          else if decide (operator = "-=") then
            [TAC "-" (Some target) (Some v) (Some temp);
             TAC "ASSIGN" (Some temp) None (Some target)]
          else [])
  | PrintStatement e =>
      expression t e ++ [TAC "PRINT" (Some (operand t e)) None None]
  | ScanStatement target => [TAC "SCAN" None None (Some target)]
  | WhileStatement condition body =>
      let start_label := label_name (S n) in
      let end_label := label_name (S (S n)) in
      [TAC "LABEL" (Some start_label) None None]
      ++ expression t condition
      ++ [TAC "IF_FALSE" (Some (operand t condition)) (Some end_label) None]
      ++ block statement (t + expression_operators condition) (S (S n)) body
      ++ [TAC "GOTO" (Some start_label) None None;
          TAC "LABEL" (Some end_label) None None]
  | IfStatement condition then_body else_body =>
      let else_label := label_name (S n) in
      let end_label := label_name (S (S n)) in
      let t1 := t + expression_operators condition in
      expression t condition
      ++ [TAC "IF_FALSE" (Some (operand t condition)) (Some else_label) None]
      ++ block statement t1 (S (S n)) then_body
      ++ match else_body with
         | Some ((_ :: _) as l) =>
             [TAC "GOTO" (Some end_label) None None;
              TAC "LABEL" (Some else_label) None None]
             ++ block statement (t1 + sum_list (temporaries <$> then_body))
                  (S (S n) + sum_list (labels <$> then_body)) l
             ++ [TAC "LABEL" (Some end_label) None None]
         | Some [] | None => [TAC "LABEL" (Some else_label) None None]
         end
  end.

(** "Contract: [generate(Program) -> sequence<Instruction>]", the
    counters starting anew. *)
Definition program (p : Program) : list ThreeAddressCode :=
  block statement 0 0 (statements p).

End LoweringScheme.

(** * The lexical structure of the specification

    §4.1 of the specification says what the lexer reads.  It skips spaces,
    tabs and carriage returns; it emits the newline; it strips comments,
    which run from [//] to the end of the line; it recognizes decimal
    numbers (digits and the decimal point), double-quoted strings in which
    a backslash makes it skip the following character, and identifiers and
    keywords by maximal munch; it resolves one- and two-character operators
    by looking two characters ahead and falling back to one.  Unknown
    characters are a hard failure, and by §7 so is an unterminated string.

    [LexicalStructure] writes this down as an automaton that reads the
    text one character at a time and knows, at every character, what it is
    in the middle of.  Nothing in it is taken from the lexer: no position
    in a source, no token, no loop.  The theorems compare the two. *)

Module LexicalStructure.

(** What the character read belongs to. *)
Inductive mode : Set :=
| Code      (** between two tokens *)
| Number    (** in a number *)
| Word      (** in an identifier or keyword *)
| Text      (** in a string, behind its opening quote *)
| Escape    (** in a string, behind a backslash *)
| Comment   (** in a comment *)
| Paired.   (** on the second character of [&&] or [||] *)

(** The two lexical faults: a string that the text ends in, and a
    character, at position [p], that starts nothing. *)
Inductive fault : Set :=
| UnterminatedText
| Stray (p : nat).

(** Spaces, tabs and carriage returns. *)
Definition blank (c : ascii) : bool :=
  Ascii.eqb c " " || Ascii.eqb c PyStr.tab || Ascii.eqb c PyStr.cr.

(** The characters that are an operator or a delimiter on their own. *)
Definition symbol (c : ascii) : bool := PyStr.char_in c "+-=!><*/(){};".

(** The operators that come doubled only. *)
Definition doubled (c : ascii) : bool := PyStr.char_in c "&|".

(** Reading [c] between two tokens, [next] being the character after it:
    what [c] starts, or nothing when it is unknown. *)
Definition code_step (c : ascii) (next : option ascii) : option mode :=
  if blank c || Ascii.eqb c PyStr.newline then Some Code
  else if Ascii.eqb c "/" && bool_decide (next = Some "/"%char) then Some Comment
  else if PyStr.isdigit c then Some Number
  else if Ascii.eqb c PyStr.dquote then Some Text
  else if PyStr.isalpha c || Ascii.eqb c "_" then Some Word
  else if doubled c then (if bool_decide (next = Some c) then Some Paired else None)
  else if symbol c then Some Code
  else None.

(** Reading [c] in mode [m]: a number takes digits and points, a word
    letters, digits and underscores, and what they do not take is read as
    between two tokens; a string runs to the next quote that no backslash
    precedes; a comment runs to the end of its line. *)
Definition step (m : mode) (c : ascii) (next : option ascii) : option mode :=
  match m with
  | Code => code_step c next
  | Number =>
      if PyStr.isdigit c || Ascii.eqb c "." then Some Number else code_step c next
  | Word =>
      if PyStr.isalnum c || Ascii.eqb c "_" then Some Word else code_step c next
  | Text =>
      Some (if Ascii.eqb c PyStr.dquote then Code
            else if Ascii.eqb c PyStr.backslash then Escape
            else Text)
  | Escape => Some Text
  | Comment => Some (if Ascii.eqb c PyStr.newline then Code else Comment)
  | Paired => Some Code
  end.

(** The first fault of the characters [l], which stand at position [p] of
    the text and are read in mode [m]; [None] when there is none. *)
Fixpoint scan (m : mode) (p : nat) (l : list ascii) : option fault :=
  match l with
  | [] =>
      match m with
      | Text | Escape => Some UnterminatedText
      | _ => None
      end
  | c :: l' =>
      match step m c (head l') with
      | Some m' => scan m' (S p) l'
      | None => Some (Stray p)
      end
  end.

(** The first fault of a text. *)
Definition first_fault (source_code : string) : option fault :=
  scan Code 0 (PyStr.chars source_code).

(** How many characters at the head of [l] are no newline. *)
Fixpoint run (l : list ascii) : nat :=
  match l with
  | c :: l' => if Ascii.eqb c PyStr.newline then 0 else S (run l')
  | [] => 0
  end.


(** The column of position [p]: columns are counted from 1, from the last
    newline in front of [p]. *)
Definition column_of (p : nat) (source_code : string) : nat :=
  S (run (rev (take p (PyStr.chars source_code)))).


End LexicalStructure.

(** The lexer's column counter is the column of its position, as long as
    the position is in the text or at its end. *)
Definition column_counted (lx : Lexer.t) : Prop :=
  Lexer.position lx <= Lexer.len lx ->
  Lexer.column lx = LexicalStructure.column_of (Lexer.position lx) (Lexer.source lx).


(** * Properties *)

Import SourceToSourceCompiler.

#[local] Set Warnings "-clear-no-such-hyp".

(** ** Induction over statements *)

(** The statements of a body come as hypotheses. *)
Lemma Statement_induction (P : Statement -> Prop)
    (Hassign : forall target operator value, P (AssignmentStatement target operator value))
    (Hprint : forall expression, P (PrintStatement expression))
    (Hscan : forall target, P (ScanStatement target))
    (Hwhile : forall condition body, Forall P body -> P (WhileStatement condition body))
    (Hif : forall condition then_body else_body,
        Forall P then_body ->
        (forall l, else_body = Some l -> Forall P l) ->
        P (IfStatement condition then_body else_body)) :
  forall s, P s.
Proof.
  fix IH 1. intros [target operator value|expression|target|condition body|condition tb eb].
  - apply Hassign.
  - apply Hprint.
  - apply Hscan.
  - apply Hwhile. induction body as [|x l IHl]; constructor; [apply IH | apply IHl].
  - apply Hif.
    + induction tb as [|x l IHl]; constructor; [apply IH | apply IHl].
    + destruct eb as [l'|]; [|discriminate].
      intros l [= <-]. induction l' as [|x l IHl]; constructor; [apply IH | apply IHl].
Qed.

(** ** Concrete runs *)

(** C9: [TokenType.RBRACE] is the member [TokenType.RPAREN], the lexer gives
    ")" and "}" that one type, and the parser accepts the mismatched
    [print(1};] with the same [Program] as [print(1);]. *)
Theorem rparen_rbrace_interchangeable :
  RBRACE = RPAREN
  /\ Lexer.tokenize ")" = Ok [Token.mk RPAREN ")" 1 1; Token.mk EOF EmptyString 1 2]
  /\ Lexer.tokenize "}" = Ok [Token.mk RPAREN "}" 1 1; Token.mk EOF EmptyString 1 2]
  /\ parse_source "print(1};" = Ok (Build_Program [PrintStatement (NumberLiteral one)])
  /\ parse_source "print(1};" = parse_source "print(1);".
Proof. repeat split; vm_compute; reflexivity. Qed.

(** C1, as stated, fails: after the constant-folding pass no instruction
    assigns a literal to [y] (its assignment still copies [t1]), and the
    addition is still there. *)
Lemma scenario_y_is_not_folded :
  intermediate_code scenario_source = Ok scenario_code
  /\ assigns_literal "y" (constant_folded scenario_code) = false
  /\ constant_folded scenario_code !! 2%nat = Some (TAC "ASSIGN" (Some "t1") None (Some "y"))
  /\ constant_folded scenario_code !! 1%nat = Some (TAC "+" (Some "x") (Some "3.0") (Some "t1")).
Proof. repeat split; vm_compute; reflexivity. Qed.

(** C1, amended: the source lowers to four instructions (ASSIGN, the
    addition into [t1], ASSIGN, PRINT); the addition has the variable [x] as
    an operand, so the constant-folding pass, and the whole driver, return
    the code as it is, with an empty log; only [x] is assigned a literal. *)
Theorem scenario_lowering_and_folding :
  intermediate_code scenario_source = Ok scenario_code
  /\ RLOptimizer.constant_folding_pass scenario_code [] RLOptimizer.init
     = ((scenario_code, []), RLOptimizer.init)
  /\ assigns_literal "x" (constant_folded scenario_code) = true
  /\ (forall fuel, optimized_code (S fuel) scenario_source = Ok (scenario_code, [])).
Proof.
  repeat split; try (vm_compute; reflexivity).
Qed.

(** ** The control-flow repair pass *)

Lemma stuck_code_reached :
  exists code log o,
    intermediate_code stuck_source = Ok code
    /\ RLOptimizer.optimize_passes code RLOptimizer.init = (o, Ok (stuck_code, log)).
Proof.
  eexists _, _, _. split.
  - vm_compute. reflexivity.
  - vm_compute. reflexivity.
Qed.

Lemma stuck_code_repairs_to_itself :
  RLOptimizer.first_repair RLOptimizer.repair_condition stuck_code = Some stuck_code.
Proof. vm_compute. reflexivity. Qed.

(** C4 fails on the code: on [stuck_code] the first loop of
    [fix_loop_control_flow] finds the undefined test [1.0] and the loop
    variable [x], inserts nothing ([x] holds neither [i] nor [j]) and calls
    itself on the same sequence; no depth of recursion returns. *)
Theorem fix_loop_control_flow_diverges (fuel : nat) :
  RLOptimizer.fix_loop_control_flow fuel stuck_code = OutOfFuel
  /\ optimized_code fuel stuck_source = OutOfFuel.
Proof.
  assert (H : forall n, RLOptimizer.fix_loop_control_flow n stuck_code = OutOfFuel).
  { induction n as [|n IH]; [reflexivity|].
    cbn [RLOptimizer.fix_loop_control_flow].
    rewrite stuck_code_repairs_to_itself. exact IH. }
  split; [apply H|].
  destruct stuck_code_reached as (code & log & o & Hc & Hp).
  unfold optimized_code. rewrite Hc. cbn [mbind outcome_bind].
  unfold RLOptimizer.optimize. rewrite Hp. cbn [RLOptimizer.and_then].
  rewrite H. reflexivity.
Qed.


(** ** Constant folding *)

Section ConstantFolding.
Import RLOptimizer.

Lemma folded_is_assign instr instr' :
  folded instr = Some instr' -> operation instr' = "ASSIGN".
Proof.
  unfold folded. case_match; [|done].
  intros Hf. repeat (apply bind_Some in Hf as (? & _ & Hf)).
  by simplify_eq.
Qed.

Lemma folded_assign instr : operation instr = "ASSIGN" -> folded instr = None.
Proof. unfold folded. by intros ->. Qed.

Lemma fold_or_keep_idemp instr : fold_or_keep (fold_or_keep instr) = fold_or_keep instr.
Proof.
  unfold fold_or_keep. destruct (folded instr) as [instr'|] eqn:E; simpl.
  - by rewrite (folded_assign instr' (folded_is_assign _ _ E)).
  - by rewrite E.
Qed.

Lemma apply_constant_folding_alter code position :
  apply_constant_folding code position = alter fold_or_keep position code.
Proof.
  unfold apply_constant_folding, fold_or_keep.
  apply list_eq. intros j.
  destruct (decide (position = j)) as [->|Hne].
  - rewrite list_lookup_alter_eq.
    destruct (code !! j) as [instr|] eqn:E; [|by rewrite E].
    destruct (folded instr) as [instr'|] eqn:F; simpl; rewrite ?F; simpl.
    + apply list_lookup_insert_eq. eauto using lookup_lt_Some.
    + done.
  - rewrite list_lookup_alter_ne by done.
    destruct (code !! position) as [instr|]; [|done].
    destruct (folded instr); [|done].
    by rewrite list_lookup_insert_ne.
Qed.

(** One round of the first pass changes the code as the primitive does. *)
Lemma constant_folding_step_code c l o position :
  (constant_folding_step ((c, l), o) position).1.1 = apply_constant_folding c position.
Proof.
  unfold constant_folding_step.
  destruct (c !! position) as [instr|] eqn:E.
  - destruct (op_in _ _ && _ && _) eqn:G.
    + case_decide as Hd; simpl; [by rewrite Hd | done].
    + simpl. unfold apply_constant_folding, folded. by rewrite E, G.
  - simpl. unfold apply_constant_folding. by rewrite E.
Qed.

Lemma constant_folding_steps_code st positions :
  (foldl constant_folding_step st positions).1.1
  = foldl apply_constant_folding st.1.1 positions.
Proof.
  revert st. induction positions as [|p ps IH]; intros [[c l] o]; [done|].
  change ((foldl constant_folding_step (constant_folding_step ((c, l), o) p) ps).1.1
          = foldl apply_constant_folding (apply_constant_folding c p) ps).
  by rewrite IH, constant_folding_step_code.
Qed.

Lemma apply_constant_folding_each (pre rest : list ThreeAddressCode) :
  foldl apply_constant_folding (pre ++ rest) (seq (length pre) (length rest))
  = pre ++ (fold_or_keep <$> rest).
Proof.
  revert pre. induction rest as [|x rest IH]; intros pre; [done|].
  simpl. rewrite apply_constant_folding_alter.
  rewrite alter_app_r_alt by lia. rewrite Nat.sub_diag. simpl.
  rewrite (cons_middle (fold_or_keep x)), app_assoc.
  replace (S (length pre)) with (length (pre ++ [fold_or_keep x]))
    by (rewrite length_app; simpl; lia).
  rewrite IH. by rewrite <- app_assoc.
Qed.

(** The code the first pass leaves: every instruction folded or kept. *)
Lemma constant_folding_pass_code code log o :
  (constant_folding_pass code log o).1.1 = fold_or_keep <$> code.
Proof.
  unfold constant_folding_pass. rewrite constant_folding_steps_code. simpl.
  apply (apply_constant_folding_each []).
Qed.

Lemma apply_constant_folding_folded code position :
  apply_constant_folding (fold_or_keep <$> code) position = fold_or_keep <$> code.
Proof.
  rewrite apply_constant_folding_alter. apply list_eq. intros j.
  destruct (decide (position = j)) as [->|Hne].
  - rewrite list_lookup_alter_eq, list_lookup_fmap.
    destruct (code !! j); [|done]. simpl. by rewrite fold_or_keep_idemp.
  - by rewrite list_lookup_alter_ne.
Qed.

Lemma constant_folding_step_folded code l o position :
  constant_folding_step ((fold_or_keep <$> code, l), o) position
  = ((fold_or_keep <$> code, l), o).
Proof.
  unfold constant_folding_step.
  rewrite apply_constant_folding_folded.
  repeat case_match; done.
Qed.

End ConstantFolding.

(** C7: constant folding is idempotent.  The pass run on its own output
    gives that output again (and changes nothing else: no log entry, no new
    analysis), and [apply_constant_folding] at any position of a folded
    sequence returns it unchanged. *)
Theorem constant_folding_idempotent
    (code : list ThreeAddressCode) (log log' : list string) (o o' : RLOptimizer.t) :
  let folded_code := (RLOptimizer.constant_folding_pass code log o).1.1 in
  (RLOptimizer.constant_folding_pass folded_code log' o').1.1 = folded_code
  /\ RLOptimizer.constant_folding_pass folded_code log' o' = ((folded_code, log'), o')
  /\ (forall position, RLOptimizer.apply_constant_folding folded_code position = folded_code).
Proof.
  intros folded_code. unfold folded_code.
  rewrite (constant_folding_pass_code code log o).
  assert (H : RLOptimizer.constant_folding_pass (fold_or_keep <$> code) log' o'
              = ((fold_or_keep <$> code, log'), o')).
  { unfold RLOptimizer.constant_folding_pass.
    generalize (seq 0 (length (fold_or_keep <$> code))).
    intros ps. induction ps as [|p ps IH]; [done|].
    change (foldl RLOptimizer.constant_folding_step
              (RLOptimizer.constant_folding_step ((fold_or_keep <$> code, log'), o') p) ps
            = ((fold_or_keep <$> code, log'), o')).
    by rewrite constant_folding_step_folded. }
  split_and!.
  - by rewrite H.
  - exact H.
  - intros. apply apply_constant_folding_folded.
Qed.

(** ** The Q-table is outside the driver's footprint *)

Section Frame.
Import RLOptimizer.

Lemma analyze_code_q_table code o : q_table (analyze_code code o) = q_table o.
Proof. unfold analyze_code. by destruct (analyze_from 0 code (∅, ∅)). Qed.

Lemma constant_folding_step_q_table st position :
  q_table (constant_folding_step st position).2 = q_table st.2.
Proof.
  destruct st as [[c l] o]. unfold constant_folding_step.
  repeat case_match; simpl; auto using analyze_code_q_table.
Qed.

Lemma constant_folding_pass_q_table code log o :
  q_table (constant_folding_pass code log o).2 = q_table o.
Proof.
  unfold constant_folding_pass.
  change o with (((code, log), o).2) at 2.
  generalize (seq 0 (length code)), ((code, log), o).
  intros ps. induction ps as [|p ps IH]; intros st; [done|].
  change (q_table (foldl constant_folding_step (constant_folding_step st p) ps).2
          = q_table st.2).
  by rewrite IH, constant_folding_step_q_table.
Qed.

Lemma loop_invariant_pass_q_table cas loops code log o :
  q_table (loop_invariant_pass cas loops code log o).1 = q_table o.
Proof.
  revert loops code log o. induction cas as [|ca cas IH]; intros; [done|].
  simpl. repeat case_match; simpl; rewrite ?IH; auto using analyze_code_q_table.
Qed.

Lemma dead_code_loop_q_table fuel position code log o :
  q_table (dead_code_loop fuel position code log o).1 = q_table o.
Proof.
  revert position code log o. induction fuel as [|fuel IH]; intros; simpl.
  - by case_match.
  - repeat case_match; simpl; rewrite ?IH; auto using analyze_code_q_table.
Qed.

Lemma early_passes_q_table code o :
  q_table (early_passes code o).1 = q_table o.
Proof.
  unfold early_passes.
  destruct (constant_folding_pass code [] (analyze_code code o)) as [[c l] o1] eqn:E1.
  assert (H1 : q_table o1 = q_table o).
  { change o1 with ((c, l), o1).2. rewrite <- E1.
    by rewrite constant_folding_pass_q_table, analyze_code_q_table. }
  destruct (find_constant_assignments c (find_loops c)) as [cas| |]; simpl; [|done..].
  by rewrite loop_invariant_pass_q_table.
Qed.

Lemma optimize_passes_q_table code o :
  q_table (optimize_passes code o).1 = q_table o.
Proof.
  unfold optimize_passes.
  pose proof (early_passes_q_table code o) as H.
  destruct (early_passes code o) as [o2 [[c2 l2]| |]]; simpl in *; [|done..].
  unfold dead_code_pass. by rewrite dead_code_loop_q_table.
Qed.

End Frame.

(** C6: the driver does not touch the Q-table.  Whatever the outcome of
    [optimize] (the optimized code, an exception, or a fourth pass that does
    not return within [fuel]), the optimizer it leaves has the [q_table] it
    was given. *)
Theorem optimize_preserves_q_table
    (fuel : nat) (code : list ThreeAddressCode) (o : RLOptimizer.t) :
  RLOptimizer.q_table (RLOptimizer.optimize fuel code o).1 = RLOptimizer.q_table o.
Proof.
  unfold RLOptimizer.optimize.
  pose proof (optimize_passes_q_table code o) as H.
  destruct (RLOptimizer.optimize_passes code o) as [o1 [[c l]| |]]; simpl in *; [|done..].
  by destruct (RLOptimizer.fix_loop_control_flow fuel c).
Qed.

(** ** Lowering to three-address code *)

Section Lowering.
Import IntermediateCodeGenerator.

Lemma visit_expression_length e g :
  length (code (visit_expression e g).2) = length (code g) + expression_operators e.
Proof.
  revert g. induction e as [| | |lhs IHl op rhs IHr|op operand IH]; intros g; simpl;
    try lia.
  - specialize (IHl g). destruct (visit_expression lhs g) as [l g1].
    specialize (IHr g1). destruct (visit_expression rhs g1) as [r g2].
    simpl in *. rewrite length_app. simpl. lia.
  - specialize (IH g). destruct (visit_expression operand g) as [o g1].
    simpl in *. rewrite length_app. simpl. lia.
Qed.

Lemma visit_plain_statement_length s g :
  is_plain s = true -> has_parsed_operator s = true ->
  length (code (visit_statement s g))
  = length (code g) + statement_operators s + 1
    + (if is_compound_assignment s then 1 else 0).
Proof.
  destruct s as [target operator value|expression|target| |]; simpl; try done; intros _.
  - pose proof (visit_expression_length value g) as H.
    unfold visit_assignment_statement.
    destruct (visit_expression value g) as [v g1]. simpl in H.
    intros Hop. repeat case_decide; subst; simpl in *; try done;
      rewrite ?length_app; simpl; rewrite ?length_app; simpl; lia.
  - intros _. pose proof (visit_expression_length expression g) as H.
    unfold visit_print_statement.
    destruct (visit_expression expression g) as [v g1]. simpl in *.
    rewrite length_app. simpl. lia.
  - intros _. rewrite length_app. simpl. lia.
Qed.

Lemma visit_plain_statements_length l g :
  forallb is_plain l = true -> forallb has_parsed_operator l = true ->
  length (code (visit_all visit_statement l g))
  = length (code g) + sum_list (statement_operators <$> l) + length l
    + length (List.filter is_compound_assignment l).
Proof.
  revert g. induction l as [|s l IH]; intros g Hp Ho; csimpl in *; [lia|].
  apply andb_prop in Hp as [Hp1 Hp2]. apply andb_prop in Ho as [Ho1 Ho2].
  rewrite IH by done. rewrite visit_plain_statement_length by done.
  destruct (is_compound_assignment s); csimpl; lia.
Qed.

End Lowering.

(** C8, as stated, fails: [x += 1;] has no expression operator and one
    statement, and lowers to two instructions (the addition into a
    temporary and the ASSIGN); it is the program the parser returns for
    that text. *)
Lemma compound_assignment_emits_two :
  parse_source "x += 1;" = Ok increment_program
  /\ forallb is_plain (statements increment_program) = true
  /\ program_operators increment_program + length (statements increment_program) = 1
  /\ length (IntermediateCodeGenerator.generate increment_program
               IntermediateCodeGenerator.init).1 = 2.
Proof. repeat split; vm_compute; reflexivity. Qed.

(** C8, amended: for a program with no [while] and no [if] (and the
    assignment operators the parser produces), the number of instructions
    generated is the number of expression operators, plus one per
    statement, plus one more per compound assignment ([+=] or [-=]). *)
Theorem instruction_count (p : Program) (g : IntermediateCodeGenerator.t) :
  forallb is_plain (statements p) = true ->
  forallb has_parsed_operator (statements p) = true ->
  length (IntermediateCodeGenerator.generate p g).1
  = program_operators p + length (statements p)
    + length (List.filter is_compound_assignment (statements p)).
Proof.
  intros Hp Ho. unfold IntermediateCodeGenerator.generate,
    IntermediateCodeGenerator.visit_program, program_operators. simpl.
  rewrite visit_plain_statements_length by done. simpl. lia.
Qed.

Lemma instruction_count_witness :
  parse_source straight_line_source = Ok straight_line_program
  /\ forallb is_plain (statements straight_line_program) = true
  /\ forallb has_parsed_operator (statements straight_line_program) = true
  /\ length (IntermediateCodeGenerator.generate straight_line_program
               IntermediateCodeGenerator.init).1
     = 4 + 5 + 1.
Proof.
  split_and!; [vm_compute; reflexivity..|].
  exact (instruction_count straight_line_program IntermediateCodeGenerator.init
           eq_refl eq_refl).
Defined.

Section WhileShape.
Import IntermediateCodeGenerator.

Lemma visit_expression_extends e g :
  exists l, code (visit_expression e g).2 = code g ++ l.
Proof.
  revert g. induction e as [| | |lhs IHl op rhs IHr|op operand IH]; intros g; simpl;
    try (by exists []; rewrite app_nil_r).
  - destruct (IHl g) as [l1 H1]. destruct (visit_expression lhs g) as [l g1].
    destruct (IHr g1) as [l2 H2]. destruct (visit_expression rhs g1) as [r g2].
    simpl in *. rewrite H2, H1. eexists. by rewrite <- !app_assoc.
  - destruct (IH g) as [l1 H1]. destruct (visit_expression operand g) as [o g1].
    simpl in *. rewrite H1. eexists. by rewrite <- !app_assoc.
Qed.

Lemma visit_all_extends l g :
  Forall (fun s => forall g, exists l, code (visit_statement s g) = code g ++ l) l ->
  exists l', code (visit_all visit_statement l g) = code g ++ l'.
Proof.
  intros H. revert g. induction H as [|s l Hs _ IH]; intros g; simpl.
  - exists []. by rewrite app_nil_r.
  - destruct (Hs g) as [l1 H1]. destruct (IH (visit_statement s g)) as [l2 H2].
    rewrite H2, H1. eexists. by rewrite <- app_assoc.
Qed.

Lemma emit_code op a1 a2 r g : code (emit op a1 a2 r g) = code g ++ [TAC op a1 a2 r].
Proof. done. Qed.

Lemma visit_statement_extends s g :
  exists l, code (visit_statement s g) = code g ++ l.
Proof.
  revert g. induction s as [target operator value|expression|target
                            |condition body IH|condition tb eb IHt IHe]
    using Statement_induction; intros g.
  - simpl. unfold visit_assignment_statement.
    destruct (visit_expression_extends value g) as [l H].
    destruct (visit_expression value g) as [v g1]. simpl in H.
    repeat case_decide; simpl; rewrite ?H; eexists; by rewrite <- ?app_assoc.
  - simpl. unfold visit_print_statement.
    destruct (visit_expression_extends expression g) as [l H].
    destruct (visit_expression expression g) as [v g1]. simpl in *.
    rewrite H. eexists. by rewrite <- app_assoc.
  - simpl. by eexists.
  - cbn [visit_statement new_label].
    set (g1 := emit "LABEL" _ _ _ _).
    destruct (visit_expression_extends condition g1) as [l1 H1].
    destruct (visit_expression condition g1) as [c g2]. simpl in H1.
    set (g3 := emit "IF_FALSE" _ _ _ _).
    destruct (visit_all_extends body g3 IH) as [l2 H2].
    eexists. rewrite !emit_code, H2. subst g3. rewrite emit_code, H1.
    rewrite <- !app_assoc. reflexivity.
  - destruct eb as [[|s l]|]; cbn [visit_statement new_label];
      set (g0 := mk _ _ _);
      destruct (visit_expression_extends condition g0) as [l1 H1];
      destruct (visit_expression condition g0) as [c g2]; simpl in H1;
      set (g3 := emit "IF_FALSE" _ _ _ _);
      destruct (visit_all_extends tb g3 IHt) as [l2 H2].
    + eexists. rewrite emit_code, H2. subst g3. rewrite emit_code, H1.
      rewrite <- !app_assoc. reflexivity.
    + set (g5 := emit "LABEL" _ _ _ (emit "GOTO" _ _ _ _)).
      destruct (visit_all_extends (s :: l) g5 (IHe _ eq_refl)) as [l3 H3].
      eexists. rewrite emit_code, H3. subst g5. rewrite !emit_code, H2. subst g3.
      rewrite emit_code, H1. rewrite <- !app_assoc. reflexivity.
    + eexists. rewrite emit_code, H2. subst g3. rewrite emit_code, H1.
      rewrite <- !app_assoc. reflexivity.
Qed.

Lemma emitted_spec g g' l : code g' = code g ++ l -> emitted g g' = l.
Proof. unfold emitted. intros ->. by rewrite drop_app_length. Qed.

Lemma str_nat_inj a b : PyStr.str_nat a = PyStr.str_nat b -> a = b.
Proof.
  unfold PyStr.str_nat. intros H.
  apply DecimalNat.Unsigned.to_uint_inj.
  apply (f_equal NilEmpty.uint_of_string) in H.
  rewrite !NilEmpty.usu in H. by simplify_eq.
Qed.

Lemma label_name_inj a b : label_name a = label_name b -> a = b.
Proof. unfold label_name. intros [= H]. by apply str_nat_inj. Qed.

End WhileShape.

(** ** The generator follows the lowering of the specification *)

Section Scheme.
Import IntermediateCodeGenerator.

Lemma visit_expression_scheme e g :
  visit_expression e g
  = (LoweringScheme.operand (temp_counter g) e,
     mk (code g ++ LoweringScheme.expression (temp_counter g) e)
        (temp_counter g + expression_operators e) (label_counter g)).
Proof.
  revert g. induction e as [| | |lhs IHl op rhs IHr|op operand IH]; intros [c t n];
    cbn [visit_expression LoweringScheme.expression expression_operators
         code temp_counter label_counter];
    try (by rewrite app_nil_r, Nat.add_0_r).
  - rewrite IHl, IHr. unfold new_temp, emit. cbn [code temp_counter label_counter fst snd].
    change (LoweringScheme.operand t (BinaryOperation lhs op rhs))
      with (temp_name (t + S (expression_operators lhs + expression_operators rhs))).
    unfold temp_name. rewrite <- !app_assoc.
    by replace (S (t + expression_operators lhs + expression_operators rhs))
      with (t + S (expression_operators lhs + expression_operators rhs)) by lia.
  - rewrite IH. unfold new_temp, emit. cbn [code temp_counter label_counter fst snd].
    change (LoweringScheme.operand t (UnaryOperation op operand))
      with (temp_name (t + S (expression_operators operand))).
    unfold temp_name. rewrite <- !app_assoc.
    by replace (S (t + expression_operators operand))
      with (t + S (expression_operators operand)) by lia.
Qed.

Lemma visit_all_scheme l g :
  Forall (fun s => forall g,
            visit_statement s g
            = mk (code g ++ LoweringScheme.statement (temp_counter g) (label_counter g) s)
                 (temp_counter g + LoweringScheme.temporaries s)
                 (label_counter g + LoweringScheme.labels s)) l ->
  visit_all visit_statement l g
  = mk (code g ++ LoweringScheme.block LoweringScheme.statement
                    (temp_counter g) (label_counter g) l)
       (temp_counter g + sum_list (LoweringScheme.temporaries <$> l))
       (label_counter g + sum_list (LoweringScheme.labels <$> l)).
Proof.
  intros H. revert g. induction H as [|s l Hs _ IH]; intros [c t n]; csimpl.
  - by rewrite app_nil_r, !Nat.add_0_r.
  - rewrite Hs, IH. cbn [code temp_counter label_counter].
    rewrite <- app_assoc. f_equal; lia.
Qed.

Lemma visit_statement_scheme s g :
  visit_statement s g
  = mk (code g ++ LoweringScheme.statement (temp_counter g) (label_counter g) s)
       (temp_counter g + LoweringScheme.temporaries s)
       (label_counter g + LoweringScheme.labels s).
Proof.
  revert g. induction s as [target operator value|expression|target
                            |condition body IH|condition tb eb IHt IHe]
    using Statement_induction; intros [c t n].
  - cbn [visit_statement LoweringScheme.statement LoweringScheme.temporaries
         LoweringScheme.labels]. unfold visit_assignment_statement.
    rewrite visit_expression_scheme. cbn [code temp_counter label_counter].
    unfold new_temp, emit, temp_name.
    destruct (decide (operator = "=")) as [->|H1];
      [|destruct (decide (operator = "+=")) as [->|H2];
        [|destruct (decide (operator = "-=")) as [->|H3]]].
    + change (LoweringScheme.is_compound "=") with false.
      cbn [code temp_counter label_counter]. by rewrite <- app_assoc, !Nat.add_0_r.
    + change (LoweringScheme.is_compound "+=") with true.
      cbn [code temp_counter label_counter fst snd].
      rewrite <- !app_assoc, Nat.add_0_r, Nat.add_1_r, Nat.add_succ_r. done.
    + change (LoweringScheme.is_compound "-=") with true.
      cbn [code temp_counter label_counter fst snd].
      rewrite <- !app_assoc, Nat.add_0_r, Nat.add_1_r, Nat.add_succ_r. done.
    + unfold LoweringScheme.is_compound.
      rewrite !bool_decide_eq_false_2 by done. cbn [orb].
      by rewrite !app_nil_r, !Nat.add_0_r.
  - cbn [visit_statement LoweringScheme.statement LoweringScheme.temporaries
         LoweringScheme.labels]. unfold visit_print_statement.
    rewrite visit_expression_scheme. unfold emit. cbn [code temp_counter label_counter].
    by rewrite <- app_assoc, Nat.add_0_r.
  - cbn. by rewrite !Nat.add_0_r.
  - cbn [visit_statement LoweringScheme.statement LoweringScheme.temporaries
         LoweringScheme.labels].
    unfold new_label at 1 2. cbn [code temp_counter label_counter fst snd].
    unfold emit at 4. cbn [code temp_counter label_counter].
    rewrite visit_expression_scheme. cbn [code temp_counter label_counter].
    unfold emit at 3. cbn [code temp_counter label_counter].
    rewrite (visit_all_scheme body) by done.
    unfold emit. cbn [code temp_counter label_counter]. unfold label_name.
    rewrite <- !app_assoc. cbn [app]. f_equal; lia.
  - cbn [visit_statement LoweringScheme.statement LoweringScheme.temporaries
         LoweringScheme.labels].
    unfold new_label at 1 2. cbn [code temp_counter label_counter fst snd].
    rewrite visit_expression_scheme. cbn [code temp_counter label_counter].
    set (g3 := emit "IF_FALSE" _ _ _ _).
    rewrite (visit_all_scheme tb g3) by done.
    subst g3. unfold emit at 1 2 3. cbn [code temp_counter label_counter].
    unfold label_name.
    destruct eb as [[|s l]|].
    + unfold emit. cbn [code temp_counter label_counter].
      change (sum_list (LoweringScheme.temporaries <$> [])) with 0.
      change (sum_list (LoweringScheme.labels <$> [])) with 0.
      rewrite <- !app_assoc. cbn [app]. f_equal; lia.
    + rewrite (visit_all_scheme (s :: l)) by (by apply IHe).
      unfold emit. cbn [code temp_counter label_counter].
      rewrite <- !app_assoc. cbn [app]. f_equal; lia.
    + unfold emit. cbn [code temp_counter label_counter].
      rewrite <- !app_assoc. cbn [app]. f_equal; lia.
Qed.

End Scheme.

(** The lowering of the specification on [nested_source], a loop with two
    conditionals in it: the second conditional takes the labels [L5] and
    [L6] and uses the first only. *)
Lemma scheme_of_nested_program :
  LoweringScheme.program nested_program
  = [ TAC "LABEL" (Some "L1") None None;
      TAC "<" (Some "x") (Some "3.0") (Some "t1");
      TAC "IF_FALSE" (Some "t1") (Some "L2") None;
      TAC "IF_FALSE" (Some "x") (Some "L3") None;
      TAC "+" (Some "x") (Some "1.0") (Some "t2");
      TAC "ASSIGN" (Some "t2") None (Some "x");
      TAC "GOTO" (Some "L4") None None;
      TAC "LABEL" (Some "L3") None None;
      TAC "ASSIGN" (Some "2.0") None (Some "x");
      TAC "LABEL" (Some "L4") None None;
      TAC "IF_FALSE" (Some "x") (Some "L5") None;
      TAC "LABEL" (Some "L5") None None;
      TAC "GOTO" (Some "L1") None None;
      TAC "LABEL" (Some "L2") None None ].
Proof. vm_compute. reflexivity. Qed.

(** C5: a [while] statement lowers to LABEL(start), the instructions of the
    condition, IF_FALSE(condition operand, end), the instructions of the
    body, GOTO(start), LABEL(end), appended in this order to the code
    generated so far.  The instructions of the condition and of the body
    are those of the lowering of the specification, numbered behind the
    temporaries and labels issued before.  [start] and [end] are the next
    two labels of the counter: they differ from each other and from every
    label issued before. *)
Theorem while_statement_shape
    (condition : Expression) (body : list Statement) (g : IntermediateCodeGenerator.t) :
  let t := IntermediateCodeGenerator.temp_counter g in
  let n := IntermediateCodeGenerator.label_counter g in
  let start_label := label_name (S n) in
  let end_label := label_name (S (S n)) in
  IntermediateCodeGenerator.code
    (IntermediateCodeGenerator.visit_while_statement condition body g)
  = IntermediateCodeGenerator.code g
    ++ [TAC "LABEL" (Some start_label) None None]
    ++ LoweringScheme.expression t condition
    ++ [TAC "IF_FALSE" (Some (LoweringScheme.operand t condition)) (Some end_label) None]
    ++ LoweringScheme.block LoweringScheme.statement
         (t + expression_operators condition) (S (S n)) body
    ++ [TAC "GOTO" (Some start_label) None None;
        TAC "LABEL" (Some end_label) None None]
  /\ (IntermediateCodeGenerator.new_label g).1 = start_label
  /\ (IntermediateCodeGenerator.new_label (IntermediateCodeGenerator.new_label g).2).1
     = end_label
  /\ start_label <> end_label
  /\ (forall k, k <= n -> label_name k <> start_label /\ label_name k <> end_label).
Proof.
  intros t n start_label end_label. split_and!; try done.
  - unfold IntermediateCodeGenerator.visit_while_statement.
    by rewrite visit_statement_scheme.
  - intros H. apply label_name_inj in H. lia.
  - intros k Hk. split; intros H; apply label_name_inj in H; lia.
Qed.

(** An [if] statement lowers to the instructions of the condition,
    IF_FALSE(condition operand, else), the instructions of the first block
    and, with an else block that is not empty, GOTO(end), LABEL(else), the
    instructions of the else block, LABEL(end); without an else block, or
    with an empty one, LABEL(else) alone follows the first block, and the
    label [end] is issued and not used.  The instructions of the condition
    and of the blocks are those of the lowering of the specification;
    [else] and [end] are the next two labels of the counter. *)
Theorem if_statement_shape
    (condition : Expression) (then_body : list Statement)
    (else_body : option (list Statement)) (g : IntermediateCodeGenerator.t) :
  let t := IntermediateCodeGenerator.temp_counter g in
  let n := IntermediateCodeGenerator.label_counter g in
  let else_label := label_name (S n) in
  let end_label := label_name (S (S n)) in
  let t1 := t + expression_operators condition in
  IntermediateCodeGenerator.code
    (IntermediateCodeGenerator.visit_statement
       (IfStatement condition then_body else_body) g)
  = IntermediateCodeGenerator.code g
    ++ LoweringScheme.expression t condition
    ++ [TAC "IF_FALSE" (Some (LoweringScheme.operand t condition)) (Some else_label) None]
    ++ LoweringScheme.block LoweringScheme.statement t1 (S (S n)) then_body
    ++ match else_body with
       | Some ((_ :: _) as l) =>
           [TAC "GOTO" (Some end_label) None None; TAC "LABEL" (Some else_label) None None]
           ++ LoweringScheme.block LoweringScheme.statement
                (t1 + sum_list (LoweringScheme.temporaries <$> then_body))
                (S (S n) + sum_list (LoweringScheme.labels <$> then_body)) l
           ++ [TAC "LABEL" (Some end_label) None None]
       | Some [] | None => [TAC "LABEL" (Some else_label) None None]
       end
  /\ IntermediateCodeGenerator.label_counter
       (IntermediateCodeGenerator.visit_statement
          (IfStatement condition then_body else_body) g)
     = n + 2 + sum_list (LoweringScheme.labels <$> then_body)
       + sum_list (LoweringScheme.labels <$> default [] else_body)
  /\ else_label <> end_label.
Proof.
  intros t n else_label end_label t1. rewrite visit_statement_scheme. split_and!.
  - done.
  - cbn [IntermediateCodeGenerator.label_counter LoweringScheme.labels].
    destruct else_body; simpl; lia.
  - intros H. apply label_name_inj in H. lia.
Qed.

(** [generate] returns the lowering of the specification: the instructions
    of the statements of the program in order, with the temporaries and
    the labels numbered from 1 through the whole program, whatever the
    generator has generated before. *)
Theorem generate_follows_scheme (p : Program) (g : IntermediateCodeGenerator.t) :
  (IntermediateCodeGenerator.generate p g).1 = LoweringScheme.program p.
Proof.
  unfold IntermediateCodeGenerator.generate, IntermediateCodeGenerator.visit_program,
    LoweringScheme.program.
  cbn [fst]. rewrite visit_all_scheme.
  - done.
  - apply Forall_forall. intros s _ g'. apply visit_statement_scheme.
Qed.

(** ** The semantic analyzer *)

Section Semantic.
Import SemanticAnalyzer.

Lemma lookup_define x target st :
  SymbolTable.lookup x (SymbolTable.define target st)
  = bool_decide (target = x) || SymbolTable.lookup x st.
Proof.
  destruct st as [s p]. unfold SymbolTable.define. simpl.
  destruct (decide (target = x)) as [->|Hne].
  - rewrite lookup_insert_eq. rewrite bool_decide_eq_true_2 by eauto.
    by rewrite bool_decide_eq_true_2.
  - rewrite lookup_insert_ne by done. by rewrite (bool_decide_eq_false_2 (target = x)).
Qed.

Lemma define_table target a :
  symbol_table (define target a) = SymbolTable.define target (symbol_table a).
Proof. done. Qed.

Lemma visit_expression_table e a :
  symbol_table (visit_expression e a) = symbol_table a.
Proof.
  revert a. induction e as [| |name|lhs IHl op rhs IHr|op operand IH]; intros a; simpl;
    try done.
  - unfold visit_identifier. by case_match.
  - case_match; simpl; by rewrite IHr, IHl.
Qed.











Lemma visit_expression_defined x e a :
  SymbolTable.lookup x (symbol_table (visit_expression e a))
  = SymbolTable.lookup x (symbol_table a).
Proof. by rewrite visit_expression_table. Qed.

End Semantic.




(** ** The lexer *)

Section LexerFacts.
Import Lexer.

Lemma get_lookup n s : String.get n s = PyStr.chars s !! n.
Proof.
  revert n. induction s as [|c s IH]; intros [|n]; simpl; auto.
Qed.

Lemma length_chars s : String.length s = length (PyStr.chars s).
Proof. induction s as [|c s IH]; simpl; [done|]. by rewrite IH. Qed.

Lemma current_char_lookup lx :
  current_char lx = PyStr.chars (source lx) !! position lx.
Proof. apply get_lookup. Qed.

Lemma current_char_remaining lx c : current_char lx = Some c -> remaining lx <> 0.
Proof.
  rewrite current_char_lookup. intros H%lookup_lt_Some.
  unfold remaining, len. rewrite length_chars. lia.
Qed.

Lemma current_char_None lx :
  current_char lx = None -> len lx <= position lx.
Proof.
  rewrite current_char_lookup. intros H%lookup_ge_None.
  unfold len. by rewrite length_chars.
Qed.

Lemma advance_source lx : source (advance lx) = source lx.
Proof. unfold advance. by repeat case_match. Qed.

Lemma advance_position lx : position (advance lx) = S (position lx).
Proof. unfold advance. by repeat case_match. Qed.

Lemma advance_tokens lx : tokens (advance lx) = tokens lx.
Proof. unfold advance. by repeat case_match. Qed.

Lemma newlines_before_S p s c :
  PyStr.chars s !! p = Some c ->
  newlines_before (S p) s
  = newlines_before p s + (if Ascii.eqb PyStr.newline c then 1 else 0).
Proof.
  intros H. unfold newlines_before. rewrite (take_S_r _ _ _ H).
  rewrite List.filter_app, length_app. simpl. by case_match.
Qed.

Lemma newlines_before_ge p q s :
  String.length s <= p -> String.length s <= q ->
  newlines_before p s = newlines_before q s.
Proof.
  rewrite length_chars. intros Hp Hq. unfold newlines_before.
  by rewrite !take_ge.
Qed.

Lemma advance_line_counted lx : line_counted lx -> line_counted (advance lx).
Proof.
  unfold line_counted. intros H.
  rewrite advance_source, advance_position.
  unfold advance. destruct (current_char lx) as [c|] eqn:E.
  - rewrite current_char_lookup in E. rewrite (newlines_before_S _ _ _ E).
    rewrite (Ascii.eqb_sym PyStr.newline c).
    destruct (Ascii.eqb c PyStr.newline); simpl; lia.
  - apply current_char_None in E. simpl.
    rewrite (newlines_before_ge (S (position lx)) (position lx)); [done| |done].
    unfold len in E. lia.
Qed.

Lemma append_line_counted tok lx : line_counted lx -> line_counted (append tok lx).
Proof. done. Qed.

Lemma follows_refl lx : follows lx lx.
Proof. by split_and!. Qed.

Lemma follows_trans lx1 lx2 lx3 : follows lx1 lx2 -> follows lx2 lx3 -> follows lx1 lx3.
Proof.
  intros (S1 & P1 & L1) (S2 & P2 & L2). split_and!; [congruence|lia|auto].
Qed.

Lemma follows_advance lx : follows lx (advance lx).
Proof.
  split_and!; [apply advance_source|rewrite advance_position; lia
              |apply advance_line_counted].
Qed.

Lemma follows_append tok lx : follows lx (append tok lx).
Proof. by split_and!. Qed.

Lemma advance_while_follows fuel p lx : follows lx (advance_while fuel p lx).
Proof.
  revert lx. induction fuel as [|fuel IH]; intros lx; simpl; [apply follows_refl|].
  destruct (current_char lx) as [c|]; [|apply follows_refl].
  destruct (p c); [|apply follows_refl].
  eapply follows_trans; [apply follows_advance|apply IH].
Qed.

Lemma advance_while_progress fuel p lx c :
  current_char lx = Some c -> p c = true -> fuel <> 0 ->
  position lx < position (advance_while fuel p lx).
Proof.
  intros Hc Hp Hf. destruct fuel as [|fuel]; [done|]. simpl. rewrite Hc, Hp.
  destruct (advance_while_follows fuel p (advance lx)) as (_ & H & _).
  rewrite advance_position in H. lia.
Qed.

(** The fuel [remaining lx] is enough: where the loop stops, its guard is
    false. *)
Lemma advance_while_stops fuel p lx c :
  remaining lx <= fuel ->
  current_char (advance_while fuel p lx) = Some c -> p c = false.
Proof.
  revert lx. induction fuel as [|fuel IH]; intros lx Hf; simpl.
  - intros H%current_char_remaining. lia.
  - destruct (current_char lx) as [d|] eqn:E; [|by rewrite E].
    destruct (p d) eqn:Hp; [|intros; by simplify_eq].
    apply IH. unfold remaining, len in *. rewrite advance_source, advance_position. lia.
Qed.

Lemma string_body_follows fuel lx : follows lx (string_body fuel lx).
Proof.
  revert lx. induction fuel as [|fuel IH]; intros lx; simpl; [apply follows_refl|].
  destruct (current_char lx) as [c|]; [|apply follows_refl].
  destruct (Ascii.eqb c PyStr.dquote); [apply follows_refl|].
  destruct (Ascii.eqb c PyStr.backslash).
  - eapply follows_trans; [apply follows_advance|].
    eapply follows_trans; [apply follows_advance|apply IH].
  - eapply follows_trans; [apply follows_advance|apply IH].
Qed.


Lemma unpaired_operator c :
  is_operator_start c = true -> operators (str1 c) = None -> always_tokenized c = false.
Proof.
  destruct c as [[] [] [] [] [] [] [] []]; vm_compute; congruence.
Qed.

Lemma newlines_at_end lx :
  line_counted lx -> current_char lx = None ->
  line lx = S (newlines_before (String.length (source lx)) (source lx)).
Proof.
  intros H E%current_char_None. rewrite H. f_equal.
  apply newlines_before_ge; [done|lia].
Qed.

(** One round of the loop of [tokenize]. *)
Lemma tokenize_body_spec lx :
  line_counted lx ->
  match tokenize_body lx with
  | Ok (continue, lx') =>
      follows lx lx' /\ line_counted lx'
      /\ (continue = true -> position lx < position lx')
  | Raise (UnterminatedString l) =>
      PyStr.dquote ∈ PyStr.chars (source lx)
      /\ l = S (newlines_before (String.length (source lx)) (source lx))
  | Raise (UnknownCharacter c l _) =>
      exists p, String.get p (source lx) = Some c
                /\ always_tokenized c = false
                /\ l = S (newlines_before p (source lx))
  | OutOfFuel => False
  end.
Proof.
  intros Hl. unfold tokenize_body.
  pose proof (advance_while_follows (remaining lx) is_blank lx) as Hw.
  pose proof (advance_while_stops (remaining lx) is_blank lx) as Hstop.
  fold (skip_whitespace lx) in Hw, Hstop. set (lx0 := skip_whitespace lx) in *.
  assert (Hl0 : line_counted lx0) by (by apply Hw).
  destruct Hw as (Hs0 & Hp0 & _).
  destruct (current_char lx0) as [char|] eqn:Hc; [|by split_and!; [split_and!|..]].
  specialize (Hstop char (Nat.le_refl _) eq_refl).
  pose proof (current_char_remaining _ _ Hc) as Hrem.
  (* a scan that starts on [char] and takes it *)
  assert (Hscan : forall p, p char = true ->
            let lx' := advance_while (remaining lx0) p lx0 in
            follows lx lx' /\ line_counted lx' /\ position lx < position lx').
  { intros p Hp lx'.
    destruct (advance_while_follows (remaining lx0) p lx0) as (S1 & P1 & L1).
    pose proof (advance_while_progress _ p lx0 char Hc Hp Hrem).
    subst lx'. split_and!; [split_and!; [congruence|lia|auto]|auto|lia]. }
  (* one or two [advance]s after an [append] *)
  assert (Hadv : forall lx1, follows lx0 lx1 -> line_counted lx1 ->
            position lx0 < position lx1 ->
            follows lx lx1 /\ line_counted lx1 /\ (true = true -> position lx < position lx1)).
  { intros lx1 (S1 & P1 & L1) Hl1 Hlt. split_and!; [split_and!; [congruence|lia|auto]|auto|lia]. }
  destruct (Ascii.eqb char "/" && _) eqn:Hcomment.
  { apply andb_prop in Hcomment as [Hslash%Ascii.eqb_eq _]. subst char.
    destruct (Hscan not_newline eq_refl) as (? & ? & ?). by split_and!. }
  destruct (Ascii.eqb char PyStr.newline) eqn:Hnl.
  { apply Hadv.
    - eapply follows_trans; [apply follows_append|apply follows_advance].
    - by apply advance_line_counted, append_line_counted.
    - rewrite advance_position. simpl. lia. }
  destruct (PyStr.isdigit char) eqn:Hdigit.
  { unfold read_number.
    destruct (Hscan is_number_char) as (? & ? & ?);
      [by unfold is_number_char; rewrite Hdigit|].
    split_and!; [eapply follows_trans; [eassumption|apply follows_append]|done|done]. }
  destruct (Ascii.eqb char PyStr.dquote) eqn:Hquote.
  { apply Ascii.eqb_eq in Hquote. subst char. unfold read_string.
    pose proof (string_body_follows (remaining (advance lx0)) (advance lx0)) as Hb.
    set (lx2 := string_body _ _) in *.
    assert (Hf2 : follows lx0 lx2)
      by (eapply follows_trans; [apply follows_advance|apply Hb]).
    destruct Hf2 as (S2 & P2 & L2).
    assert (position lx0 < position lx2).
    { destruct Hb as (_ & Hb & _). rewrite advance_position in Hb. lia. }
    destruct (current_char lx2) as [c2|] eqn:Hc2.
    - apply Hadv.
      + apply (follows_trans _ lx2); [by split_and!|].
        apply (follows_trans _ (advance lx2)); [apply follows_advance|apply follows_append].
      + apply append_line_counted, advance_line_counted. auto.
      + simpl. rewrite advance_position. lia.
    - split.
      + rewrite <- Hs0. rewrite current_char_lookup in Hc.
        by eapply list_elem_of_lookup_2.
      + rewrite (newlines_at_end lx2) by auto. by rewrite S2, Hs0. }
  destruct (PyStr.isalpha char || Ascii.eqb char "_") eqn:Halpha.
  { unfold read_identifier.
    destruct (Hscan is_identifier_char) as (? & ? & ?).
    { unfold is_identifier_char, PyStr.isalnum.
      apply orb_prop in Halpha as [->| ->]; [done|]. by rewrite orb_true_r. }
    split_and!; [eapply follows_trans; [eassumption|apply follows_append]|done|done]. }
  destruct (is_operator_start char) eqn:Hop.
  { destruct (operators _) as [ty|] eqn:Htwo.
    - apply Hadv.
      + eapply follows_trans; [apply follows_append|].
        eapply follows_trans; apply follows_advance.
      + by apply advance_line_counted, advance_line_counted, append_line_counted.
      + rewrite !advance_position. simpl. lia.
    - destruct (operators (str1 char)) as [ty|] eqn:Hone.
      + apply Hadv.
        * eapply follows_trans; [apply follows_append|apply follows_advance].
        * by apply advance_line_counted, append_line_counted.
        * rewrite advance_position. simpl. lia.
      + exists (position lx0). split_and!.
        * by rewrite <- Hs0.
        * by apply unpaired_operator.
        * rewrite <- Hs0. apply Hl0. }
  destruct (is_delimiter char) eqn:Hdelim.
  { destruct (if Ascii.eqb char "(" then _ else _) as [ty|].
    - apply Hadv.
      + eapply follows_trans; [apply follows_append|apply follows_advance].
      + by apply advance_line_counted, append_line_counted.
      + rewrite advance_position. simpl. lia.
    - apply Hadv; [apply follows_advance|by apply advance_line_counted|].
      rewrite advance_position. lia. }
  exists (position lx0). split_and!.
  - by rewrite <- Hs0.
  - unfold always_tokenized. rewrite Hstop, Hnl, Hdigit, Hquote, Hop, Hdelim.
    apply orb_false_elim in Halpha as [-> ->]. done.
  - rewrite <- Hs0. apply Hl0.
Qed.

(** The loop of [tokenize]: [len - position] rounds of fuel are enough. *)
Lemma tokenize_loop_spec fuel lx :
  line_counted lx -> len lx - position lx <= fuel ->
  match tokenize_loop fuel lx with
  | Ok lx' => source lx' = source lx
  | Raise (UnterminatedString l) =>
      PyStr.dquote ∈ PyStr.chars (source lx)
      /\ l = S (newlines_before (String.length (source lx)) (source lx))
  | Raise (UnknownCharacter c l _) =>
      exists p, String.get p (source lx) = Some c
                /\ always_tokenized c = false
                /\ l = S (newlines_before p (source lx))
  | OutOfFuel => False
  end.
Proof.
  revert lx. induction fuel as [|fuel IH]; intros lx Hl Hf; simpl.
  - destruct (position lx <? len lx) eqn:E; [|done].
    apply Nat.ltb_lt in E. lia.
  - destruct (position lx <? len lx) eqn:E; [|done].
    apply Nat.ltb_lt in E.
    pose proof (tokenize_body_spec lx Hl) as Hb.
    destruct (tokenize_body lx) as [[continue lx']|e|]; simpl; [|done..].
    destruct Hb as ((Hs & Hp & _) & Hl' & Hprog).
    destruct continue; [|done].
    specialize (IH lx' Hl'). unfold len in *. rewrite Hs in IH.
    specialize (Hprog eq_refl).
    assert (Hfuel : String.length (source lx) - position lx' <= fuel) by lia.
    specialize (IH Hfuel).
    by destruct (tokenize_loop fuel lx') as [lx''|[l|c l col]|].
Qed.

End LexerFacts.

(** ** The lexer and the lexical structure *)

Section LexerFaults.
Import Lexer LexicalStructure.



Lemma append_column_counted tok lx : column_counted lx -> column_counted (append tok lx).
Proof. done. Qed.



(** *** One character of the automaton, one [advance] of the lexer *)










(** *** The characters *)






End LexerFaults.

Section LexerFaultsLoop.
Import Lexer LexicalStructure.






End LexerFaultsLoop.

(** The first fault of some texts: paired and unpaired operators, a point
    that no digit precedes, a string that is not closed, a string whose
    closing quote a backslash takes, and a quote in a comment. *)
Lemma first_fault_examples :
  LexicalStructure.first_fault "a && b || !c" = None
  /\ LexicalStructure.first_fault "a & b" = Some (LexicalStructure.Stray 2)
  /\ LexicalStructure.first_fault "x = 1.5; y = .5;" = Some (LexicalStructure.Stray 13)
  /\ LexicalStructure.first_fault (Lexer.str1 PyStr.dquote +:+ "abc")
     = Some LexicalStructure.UnterminatedText
  /\ LexicalStructure.first_fault
       ("print(" +:+ Lexer.str1 PyStr.dquote +:+ "a" +:+ Lexer.str1 PyStr.backslash
        +:+ Lexer.str1 PyStr.dquote +:+ ");")
     = Some LexicalStructure.UnterminatedText
  /\ LexicalStructure.first_fault ("x = 1; // " +:+ Lexer.str1 PyStr.dquote +:+ " & @")
     = None
  /\ LexicalStructure.column_of 13 "x = 1.5; y = .5;" = 14.
Proof. repeat split; vm_compute; reflexivity. Qed.



(** ** Dead-code elimination *)

Section DeadCode.
Import RLOptimizer.

Lemma site_of_add_site key i usage v j :
  site_of (add_site key i usage) v j <-> site_of usage v j \/ (v = key /\ j = i).
Proof.
  unfold site_of, add_site. destruct (decide (v = key)) as [->|Hne].
  - rewrite lookup_insert_eq. split.
    + intros (sites & Hs & Hj). simplify_eq.
      apply elem_of_union in Hj as [Hj|Hj].
      * left. destruct (usage !! key) as [s|]; [by exists s|set_solver].
      * right. set_solver.
    + intros [(sites & Hs & Hj)|[_ Hj]]; eexists; (split; [done|]).
      * rewrite Hs. set_solver.
      * set_solver.
  - rewrite lookup_insert_ne by done. naive_solver.
Qed.

Lemma site_of_ensure_key key usage v j :
  site_of (ensure_key key usage) v j <-> site_of usage v j.
Proof.
  unfold site_of, ensure_key. destruct (usage !! key) as [s|] eqn:E; [done|].
  destruct (decide (v = key)) as [->|Hne].
  - rewrite lookup_insert_eq, E. split; [|naive_solver].
    intros (sites & Hs & Hj). simplify_eq. set_solver.
  - by rewrite lookup_insert_ne.
Qed.

Lemma site_of_record_use i arg usage v j :
  site_of (record_use i arg usage) v j
  <-> site_of usage v j
      \/ (j = i /\ arg = Some v /\ PyStr.truthy (Some v) = true
          /\ is_constant (Some v) = false).
Proof.
  unfold record_use. destruct arg as [a|].
  2: { split; [by left|]. by intros [H|(_ & Heq & _)]. }
  destruct (PyStr.truthy (Some a)) eqn:Ht; destruct (is_constant (Some a)) eqn:Hc;
    cbn [andb negb]; rewrite ?site_of_add_site.
  - split; [by left|]. intros [H|(_ & Heq & _ & Hc')]; [done|].
    exfalso. simplify_eq; congruence.
  - split.
    + intros [H|[Hv Hj]]; [by left|]. subst. by right.
    + intros [H|(Hj & Heq & _)]; [by left|]. simplify_eq. by right.
  - split; [by left|]. intros [H|(_ & Heq & Ht' & _)]; [done|].
    exfalso. simplify_eq; congruence.
  - split; [by left|]. intros [H|(_ & Heq & Ht' & _)]; [done|].
    exfalso. simplify_eq; congruence.
Qed.

Lemma recorded_use_spec v instr :
  recorded_use v instr = true
  <-> (arg1 instr = Some v \/ arg2 instr = Some v)
      /\ PyStr.truthy (Some v) = true /\ is_constant (Some v) = false.
Proof.
  unfold recorded_use, reads.
  rewrite !andb_true_iff, orb_true_iff, !bool_decide_eq_true, negb_true_iff. tauto.
Qed.

Lemma site_of_analyze_instruction i instr usage defs v j :
  site_of (analyze_instruction i instr (usage, defs)).1 v j
  <-> site_of usage v j \/ (j = i /\ recorded_use v instr = true).
Proof.
  unfold analyze_instruction.
  assert (H : exists usage' defs',
             (match result instr with
              | Some r =>
                  if PyStr.truthy (result instr)
                     && negb (op_in (operation instr) ["LABEL"; "GOTO"; "IF_FALSE"; "PRINT"])
                  then (ensure_key r usage, add_site r i defs)
                  else (usage, defs)
              | None => (usage, defs)
              end) = (usage', defs')
             /\ (site_of usage' v j <-> site_of usage v j)).
  { destruct (result instr) as [r|]; [|by eexists _, _].
    case_match; [|by eexists _, _].
    eexists _, _. split; [done|]. apply site_of_ensure_key. }
  destruct H as (usage' & defs' & -> & Hu). simpl.
  rewrite !site_of_record_use, Hu, recorded_use_spec. naive_solver.
Qed.

Lemma site_of_analyze_from i code usage defs v j :
  site_of (analyze_from i code (usage, defs)).1 v j
  <-> site_of usage v j
      \/ exists k instr, code !! k = Some instr /\ j = i + k /\ recorded_use v instr = true.
Proof.
  revert i usage defs. induction code as [|instr code IH]; intros i usage defs;
    cbn [analyze_from].
  - split; [by left|]. intros [H|(k & l & Hk & _)]; [done|]. by rewrite lookup_nil in Hk.
  - destruct (analyze_instruction i instr (usage, defs)) as [usage' defs'] eqn:E.
    rewrite IH.
    pose proof (site_of_analyze_instruction i instr usage defs v j) as H.
    rewrite E in H. simpl in H. rewrite H. split.
    + intros [[Hs|[-> Hr]]|(k & l & Hk & -> & Hr)].
      * by left.
      * right. exists 0, instr. split_and!; [done|lia|done].
      * right. exists (S k), l. split_and!; [done|lia|done].
    + intros [Hs|(k & l & Hk & -> & Hr)]; [by left; left|].
      destruct k as [|k]; simpl in Hk.
      * simplify_eq. left. right. split; [lia|done].
      * right. exists k, l. split_and!; [done|lia|done].
Qed.

Lemma site_of_empty v j : ~ site_of ∅ v j.
Proof. intros (sites & H & _). by rewrite lookup_empty in H. Qed.

(** The usage table of [analyze_code]: the recorded uses, by position. *)
Lemma site_of_analyze_code code o v j :
  site_of (variable_usage (analyze_code code o)) v j
  <-> exists instr, code !! j = Some instr /\ recorded_use v instr = true.
Proof.
  unfold analyze_code.
  pose proof (site_of_analyze_from 0 code ∅ ∅ v j) as H.
  destruct (analyze_from 0 code (∅, ∅)) as [usage defs]. simpl in *.
  rewrite H. split.
  - intros [Hs|(k & l & Hk & -> & Hr)]; [by apply site_of_empty in Hs|]. eauto.
  - intros (l & Hj & Hr). right. exists j, l. done.
Qed.

Lemma is_variable_used_later_spec o code position v :
  is_variable_used_later o code position v = true
  <-> exists j, position < j /\ site_of (variable_usage o) v j.
Proof.
  unfold is_variable_used_later, site_of.
  destruct (variable_usage o !! v) as [sites|]; [|naive_solver].
  rewrite existsb_exists. split.
  - intros (j & Hj%list_elem_of_In%elem_of_elements & Hlt%Nat.ltb_lt). eauto.
  - intros (j & Hlt & s & Hs & Hj). simplify_eq. exists j.
    split; [by apply list_elem_of_In, elem_of_elements|by apply Nat.ltb_lt].
Qed.

(** With a current analysis [is_variable_used_later] is false only when no
    later instruction has a recorded use of the variable. *)
Lemma not_used_later o code position r :
  analysis_current o code ->
  is_variable_used_later o code position r = false ->
  PyStr.truthy (Some r) = true -> is_constant (Some r) = false ->
  Forall (fun l => reads r l = false) (drop (S position) code).
Proof.
  intros Hcur Hu Ht Hc. apply Forall_forall. intros l Hl.
  apply list_elem_of_lookup in Hl as [k Hk]. rewrite lookup_drop in Hk.
  destruct (reads r l) eqn:Hr; [|done].
  assert (is_variable_used_later o code position r = true); [|congruence].
  apply is_variable_used_later_spec. exists (S position + k). split; [lia|].
  rewrite Hcur. apply site_of_analyze_code. exists l. split; [done|].
  unfold recorded_use. by rewrite Hr, Ht, Hc.
Qed.

Lemma analyze_code_current code o : analysis_current (analyze_code code o) code.
Proof. unfold analysis_current, analyze_code. by destruct (analyze_from 0 code (∅, ∅)). Qed.

(** The primitive. *)
Lemma apply_dead_code_elimination_spec o code position :
  apply_dead_code_elimination o code position = code
  \/ exists instr,
       code !! position = Some instr
       /\ apply_dead_code_elimination o code position = delete position code
       /\ unprotected instr
       /\ (analysis_current o code -> unread instr (drop (S position) code)).
Proof.
  unfold apply_dead_code_elimination.
  destruct (code !! position) as [instr|] eqn:E; [|by left].
  destruct (op_in (operation instr) side_effects) eqn:Hop; [by left|].
  destruct (PyStr.truthy (result instr) && _) eqn:Hu; [by left|].
  right. exists instr. split_and!; try done.
  intros Hcur r Hr Ht Hc.
  rewrite Hr, Ht in Hu. cbn [andb default] in Hu.
  by eapply not_used_later.
Qed.

Lemma dead_code_loop_done fuel position code log o :
  code !! position = None ->
  dead_code_loop fuel position code log o = (o, Ok (code, log)).
Proof. intros H. destruct fuel; simpl; by rewrite H. Qed.

(** The third pass from position [length pre] on: with fuel for what is
    left the loop returns; it keeps [pre] and a selection of [rest]. *)
Lemma dead_code_loop_spec rest :
  forall fuel pre log o,
    length rest <= fuel ->
    exists keep log' o',
      dead_code_loop fuel (length pre) (pre ++ rest) log o
      = (o', Ok (pre ++ select keep rest, log'))
      /\ length keep = length rest
      /\ forall i instr,
           rest !! i = Some instr -> keep !! i = Some false ->
           unprotected instr
           /\ (analysis_current o (pre ++ rest) -> unread instr (drop (S i) rest)).
Proof.
  induction rest as [|instr rest IH]; intros fuel pre log o Hf.
  - exists [], log, o. split_and!; [|done|done].
    apply dead_code_loop_done. rewrite app_nil_r. by apply lookup_ge_None.
  - destruct fuel as [|fuel]; [simpl in Hf; lia|].
    assert (Hl : (pre ++ instr :: rest) !! length pre = Some instr)
      by apply list_lookup_middle, eq_refl.
    cbn [dead_code_loop]. rewrite Hl.
    destruct (PyStr.truthy (result instr)) eqn:Ht;
      [destruct (is_variable_used_later o (pre ++ instr :: rest) (length pre)
                   (default EmptyString (result instr))) eqn:Hu;
       [|destruct (op_in (operation instr) side_effects) eqn:Hop]|].
    3: { (* removed *)
      assert (Hd : apply_dead_code_elimination o (pre ++ instr :: rest) (length pre)
                   = pre ++ rest).
      { unfold apply_dead_code_elimination. rewrite Hl, Hop, Ht, Hu. simpl.
        apply delete_middle. }
      rewrite Hd. cbn [andb negb].
      assert (Hlen : (length (pre ++ rest) =? length (pre ++ instr :: rest)) = false)
        by (apply Nat.eqb_neq; rewrite !length_app; simpl; lia).
      rewrite Hlen. cbn [negb].
      destruct (IH fuel pre
                  (log ++ [log_entry "dead_code_elimination" (length pre) "25.00"])
                  (analyze_code (pre ++ rest) o)) as (keep & log' & o' & Hrun & Hk & Hrem);
        [simpl in Hf; lia|].
      exists (false :: keep), log', o'. split_and!; [done|simpl; lia|].
      intros [|i] instr' Hi Hki; simpl in Hi, Hki.
      - simplify_eq. split; [done|]. intros Hcur r Hr _ Hc.
        rewrite Hr in Ht, Hu. cbn [default] in Hu.
        pose proof (not_used_later _ _ _ _ Hcur Hu Ht Hc) as Hn.
        rewrite (cons_middle instr' pre rest), app_assoc in Hn.
        rewrite drop_app_length' in Hn by (rewrite length_app; simpl; lia).
        exact Hn.
      - destruct (Hrem i instr' Hi Hki) as [Hp Hn]. split; [done|].
        intros _. apply Hn, analyze_code_current. }
    all: cbn [andb negb];
      destruct (IH fuel (pre ++ [instr]) log o) as (keep & log' & o' & Hrun & Hk & Hrem);
        [simpl in Hf; lia|];
      rewrite length_app in Hrun; simpl in Hrun; rewrite Nat.add_1_r in Hrun;
      rewrite <- app_assoc in Hrun; simpl in Hrun;
      exists (true :: keep), log', o'; (split_and!; [|simpl; lia|]);
      [cbn [select]; rewrite (cons_middle instr pre (select keep rest)), app_assoc; exact Hrun|];
      intros [|i] instr' Hi Hki; simpl in Hi, Hki; [done|];
      destruct (Hrem i instr' Hi Hki) as [Hp Hn]; (split; [done|]);
      intros Hcur; apply Hn; by rewrite <- app_assoc.
Qed.

End DeadCode.

Section DeadCodeDriver.
Import RLOptimizer.

Lemma constant_folding_step_current st position :
  analysis_current st.2 st.1.1 ->
  analysis_current (constant_folding_step st position).2
                   (constant_folding_step st position).1.1.
Proof.
  destruct st as [[c l] o]. unfold constant_folding_step. simpl.
  repeat case_match; simpl; auto using analyze_code_current.
Qed.

Lemma constant_folding_pass_current code log o :
  analysis_current o code ->
  analysis_current (constant_folding_pass code log o).2
                   (constant_folding_pass code log o).1.1.
Proof.
  unfold constant_folding_pass.
  change (analysis_current o code)
    with (analysis_current ((code, log), o).2 ((code, log), o).1.1).
  generalize (seq 0 (length code)), ((code, log), o).
  intros ps. induction ps as [|p ps IH]; intros st Hst; [done|].
  change (foldl constant_folding_step st (p :: ps))
    with (foldl constant_folding_step (constant_folding_step st p) ps).
  apply IH. by apply constant_folding_step_current.
Qed.

Lemma loop_invariant_pass_current cas loops code log o o' code' log' :
  analysis_current o code ->
  loop_invariant_pass cas loops code log o = (o', Ok (code', log')) ->
  analysis_current o' code'.
Proof.
  revert loops code log o. induction cas as [|ca cas IH]; intros loops code log o Hcur;
    cbn [loop_invariant_pass].
  - intros. by simplify_eq.
  - destruct (apply_loop_invariant_motion _ _ _ _) as [new_code| |]; [|done..].
    case_decide.
    + by apply IH.
    + destruct (find_constant_assignments _ _); [|done..].
      apply IH. apply analyze_code_current.
Qed.

(** The third pass is entered with the analysis of the code it works on. *)
Lemma early_passes_current code o o' code' log' :
  early_passes code o = (o', Ok (code', log')) -> analysis_current o' code'.
Proof.
  unfold early_passes.
  pose proof (constant_folding_pass_current code [] (analyze_code code o)
                (analyze_code_current code o)) as H1.
  destruct (constant_folding_pass code [] (analyze_code code o)) as [[c l] o1].
  simpl in H1.
  destruct (find_constant_assignments c (find_loops c)) as [cas| |]; simpl; [|done..].
  by apply loop_invariant_pass_current.
Qed.

End DeadCodeDriver.

(** The primitive answers from the usage table of the last
    [analyze_code], not from the sequence it is given: on a new optimizer
    (no analysis yet) it removes [a = 1.0] although the PRINT behind it,
    which stays, reads [a].  The driver analyzes before it calls the
    primitive. *)
Lemma stale_analysis_removes_live_code :
  RLOptimizer.apply_dead_code_elimination RLOptimizer.init live_code 0
  = [TAC "PRINT" (Some "a") None None]
  /\ live_code !! 0 = Some (TAC "ASSIGN" (Some "1.0") None (Some "a"))
  /\ reads "a" (TAC "PRINT" (Some "a") None None) = true.
Proof. repeat split; vm_compute; reflexivity. Qed.

(** C3 fails on the code.  [inf = 1; print(inf);] passes the semantic
    analysis and lowers to an ASSIGN into [inf] and a PRINT of [inf].
    [analyze_code] takes the operand [inf] of the PRINT for a literal,
    since [float] accepts the text, and records no use of it; the third
    pass of [optimize] finds the result of the ASSIGN unused and removes
    the instruction, whatever the fuel of the fourth pass.  The PRINT that
    reads [inf] survives. *)
Theorem dead_code_pass_removes_read_assignment :
  parse_source "inf = 1; print(inf);" = Ok literal_named_program
  /\ (SemanticAnalyzer.analyze literal_named_program SemanticAnalyzer.init).1 = []
  /\ intermediate_code "inf = 1; print(inf);"
     = Ok [TAC "ASSIGN" (Some "1.0") None (Some "inf"); TAC "PRINT" (Some "inf") None None]
  /\ (forall fuel,
        optimized_code (S fuel) "inf = 1; print(inf);"
        = Ok ([TAC "PRINT" (Some "inf") None None],
              ["Applied dead_code_elimination at position 0 (reward: 25.00)"]))
  /\ reads "inf" (TAC "PRINT" (Some "inf") None None) = true
  /\ RLOptimizer.is_constant (Some "inf") = true.
Proof. repeat split; vm_compute; reflexivity. Qed.

(** What the dead-code elimination does keep.  The primitive returns the
    sequence as it is or without the instruction at [position]; the third
    pass of the driver returns, and returns a selection of its input.
    Neither removes a PRINT, SCAN, LABEL, GOTO or IF_FALSE.  When the
    analysis of the optimizer is the one of the sequence, as it is where
    [optimize] enters its third pass, an instruction is removed only if no
    later instruction of the sequence has its result as an operand, for a
    result that is a name and that [is_constant] does not take for a
    literal. *)
Theorem dead_code_elimination_safe
    (o : RLOptimizer.t) (code : list ThreeAddressCode) (log : list string)
    (position : nat) :
  (RLOptimizer.apply_dead_code_elimination o code position = code
   \/ exists instr,
        code !! position = Some instr
        /\ RLOptimizer.apply_dead_code_elimination o code position = delete position code
        /\ unprotected instr
        /\ (analysis_current o code -> unread instr (drop (S position) code)))
  /\ (exists keep log' o',
        RLOptimizer.dead_code_pass code log o = (o', Ok (select keep code, log'))
        /\ length keep = length code
        /\ forall i instr,
             code !! i = Some instr -> keep !! i = Some false ->
             unprotected instr
             /\ (analysis_current o code -> unread instr (drop (S i) code)))
  /\ (forall code0 o0,
        RLOptimizer.early_passes code0 o0 = (o, Ok (code, log)) ->
        analysis_current o code).
Proof.
  split_and!.
  - apply apply_dead_code_elimination_spec.
  - apply (dead_code_loop_spec code (length code) [] log o). lia.
  - intros code0 o0. apply early_passes_current.
Qed.

(** [a = 1; print(2);]: with the analysis of this code the third pass
    removes the assignment and leaves the PRINT. *)
Lemma dead_code_elimination_witness :
  analysis_current (RLOptimizer.analyze_code dead_code RLOptimizer.init) dead_code
  /\ (RLOptimizer.dead_code_pass dead_code []
        (RLOptimizer.analyze_code dead_code RLOptimizer.init)).2
     = Ok ([TAC "PRINT" (Some "2.0") None None],
           ["Applied dead_code_elimination at position 0 (reward: 25.00)"])
  /\ exists keep log' o',
       RLOptimizer.dead_code_pass dead_code []
         (RLOptimizer.analyze_code dead_code RLOptimizer.init)
       = (o', Ok (select keep dead_code, log'))
       /\ length keep = length dead_code
       /\ forall i instr,
            dead_code !! i = Some instr -> keep !! i = Some false ->
            unprotected instr
            /\ (analysis_current (RLOptimizer.analyze_code dead_code RLOptimizer.init)
                  dead_code -> unread instr (drop (S i) dead_code)).
Proof.
  split_and!.
  - apply analyze_code_current.
  - vm_compute. reflexivity.
  - exact (proj1 (proj2 (dead_code_elimination_safe
                           (RLOptimizer.analyze_code dead_code RLOptimizer.init)
                           dead_code [] 0))).
Defined.

(** ** The tokens of the lexer *)

Section LexerTokens.
Import Lexer.

Lemma substring_chars n m s :
  PyStr.chars (String.substring n m s) = take m (drop n (PyStr.chars s)).
Proof.
  revert n m. induction s as [|c s IH]; intros [|n] [|m]; simpl; try done.
  f_equal. apply (IH 0 m).
Qed.

Lemma of_chars_chars s : PyStr.of_chars (PyStr.chars s) = s.
Proof. apply String.string_of_list_ascii_of_string. Qed.

(** What [advance_while] passes satisfies the guard. *)
Lemma advance_while_scanned fuel p lx :
  forallb p (take (position (advance_while fuel p lx) - position lx)
               (drop (position lx) (PyStr.chars (source lx)))) = true.
Proof.
  revert lx. induction fuel as [|fuel IH]; intros lx; simpl.
  - by rewrite Nat.sub_diag.
  - destruct (current_char lx) as [c|] eqn:E; [|by rewrite Nat.sub_diag].
    destruct (p c) eqn:Hp; [|by rewrite Nat.sub_diag].
    specialize (IH (advance lx)). rewrite advance_source, advance_position in IH.
    destruct (advance_while_follows fuel p (advance lx)) as (_ & Hpos & _).
    rewrite advance_position in Hpos.
    rewrite current_char_lookup in E.
    rewrite (drop_S _ _ _ E).
    replace (position (advance_while fuel p (advance lx)) - position lx)
      with (S (position (advance_while fuel p (advance lx)) - S (position lx))) by lia.
    simpl. by rewrite Hp, IH.
Qed.

(** The text a scan returns, when it starts on a character it takes. *)
Lemma advance_while_slice p lx c :
  current_char lx = Some c -> p c = true ->
  exists v,
    PyStr.slice (position lx) (position (advance_while (remaining lx) p lx)) (source lx)
    = String c v
    /\ forallb p (PyStr.chars (String c v)) = true.
Proof.
  intros Hc Hp.
  pose proof (advance_while_progress _ p lx c Hc Hp (current_char_remaining _ _ Hc)) as Hlt.
  pose proof (advance_while_scanned (remaining lx) p lx) as Hs.
  set (lx' := advance_while _ _ _) in *.
  unfold PyStr.slice.
  rewrite <- (of_chars_chars (String.substring _ _ _)), substring_chars.
  rewrite current_char_lookup in Hc.
  rewrite (drop_S _ _ _ Hc) in Hs |- *.
  destruct (position lx' - position lx) as [|k] eqn:Ek; [lia|].
  simpl in Hs |- *. eexists. split; [done|].
  simpl. by rewrite String.list_ascii_of_string_of_list_ascii.
Qed.

Lemma newlines_before_mono p q s : p <= q -> newlines_before p s <= newlines_before q s.
Proof.
  intros H. unfold newlines_before.
  rewrite <- (take_drop p (take q (PyStr.chars s))).
  rewrite take_take, Nat.min_l by lia.
  rewrite List.filter_app, length_app. lia.
Qed.

Lemma follows_line lx lx' : follows lx lx' -> line_counted lx -> line lx <= line lx'.
Proof.
  intros (Hs & Hp & Hl) H. specialize (Hl H). rewrite H, Hl, Hs.
  apply le_n_S, newlines_before_mono, Hp.
Qed.

Lemma operators_well_formed v ty line column :
  operators v = Some ty -> well_formed (Token.mk ty v line column) = true.
Proof.
  unfold operators. intros H.
  repeat match type of H with
         | (if decide ?P then _ else _) = _ =>
             destruct (decide P) as [->|_]; [by injection H as <-|]
         end.
  done.
Qed.

Lemma advance_while_tokens fuel p lx : tokens (advance_while fuel p lx) = tokens lx.
Proof.
  revert lx. induction fuel as [|fuel IH]; intros lx; simpl; [done|].
  repeat case_match; try done. by rewrite IH, advance_tokens.
Qed.

Lemma keywords_well_formed v line column :
  word_text v = true ->
  well_formed (Token.mk (default IDENTIFIER (keywords v)) v line column) = true.
Proof.
  intros Hv. destruct (keywords v) as [ty|] eqn:K; simpl.
  - unfold keywords in K.
    repeat match type of K with
           | (if decide ?P then _ else _) = _ =>
               destruct (decide P) as [->|_]; [by injection K as <-|]
           end.
    done.
  - unfold well_formed. simpl. rewrite Hv, K. done.
Qed.

(** One round of the loop of [tokenize] appends at most one token; the
    token is well formed and stands on a line from where the round
    started to where it ended. *)
Lemma tokenize_body_tokens lx continue lx' :
  line_counted lx -> tokenize_body lx = Ok (continue, lx') ->
  tokens lx' = tokens lx
  \/ exists tok,
       tokens lx' = tokens lx ++ [tok] /\ well_formed tok = true
       /\ line lx <= Token.line tok <= line lx'
       /\ position lx < len lx /\ position lx < position lx'.
Proof.
  intros Hl Hb.
  pose proof (tokenize_body_spec lx Hl) as Hspec. rewrite Hb in Hspec.
  destruct Hspec as (Hfol & Hl' & Hprog).
  unfold tokenize_body in Hb.
  pose proof (advance_while_follows (remaining lx) is_blank lx) as Hw.
  fold (skip_whitespace lx) in Hw, Hb. set (lx0 := skip_whitespace lx) in *.
  assert (Hl0 : line_counted lx0) by (by apply Hw).
  pose proof (follows_line _ _ Hw Hl) as Hline0.
  assert (Htok0 : tokens lx0 = tokens lx) by apply advance_while_tokens.
  destruct (current_char lx0) as [char|] eqn:Hc; [|left; by simplify_eq].
  assert (Hlen : position lx < len lx).
  { apply current_char_remaining in Hc. destruct Hw as (Hs & Hp & _).
    unfold remaining, len in *. rewrite Hs in Hc. lia. }
  (* a token that stands where [lx0] does, in front of a state [lx1] that
     follows it *)
  assert (Hnew : forall ty v lx1,
            tokens lx' = tokens lx1 ++ [Token.mk ty v (line lx0) (column lx0)] ->
            well_formed (Token.mk ty v (line lx0) (column lx0)) = true ->
            follows lx0 lx1 ->
            tokens lx1 = tokens lx -> line lx1 <= line lx' ->
            continue = true ->
            tokens lx' = tokens lx
            \/ exists tok,
                 tokens lx' = tokens lx ++ [tok] /\ well_formed tok = true
                 /\ line lx <= Token.line tok <= line lx'
                 /\ position lx < len lx /\ position lx < position lx').
  { intros ty v lx1 Ht Hwf Hf1 Ht1 Hle ->. right. eexists. split_and!; [by rewrite <- Ht1|done|done| |done|auto].
    simpl. pose proof (follows_line _ _ Hf1 Hl0). lia. }
  destruct (Ascii.eqb char "/" && _) eqn:Hcomment.
  { left. simplify_eq. by rewrite advance_while_tokens. }
  destruct (Ascii.eqb char PyStr.newline) eqn:Hnl.
  { apply Ascii.eqb_eq in Hnl. subst char. simplify_eq.
    eapply (Hnew _ _ lx0); [by rewrite advance_tokens|done|apply follows_refl|done| |done].
    apply follows_line; [|done].
    eapply follows_trans; [apply follows_append|apply follows_advance]. }
  destruct (PyStr.isdigit char) eqn:Hdigit.
  { unfold read_number in Hb.
    destruct (advance_while_slice is_number_char lx0 char Hc) as (v & Hv & Hall);
      [by unfold is_number_char; rewrite Hdigit|].
    rewrite (proj1 (advance_while_follows (remaining lx0) is_number_char lx0)) in Hb.
    rewrite Hv in Hb. simplify_eq.
    eapply (Hnew _ _ (advance_while (remaining lx0) is_number_char lx0));
      [done| |apply advance_while_follows| |done|done].
    - unfold well_formed, number_text. cbn [Token.type Token.value]. by rewrite Hdigit, Hall.
    - by rewrite advance_while_tokens. }
  destruct (Ascii.eqb char PyStr.dquote) eqn:Hquote.
  { unfold read_string in Hb.
    set (lx2 := string_body _ _) in *.
    assert (Hf2 : follows lx0 lx2)
      by (eapply follows_trans; [apply follows_advance|apply string_body_follows]).
    assert (Ht2 : tokens lx2 = tokens lx).
    { rewrite <- Htok0. unfold lx2. generalize (remaining (advance lx0)). intros fuel.
      rewrite <- (advance_tokens lx0). generalize (advance lx0). clear.
      induction fuel as [|fuel IH]; intros lx; simpl; [done|].
      repeat case_match; try done; by rewrite IH, ?advance_tokens. }
    destruct (current_char lx2) as [c2|]; [|done]. simpl in Hb. simplify_eq.
    eapply (Hnew _ _ (advance lx2)); [done|done| |by rewrite advance_tokens|done|done].
    eapply follows_trans; [apply Hf2|apply follows_advance]. }
  destruct (PyStr.isalpha char || Ascii.eqb char "_") eqn:Halpha.
  { unfold read_identifier in Hb.
    destruct (advance_while_slice is_identifier_char lx0 char Hc) as (v & Hv & Hall).
    { unfold is_identifier_char, PyStr.isalnum.
      apply orb_prop in Halpha as [->| ->]; [done|]. by rewrite orb_true_r. }
    rewrite (proj1 (advance_while_follows (remaining lx0) is_identifier_char lx0)) in Hb.
    rewrite Hv in Hb. simplify_eq.
    eapply (Hnew _ _ (advance_while (remaining lx0) is_identifier_char lx0));
      [done| |apply advance_while_follows| |done|done].
    - apply keywords_well_formed. unfold word_text. by rewrite Halpha, Hall.
    - by rewrite advance_while_tokens. }
  destruct (is_operator_start char) eqn:Hop.
  { destruct (operators _) as [ty|] eqn:Htwo.
    - simplify_eq.
      eapply (Hnew _ _ lx0); [by rewrite !advance_tokens| |apply follows_refl|done| |done].
      + by apply operators_well_formed.
      + apply follows_line; [|done].
        eapply follows_trans; [apply follows_append|].
        eapply follows_trans; apply follows_advance.
    - destruct (operators (str1 char)) as [ty|] eqn:Hone; [|done]. simplify_eq.
      eapply (Hnew _ _ lx0); [by rewrite !advance_tokens| |apply follows_refl|done| |done].
      + by apply operators_well_formed.
      + apply follows_line; [|done].
        eapply follows_trans; [apply follows_append|apply follows_advance]. }
  destruct (is_delimiter char) eqn:Hdelim; [|done].
  destruct (if Ascii.eqb char "(" then _ else _) as [ty|] eqn:Hty.
  - simplify_eq.
    eapply (Hnew _ _ lx0); [by rewrite !advance_tokens| |apply follows_refl|done| |done].
    + repeat match type of Hty with
             | (if Ascii.eqb ?c ?d then _ else _) = _ =>
                 destruct (Ascii.eqb_spec c d) as [->|_]; [by injection Hty as <-|]
             end.
      by apply operators_well_formed.
    + apply follows_line; [|done].
      eapply follows_trans; [apply follows_append|apply follows_advance].
  - left. simplify_eq. by rewrite advance_tokens, Htok0.
Qed.

Lemma ascending_snoc l y :
  ascending l -> Forall (fun x => x <= y) l -> ascending (l ++ [y]).
Proof.
  intros Hl Hy i j a b Hij Hi Hj.
  destruct (decide (j < length l)) as [Hlt|Hge].
  - rewrite lookup_app_l in Hi, Hj by lia. eauto.
  - rewrite lookup_app_r in Hj by lia.
    destruct (j - length l) as [|k] eqn:Ek; [|by destruct k]. injection Hj as <-.
    destruct (decide (i < length l)).
    + rewrite lookup_app_l in Hi by lia.
      rewrite Forall_forall in Hy. apply Hy. by eapply list_elem_of_lookup_2.
    + rewrite lookup_app_r in Hi by lia.
      destruct (i - length l) as [|k'] eqn:Ek'; [|by destruct k']. by injection Hi as <-.
Qed.

Lemma tokenize_body_break lx lx' :
  tokenize_body lx = Ok (false, lx') -> current_char lx' = None.
Proof.
  unfold tokenize_body, read_number, read_identifier, read_string. intros H.
  repeat case_match; simpl in *; simplify_eq; done.
Qed.

Lemma tokenize_body_invariant lx continue lx' :
  tokens_invariant lx -> tokenize_body lx = Ok (continue, lx') -> tokens_invariant lx'.
Proof.
  intros (Hl & Hwf & Hasc & Hlines & Hpos & Hlen) Hb.
  pose proof (tokenize_body_spec lx Hl) as Hspec. rewrite Hb in Hspec.
  destruct Hspec as (Hfol & Hl' & _).
  pose proof (follows_line _ _ Hfol Hl) as Hline.
  destruct Hfol as (Hs & Hp & _).
  assert (Hlen' : len lx' = len lx) by (unfold len; by rewrite Hs).
  unfold tokens_invariant.
  destruct (tokenize_body_tokens lx continue lx' Hl Hb)
    as [->|(tok & -> & Htok & Htl & Hlt & Hlt')].
  - split_and!; [done..| |lia|lia].
    eapply Forall_impl; [apply Hlines|]. simpl. intros. lia.
  - split_and!; [done| | | | |].
    + apply Forall_app. split; [done|]. by apply Forall_singleton.
    + rewrite fmap_app. apply ascending_snoc; [done|].
      apply Forall_fmap. eapply Forall_impl; [apply Hlines|]. simpl. intros. lia.
    + apply Forall_app. split.
      * eapply Forall_impl; [apply Hlines|]. simpl. intros. lia.
      * apply Forall_singleton.
        unfold line_counted in Hl. lia.
    + rewrite length_app. simpl. lia.
    + rewrite length_app. simpl. lia.
Qed.

Lemma tokenize_loop_invariant fuel lx lx' :
  tokens_invariant lx -> tokenize_loop fuel lx = Ok lx' ->
  tokens_invariant lx' /\ source lx' = source lx /\ len lx <= position lx'.
Proof.
  revert lx. induction fuel as [|fuel IH]; intros lx Hinv; simpl.
  - destruct (Nat.ltb_spec (position lx) (len lx)); [done|]. intros [= <-]. done.
  - destruct (Nat.ltb_spec (position lx) (len lx)); [|intros [= <-]; done].
    destruct (tokenize_body lx) as [[continue lx1]| |] eqn:Hb; simpl; [|done..].
    pose proof (tokenize_body_invariant _ _ _ Hinv Hb) as Hinv1.
    pose proof (tokenize_body_spec lx (proj1 Hinv)) as Hspec. rewrite Hb in Hspec.
    destruct Hspec as ((Hs & _ & _) & _ & _).
    destruct continue.
    + intros Hloop. destruct (IH lx1 Hinv1 Hloop) as (? & ? & ?).
      unfold len in *. rewrite Hs in *. split_and!; [done|congruence|lia].
    + intros [= <-]. apply tokenize_body_break, current_char_None in Hb.
      unfold len in *. rewrite Hs in *. done.
Qed.

Lemma tokenize_invariant source_code toks :
  tokenize source_code = Ok toks ->
  exists lx,
    toks = tokens lx ++ [Token.mk EOF EmptyString (line lx) (column lx)]
    /\ tokens_invariant lx /\ source lx = source_code
    /\ String.length source_code <= position lx.
Proof.
  unfold tokenize. intros H.
  destruct (tokenize_loop _ _) as [lx| |] eqn:Hloop; simpl in H; [|done..].
  injection H as <-. exists lx. split; [done|].
  apply tokenize_loop_invariant in Hloop; [done|].
  split_and!; simpl; [done|by apply Forall_nil|by intros [] | by apply Forall_nil|lia..].
Qed.

End LexerTokens.

(** The tokens [tokenize] returns are the tokens read from the text and one
    EOF token with an empty value; every token read is well formed: a
    NUMBER opens with a digit and holds digits and dots, an IDENTIFIER is a
    word that is no keyword, a keyword, operator or delimiter token has the
    text of its type, and none of them is an EOF token. *)
Theorem tokenize_well_formed (source_code : string) (toks : list Token.t) :
  Lexer.tokenize source_code = Ok toks ->
  exists body line column,
    toks = body ++ [Token.mk EOF EmptyString line column]
    /\ Forall (fun tok => well_formed tok = true) body.
Proof.
  intros (lx & -> & (_ & Hwf & _) & _)%tokenize_invariant. by eexists _, _, _.
Qed.

Lemma tokenize_well_formed_witness :
  exists toks,
    Lexer.tokenize two_line_source = Ok toks
    /\ exists body line column,
         toks = body ++ [Token.mk EOF EmptyString line column]
         /\ Forall (fun tok => well_formed tok = true) body.
Proof.
  eexists. split; [vm_compute; reflexivity|].
  eapply (tokenize_well_formed two_line_source). vm_compute. reflexivity.
Defined.

(** The lines of the tokens [tokenize] returns start at 1 and never
    decrease, and the line of the last token, the EOF token, is one more
    than the number of newlines in the text. *)
Theorem tokenize_lines (source_code : string) (toks : list Token.t) :
  Lexer.tokenize source_code = Ok toks ->
  ascending (Token.line <$> toks)
  /\ Forall (fun tok => 1 <= Token.line tok) toks
  /\ Token.line <$> last toks
     = Some (S (newlines_before (String.length source_code) source_code)).
Proof.
  intros (lx & -> & (Hl & _ & Hasc & Hlines & _) & Hs & Hp)%tokenize_invariant.
  assert (Hline : Lexer.line lx
                  = S (newlines_before (String.length source_code) source_code)).
  { rewrite Hl, Hs. f_equal. apply newlines_before_ge; [done|lia]. }
  split_and!.
  - rewrite fmap_app. apply ascending_snoc; [done|]. apply Forall_fmap.
    eapply Forall_impl; [apply Hlines|]. simpl. intros. lia.
  - apply Forall_app. split.
    + eapply Forall_impl; [apply Hlines|]. simpl. intros. lia.
    + apply Forall_singleton. simpl. lia.
  - rewrite last_snoc. simpl. by rewrite Hline.
Qed.

Lemma tokenize_lines_witness :
  exists toks,
    Lexer.tokenize two_line_source = Ok toks
    /\ ascending (Token.line <$> toks)
    /\ Forall (fun tok => 1 <= Token.line tok) toks
    /\ Token.line <$> last toks
       = Some (S (newlines_before (String.length two_line_source) two_line_source)).
Proof.
  eexists. split; [vm_compute; reflexivity|].
  eapply (tokenize_lines two_line_source). vm_compute. reflexivity.
Defined.

(** [tokenize] returns at most one token for every character of the text,
    and the EOF token. *)
Theorem tokenize_length (source_code : string) (toks : list Token.t) :
  Lexer.tokenize source_code = Ok toks ->
  length toks <= S (String.length source_code).
Proof.
  intros (lx & -> & (_ & _ & _ & _ & _ & Hlen) & Hs & _)%tokenize_invariant.
  rewrite length_app. simpl. unfold Lexer.len in Hlen. rewrite Hs in Hlen. lia.
Qed.

Lemma tokenize_length_witness :
  exists toks,
    Lexer.tokenize two_line_source = Ok toks
    /\ length toks <= S (String.length two_line_source).
Proof.
  eexists. split; [vm_compute; reflexivity|].
  eapply (tokenize_length two_line_source). vm_compute. reflexivity.
Defined.

(** ** The parser returns *)

Section ParserTermination.
Import Parser.

Lemma current_token_eof p : on_tokens p -> tokens_left p = 0 -> Token.type (current_token p) = EOF.
Proof.
  intros [He Hp] Hr. unfold current_token, tokens_left, ends_in_eof in *.
  destruct (last (tokens p)) as [tok|] eqn:El; [|done]. simpl in He.
  injection He as He. rewrite last_lookup in El.
  rewrite <- He. f_equal.
  erewrite nth_lookup_Some; [done|].
  rewrite <- El. f_equal. lia.
Qed.

Lemma tokens_left_pos p : on_tokens p -> Token.type (current_token p) <> EOF -> 0 < tokens_left p.
Proof.
  intros Hw Hne. destruct (tokens_left p) eqn:E; [|lia].
  by apply current_token_eof in E.
Qed.

Lemma advance_steps p :
  on_tokens p -> Token.type (current_token p) <> EOF ->
  on_tokens (advance p) /\ tokens (advance p) = tokens p /\ position (advance p) = S (position p).
Proof.
  intros Hw Hne. pose proof (tokens_left_pos p Hw Hne) as Hr.
  destruct Hw as [He Hp]. unfold tokens_left in Hr. unfold advance.
  destruct (Nat.ltb_spec (position p) (length (tokens p) - 1)); [|lia].
  split_and!; [split; simpl; [done|lia]|done..].
Qed.

Lemma match_not_eof p tys : match_ p tys = true -> EOF ∉ tys -> Token.type (current_token p) <> EOF.
Proof.
  unfold match_. intros H%bool_decide_eq_true Hn E. by rewrite E in H.
Qed.


Lemma consume_steps ty p :
  on_tokens p -> ty <> EOF -> steps true p (consume ty p).
Proof.
  intros Hw Hty. unfold consume. case_decide as E; [|done]. simpl.
  destruct (advance_steps p Hw) as (? & ? & ?); [congruence|].
  split_and!; [done..|lia].
Qed.

Lemma skip_newlines_loop_steps fuel p :
  on_tokens p -> tokens_left p <= fuel ->
  match skip_newlines_loop fuel p with
  | Ok (_, p') =>
      on_tokens p' /\ tokens p' = tokens p /\ position p <= position p'
      /\ match_ p' [NEWLINE] = false
  | _ => False
  end.
Proof.
  revert p. induction fuel as [|fuel IH]; intros p Hw Hf; simpl.
  - destruct (match_ p [NEWLINE]) eqn:E; [|done].
    apply match_not_eof in E; [|set_solver]. apply tokens_left_pos in E; [lia|done].
  - destruct (match_ p [NEWLINE]) eqn:E; [|done].
    apply match_not_eof in E; [|set_solver].
    pose proof (tokens_left_pos p Hw E).
    destruct (advance_steps p Hw E) as (Hw' & Ht & Hp).
    specialize (IH (advance p) Hw'). unfold tokens_left in *. rewrite Ht, Hp in IH.
    specialize (IH ltac:(lia)).
    destruct (skip_newlines_loop fuel (advance p)) as [[[] p']| |]; [|done..].
    destruct IH as (? & ? & ? & ?). split_and!; [done|congruence|lia|done].
Qed.

Lemma skip_newlines_steps p :
  on_tokens p ->
  match skip_newlines p with
  | Ok (_, p') =>
      on_tokens p' /\ tokens p' = tokens p /\ position p <= position p'
      /\ match_ p' [NEWLINE] = false
  | _ => False
  end.
Proof. intros Hw. apply skip_newlines_loop_steps; [done|]. unfold tokens_left. lia. Qed.

Section Expressions.
Variable parse_expression : t -> M Expression.
Variable n : nat.
Hypothesis parse_expression_steps :
  forall p, on_tokens p -> tokens_left p < n -> steps true p (parse_expression p).

Lemma parse_primary_steps p :
  on_tokens p -> tokens_left p <= n -> steps true p (parse_primary parse_expression p).
Proof.
  intros Hw Hn. unfold parse_primary.
  assert (Hadv : forall tys, match_ p tys = true -> EOF ∉ tys ->
            on_tokens (advance p) /\ tokens (advance p) = tokens p
            /\ position p < position (advance p) /\ tokens_left (advance p) < n).
  { intros tys Hm Hty. pose proof (match_not_eof _ _ Hm Hty) as Hne.
    pose proof (tokens_left_pos p Hw Hne).
    destruct (advance_steps p Hw Hne) as (? & Ht & Hp). unfold tokens_left in *.
    rewrite Ht, Hp. split_and!; [done..|lia|lia]. }
  destruct (match_ p [NUMBER]) eqn:E1.
  { destruct (Hadv _ E1) as (? & ? & ? & _); [set_solver|]. by case_match. }
  destruct (match_ p [STRING]) eqn:E2.
  { destruct (Hadv _ E2) as (? & ? & ? & _); [set_solver|]. done. }
  destruct (match_ p [IDENTIFIER]) eqn:E3.
  { destruct (Hadv _ E3) as (? & ? & ? & _); [set_solver|]. done. }
  destruct (match_ p [LPAREN]) eqn:E4; [|done].
  destruct (Hadv _ E4) as (Hw' & Ht & Hp & Hr); [set_solver|].
  pose proof (parse_expression_steps _ Hw' Hr) as H.
  destruct (parse_expression (advance p)) as [[e p1]| |]; simpl in *; [|done..].
  destruct H as (Hw1 & Ht1 & Hp1).
  pose proof (consume_steps RPAREN p1 Hw1 ltac:(done)) as H.
  destruct (consume RPAREN p1) as [[tok p2]| |]; simpl in *; [|done..].
  destruct H as (? & ? & ?). split_and!; [done|congruence|lia].
Qed.


Lemma parse_unary_rec_steps fuel p :
  on_tokens p -> tokens_left p <= n -> tokens_left p <= fuel ->
  steps true p (parse_unary_rec parse_expression fuel p).
Proof.
  revert p. induction fuel as [|fuel IH]; intros p Hw Hn Hf; simpl.
  - destruct (match_ p [NOT; MINUS]) eqn:E; [|by apply parse_primary_steps].
    apply match_not_eof in E; [|set_solver]. apply tokens_left_pos in E; [lia|done].
  - destruct (match_ p [NOT; MINUS]) eqn:E; [|by apply parse_primary_steps].
    apply match_not_eof in E; [|set_solver].
    pose proof (tokens_left_pos p Hw E).
    destruct (advance_steps p Hw E) as (Hw' & Ht & Hp).
    specialize (IH (advance p) Hw'). unfold tokens_left in *. rewrite Ht, Hp in IH.
    specialize (IH ltac:(lia) ltac:(lia)).
    destruct (parse_unary_rec _ fuel (advance p)) as [[e p']| |]; simpl in *; [|done..].
    destruct IH as (? & ? & ?). split_and!; [done|congruence|lia].
Qed.

Lemma parse_unary_steps p :
  on_tokens p -> tokens_left p <= n -> steps true p (parse_unary parse_expression p).
Proof. intros. apply parse_unary_rec_steps; [done..|]. unfold tokens_left. lia. Qed.

Section Level.
Variable token_types : list TokenType.
Variable sub : t -> M Expression.
Hypothesis no_eof : EOF ∉ token_types.
Hypothesis sub_steps : forall p, on_tokens p -> tokens_left p <= n -> steps true p (sub p).

Lemma binary_loop_steps fuel expr p :
  on_tokens p -> tokens_left p <= n -> tokens_left p <= fuel ->
  steps false p (binary_loop token_types sub fuel expr p).
Proof.
  revert expr p. induction fuel as [|fuel IH]; intros expr p Hw Hn Hf; simpl.
  - destruct (match_ p token_types) eqn:E; [|by split_and!].
    apply match_not_eof in E; [|done]. apply tokens_left_pos in E; [lia|done].
  - destruct (match_ p token_types) eqn:E; [|by split_and!].
    apply match_not_eof in E; [|done].
    pose proof (tokens_left_pos p Hw E).
    destruct (advance_steps p Hw E) as (Hw' & Ht & Hp).
    pose proof (sub_steps (advance p) Hw') as Hs. unfold tokens_left in *.
    rewrite Ht, Hp in Hs. specialize (Hs ltac:(lia)).
    destruct (sub (advance p)) as [[rhs p1]| |]; simpl in *; [|done..].
    destruct Hs as (Hw1 & Ht1 & Hp1).
    change (steps false p
              (binary_loop token_types sub fuel
                 (BinaryOperation expr (Token.value (current_token p)) rhs) p1)).
    specialize (IH (BinaryOperation expr (Token.value (current_token p)) rhs) p1 Hw1).
    rewrite Ht1, Ht in IH. specialize (IH ltac:(lia) ltac:(lia)).
    destruct (binary_loop _ _ _ _ _) as [[e p2]| |]; simpl in *; [|done..].
    destruct IH as (? & ? & ?). split_and!; [done|congruence|lia].
Qed.

Lemma binary_level_steps p :
  on_tokens p -> tokens_left p <= n -> steps true p (binary_level token_types sub p).
Proof.
  intros Hw Hn. unfold binary_level.
  pose proof (sub_steps p Hw Hn) as Hs.
  destruct (sub p) as [[e p1]| |]; simpl in *; [|done..].
  destruct Hs as (Hw1 & Ht1 & Hp1).
  change (steps true p (binary_loop token_types sub (length (tokens p1)) e p1)).
  pose proof (binary_loop_steps (length (tokens p1)) e p1 Hw1) as H.
  unfold tokens_left in *. rewrite Ht1 in *. specialize (H ltac:(lia) ltac:(lia)).
  destruct (binary_loop _ _ _ _ _) as [[e' p2]| |]; simpl in *; [|done..].
  destruct H as (? & ? & ?). split_and!; [done|congruence|lia].
Qed.

End Level.

Lemma parse_logical_or_steps p :
  on_tokens p -> tokens_left p <= n -> steps true p (parse_logical_or parse_expression p).
Proof.
  revert p.
  unfold parse_logical_or, parse_logical_and, parse_equality, parse_comparison,
    parse_addition, parse_multiplication.
  repeat (apply binary_level_steps; [set_solver|]).
  apply parse_unary_steps.
Qed.

End Expressions.

Lemma parse_expression_rec_steps fuel p :
  on_tokens p -> tokens_left p < fuel -> steps true p (parse_expression_rec fuel p).
Proof.
  revert p. induction fuel as [|fuel IH]; intros p Hw Hf; [lia|].
  simpl. apply (parse_logical_or_steps _ fuel); [done..|lia].
Qed.

Lemma parse_expression_steps p : on_tokens p -> steps true p (parse_expression p).
Proof. intros. apply parse_expression_rec_steps; [done|]. unfold tokens_left. lia. Qed.

(** Takes the outcome of a call that is known to step, names the state it
    leaves and identifies its tokens with those of the caller. *)
Ltac call H :=
  let Hs := fresh "Hs" in
  let a := fresh "a" in
  let ts := fresh "ts" in
  let q := fresh "q" in
  pose proof H as Hs;
  match type of Hs with
  | steps _ _ ?r =>
      destruct r as [[a [ts q]]| |]; simpl in Hs |- *; [|done..];
      destruct Hs as (? & -> & ?)
  end.

Ltac close := split_and!; [done|done|unfold on_tokens, tokens_left in *; simpl in *; lia].

Lemma parse_print_statement_steps p : on_tokens p -> steps true p (parse_print_statement p).
Proof.
  intros Hw. destruct p as [toks pos]. unfold parse_print_statement.
  call (consume_steps PRINT _ Hw ltac:(done)).
  call (consume_steps LPAREN _ H ltac:(done)).
  call (parse_expression_steps _ H1).
  call (consume_steps RPAREN _ H3 ltac:(done)).
  call (consume_steps SEMICOLON _ H5 ltac:(done)).
  close.
Qed.

Lemma parse_scan_statement_steps p : on_tokens p -> steps true p (parse_scan_statement p).
Proof.
  intros Hw. destruct p as [toks pos]. unfold parse_scan_statement.
  call (consume_steps SCAN _ Hw ltac:(done)).
  call (consume_steps LPAREN _ H ltac:(done)).
  call (consume_steps IDENTIFIER _ H1 ltac:(done)).
  call (consume_steps RPAREN _ H3 ltac:(done)).
  call (consume_steps SEMICOLON _ H5 ltac:(done)).
  close.
Qed.

Lemma parse_assignment_statement_steps p :
  on_tokens p -> steps true p (parse_assignment_statement p).
Proof.
  intros Hw. destruct p as [toks pos]. unfold parse_assignment_statement.
  call (consume_steps IDENTIFIER _ Hw ltac:(done)).
  destruct (match_ _ [ASSIGN; PLUS_ASSIGN; MINUS_ASSIGN]) eqn:E; [|done].
  apply match_not_eof in E; [|set_solver].
  destruct (advance_steps _ H E) as (Hw' & Ht & Hp).
  destruct (advance _) as [ts' q'] eqn:Ea. simpl in Ht, Hp. subst ts'.
  call (parse_expression_steps _ Hw').
  call (consume_steps SEMICOLON _ H1 ltac:(done)).
  close.
Qed.

Lemma not_match_eof p : match_ p [EOF] = false -> Token.type (current_token p) <> EOF.
Proof. unfold match_. intros H%bool_decide_eq_false. set_solver. Qed.

Lemma skip_newlines_at_eof p : match_ p [EOF] = true -> skip_newlines p = Ok (tt, p).
Proof.
  unfold skip_newlines, match_. intros H%bool_decide_eq_true.
  assert (E : Token.type (current_token p) = EOF) by set_solver.
  destruct (length (tokens p)); simpl; unfold match_; rewrite E; done.
Qed.

Lemma skip_newlines_steps' p : on_tokens p -> steps false p (skip_newlines p).
Proof.
  intros Hw. pose proof (skip_newlines_steps p Hw) as H.
  destruct (skip_newlines p) as [[[] p']| |]; simpl; [|done..].
  by destruct H as (? & ? & ? & _).
Qed.

Section Statements.
Variable parse_statement : t -> M (option Statement).
Variable n : nat.
Hypothesis parse_statement_steps :
  forall p, on_tokens p -> tokens_left p < n -> statement_steps p (parse_statement p).

Lemma parse_block_steps fuel body p :
  on_tokens p -> tokens_left p < n -> tokens_left p <= fuel ->
  steps false p (parse_block parse_statement fuel body p).
Proof.
  revert body p. induction fuel as [|fuel IH]; intros body p Hw Hn Hf; simpl.
  - destruct (negb (match_ p [RBRACE]) && negb (match_ p [EOF])) eqn:E; [|by split_and!].
    apply andb_prop in E as [_ E%negb_true_iff].
    apply not_match_eof, tokens_left_pos in E; [lia|done].
  - destruct (negb (match_ p [RBRACE]) && negb (match_ p [EOF])) eqn:E; [|by split_and!].
    pose proof (parse_statement_steps p Hw Hn) as Hs.
    destruct p as [toks pos].
    destruct (parse_statement _) as [[[stmt|] [ts q]]| |]; simpl in Hs |- *; [| |done..].
    + destruct Hs as (Hw1 & -> & Hp1).
      call (skip_newlines_steps' _ Hw1).
      match goal with |- steps _ _ (parse_block _ _ ?b ?p) =>
        pose proof (IH b p ltac:(done)) as Hb end.
      unfold tokens_left, on_tokens in *; simpl in *.
      specialize (Hb ltac:(lia) ltac:(lia)).
      destruct (parse_block _ _ _ _) as [[b [ts' q']]| |]; simpl in *; [|done..].
      destruct Hb as (? & -> & ?). split_and!; [done..|lia].
    + destruct Hs as (Hw1 & -> & Hp1 & He).
      rewrite (skip_newlines_at_eof _ He). simpl.
      destruct fuel; simpl; rewrite He, andb_false_r; simpl; done.
Qed.

Ltac block :=
  match goal with
  | |- steps _ _ (mbind _ (parse_block _ ?f ?b ?p)) =>
      let Hb := fresh "Hb" in
      assert (Hb : steps false p (parse_block parse_statement f b p))
        by (apply parse_block_steps; [done|unfold on_tokens, tokens_left in *; simpl in *; lia..]);
      call Hb
  end.

Lemma parse_while_statement_steps p :
  on_tokens p -> tokens_left p <= n -> steps true p (parse_while_statement parse_statement p).
Proof.
  intros Hw Hn. destruct p as [toks pos]. unfold parse_while_statement.
  call (consume_steps WHILE _ Hw ltac:(done)).
  call (consume_steps LPAREN _ H ltac:(done)).
  call (parse_expression_steps _ H1).
  call (consume_steps RPAREN _ H3 ltac:(done)).
  call (consume_steps LBRACE _ H5 ltac:(done)).
  call (skip_newlines_steps' _ H7).
  block.
  call (consume_steps RBRACE _ H11 ltac:(done)).
  close.
Qed.

Lemma parse_if_statement_steps p :
  on_tokens p -> tokens_left p <= n -> steps true p (parse_if_statement parse_statement p).
Proof.
  intros Hw Hn. destruct p as [toks pos]. unfold parse_if_statement.
  call (consume_steps IF _ Hw ltac:(done)).
  call (consume_steps LPAREN _ H ltac:(done)).
  call (parse_expression_steps _ H1).
  call (consume_steps RPAREN _ H3 ltac:(done)).
  call (consume_steps LBRACE _ H5 ltac:(done)).
  call (skip_newlines_steps' _ H7).
  block.
  call (consume_steps RBRACE _ H11 ltac:(done)).
  destruct (match_ _ [ELSE]) eqn:E; [|close].
  apply match_not_eof in E; [|set_solver].
  destruct (advance_steps _ H13 E) as (Hw' & Ht & Hp).
  destruct (advance _) as [ts' q'] eqn:Ea. simpl in Ht, Hp. subst ts'.
  call (consume_steps LBRACE _ Hw' ltac:(done)).
  call (skip_newlines_steps' _ H15).
  block.
  call (consume_steps RBRACE _ H19 ltac:(done)).
  close.
Qed.

End Statements.

Lemma parse_statement_rec_steps fuel p :
  on_tokens p -> tokens_left p < fuel -> statement_steps p (parse_statement_rec fuel p).
Proof.
  revert p. induction fuel as [|fuel IH]; intros p Hw Hf; [lia|].
  simpl. pose proof (skip_newlines_steps p Hw) as Hs.
  destruct p as [toks pos].
  destruct (skip_newlines _) as [[[] [ts q]]| |]; simpl in Hs |- *; [|done..].
  destruct Hs as (Hw1 & -> & Hp1 & Hnl).
  assert (Hr : tokens_left (mk toks q) <= fuel) by (unfold tokens_left in *; simpl in *; lia).
  assert (Hlift : forall r : M Statement, steps true (mk toks q) r ->
            statement_steps (mk toks pos) (r ≫= λ '(s, p), Ok (Some s, p))).
  { intros [[s [ts' q']]| |]; simpl; [|done..]. intros (? & -> & ?).
    split_and!; [done..|lia]. }
  destruct (match_ _ [PRINT]); [by apply Hlift, parse_print_statement_steps|].
  destruct (match_ _ [SCAN]); [by apply Hlift, parse_scan_statement_steps|].
  destruct (match_ _ [WHILE]);
    [by apply Hlift, (parse_while_statement_steps _ fuel)|].
  destruct (match_ _ [IF]);
    [by apply Hlift, (parse_if_statement_steps _ fuel)|].
  destruct (match_ _ [IDENTIFIER]); [by apply Hlift, parse_assignment_statement_steps|].
  destruct (match_ _ [EOF; NEWLINE]) eqn:E; simpl; [|done].
  split_and!; [done..|].
  unfold match_ in *. apply bool_decide_eq_true in E. apply bool_decide_eq_false in Hnl.
  apply bool_decide_eq_true. set_solver.
Qed.

Lemma parse_statement_steps p : on_tokens p -> statement_steps p (parse_statement p).
Proof. intros. apply parse_statement_rec_steps; [done|]. unfold tokens_left. lia. Qed.

Lemma parse_loop_steps fuel statements p :
  on_tokens p -> tokens_left p <= fuel -> steps false p (parse_loop fuel statements p).
Proof.
  revert statements p. induction fuel as [|fuel IH]; intros statements p Hw Hf; simpl.
  - destruct (negb (match_ p [EOF])) eqn:E; [|by split_and!].
    apply negb_true_iff, not_match_eof, tokens_left_pos in E; [lia|done].
  - destruct (negb (match_ p [EOF])) eqn:E; [|by split_and!].
    pose proof (parse_statement_steps p Hw) as Hs.
    destruct p as [toks pos].
    destruct (parse_statement _) as [[[stmt|] [ts q]]| |]; simpl in Hs |- *; [| |done..].
    + destruct Hs as (Hw1 & -> & Hp1).
      call (skip_newlines_steps' _ Hw1).
      match goal with |- steps _ _ (parse_loop _ ?b ?p) =>
        pose proof (IH b p ltac:(done)) as Hb end.
      unfold tokens_left, on_tokens in *; simpl in *.
      specialize (Hb ltac:(lia)).
      destruct (parse_loop _ _ _) as [[b [ts' q']]| |]; simpl in *; [|done..].
      destruct Hb as (? & -> & ?). split_and!; [done..|lia].
    + destruct Hs as (Hw1 & -> & Hp1 & He).
      rewrite (skip_newlines_at_eof _ He). simpl.
      destruct fuel; simpl; rewrite He; simpl; done.
Qed.

Lemma parse_returned toks : ends_in_eof toks -> returned (parse toks).
Proof.
  intros He. unfold parse. destruct toks as [|tok toks]; [done|].
  set (l := tok :: toks) in *.
  assert (Hw : on_tokens (mk l 0)) by (split; simpl; [done|lia]).
  pose proof (skip_newlines_steps' _ Hw) as Hs.
  destruct (skip_newlines _) as [[[] [ts q]]| |]; simpl in Hs; [|done..].
  destruct Hs as (Hw1 & -> & _).
  pose proof (parse_loop_steps (length l) [] _ Hw1
                ltac:(unfold tokens_left; simpl; lia)) as Hl.
  cbv beta iota delta [mbind outcome_bind].
  by destruct (parse_loop _ _ _) as [[? ?]| |].
Qed.

End ParserTermination.

(** [Parser.parse] returns on every token list that ends in an EOF token:
    it yields a program or raises, whatever stands in front of the EOF. *)
Theorem parse_terminates (toks : list Token.t) :
  ends_in_eof toks ->
  (exists program, Parser.parse toks = Ok program)
  \/ (exists e, Parser.parse toks = Raise e).
Proof.
  intros H%parse_returned. destruct (Parser.parse toks); [by left; eexists|by right; eexists|done].
Qed.

Lemma parse_terminates_witness :
  ends_in_eof [Token.mk MINUS "-" 1 1; Token.mk LPAREN "(" 1 2; Token.mk EOF "" 1 3]
  /\ ((exists program,
         Parser.parse [Token.mk MINUS "-" 1 1; Token.mk LPAREN "(" 1 2; Token.mk EOF "" 1 3]
         = Ok program)
      \/ (exists e,
            Parser.parse [Token.mk MINUS "-" 1 1; Token.mk LPAREN "(" 1 2; Token.mk EOF "" 1 3]
            = Raise e)).
Proof. split; [reflexivity|apply parse_terminates; reflexivity]. Defined.

(** The front end returns on every source text: [tokenize] and then
    [parse] yield a program or raise. *)
Theorem parse_source_terminates (source_code : string) :
  (exists program, SourceToSourceCompiler.parse_source source_code = Ok program)
  \/ (exists e, SourceToSourceCompiler.parse_source source_code = Raise e).
Proof.
  unfold SourceToSourceCompiler.parse_source, Lexer.tokenize.
  pose proof (tokenize_loop_spec (String.length source_code) (Lexer.init source_code)) as H.
  simpl in H. specialize (H eq_refl). unfold Lexer.len in H. simpl in H.
  specialize (H ltac:(lia)).
  destruct (Lexer.tokenize_loop _ _) as [lx|e|]; simpl; [|by right; eexists|done].
  match goal with |- context [Parser.parse ?l] =>
    pose proof (parse_returned l) as Hp end.
  unfold ends_in_eof in Hp. rewrite last_snoc in Hp. specialize (Hp eq_refl).
  destruct (Parser.parse _); simpl; [by left; eexists|by right; eexists|done].
Qed.

(** ** The semantic analyzer *)

Section SemanticFacts.
Import SemanticAnalyzer.

Lemma visit_all_defined x l a :
  Forall (fun s => forall a,
            SymbolTable.lookup x (symbol_table (visit_statement s a))
            = defines x s || SymbolTable.lookup x (symbol_table a)) l ->
  SymbolTable.lookup x (symbol_table (visit_all visit_statement l a))
  = existsb (defines x) l || SymbolTable.lookup x (symbol_table a).
Proof.
  intros H. revert a. induction H as [|s l Hs _ IH]; intros a; simpl; [done|].
  rewrite IH, Hs. by destruct (defines x s), (existsb (defines x) l).
Qed.

(** A statement defines its targets, at any depth, and nothing else. *)
Lemma visit_statement_defined x s a :
  SymbolTable.lookup x (symbol_table (visit_statement s a))
  = defines x s || SymbolTable.lookup x (symbol_table a).
Proof.
  revert a. induction s as [target operator value|expression|target
                            |condition body IH|condition tb eb IHt IHe]
    using Statement_induction; intros a; cbn [visit_statement defines].
  - by rewrite define_table, lookup_define, visit_expression_table.
  - by rewrite visit_expression_table.
  - by rewrite define_table, lookup_define.
  - by rewrite visit_all_defined, visit_expression_table.
  - destruct eb as [[|s l]|].
    + rewrite visit_all_defined, visit_expression_table by done. simpl.
      by rewrite orb_false_r.
    + rewrite visit_all_defined by (by apply IHe).
      rewrite visit_all_defined, visit_expression_table by done.
      by rewrite orb_assoc, (orb_comm (existsb _ (s :: l))).
    + rewrite visit_all_defined, visit_expression_table by done.
      by rewrite orb_false_r.
Qed.

Lemma undefined_variable_not_division x : undefined_variable x <> "Division by zero".
Proof. done. Qed.

Lemma visit_expression_division e a :
  "Division by zero" ∈ errors (visit_expression e a)
  <-> "Division by zero" ∈ errors a \/ divides_by_zero e = true.
Proof.
  revert a. induction e as [| |name|lhs IHl op rhs IHr|op operand IH]; intros a;
    cbn [visit_expression divides_by_zero].
  - naive_solver.
  - naive_solver.
  - unfold visit_identifier. case_match; [naive_solver|].
    simpl. rewrite elem_of_app, list_elem_of_singleton.
    pose proof (undefined_variable_not_division name). naive_solver.
  - destruct ((bool_decide (op = "/") || bool_decide (op = "%")) && is_literal_zero rhs);
      simpl; rewrite ?elem_of_app, ?list_elem_of_singleton, IHr, IHl, ?orb_true_r, ?orb_false_r,
        ?orb_true_iff; naive_solver.
  - apply IH.
Qed.

Lemma visit_all_division l a :
  Forall (fun s => forall a,
            "Division by zero" ∈ errors (visit_statement s a)
            <-> "Division by zero" ∈ errors a \/ statement_has divides_by_zero s = true) l ->
  "Division by zero" ∈ errors (visit_all visit_statement l a)
  <-> "Division by zero" ∈ errors a \/ existsb (statement_has divides_by_zero) l = true.
Proof.
  intros H. revert a. induction H as [|s l Hs _ IH]; intros a; simpl; [naive_solver|].
  rewrite IH, Hs, orb_true_iff. naive_solver.
Qed.

Lemma visit_statement_division s a :
  "Division by zero" ∈ errors (visit_statement s a)
  <-> "Division by zero" ∈ errors a \/ statement_has divides_by_zero s = true.
Proof.
  revert a. induction s as [target operator value|expression|target
                            |condition body IH|condition tb eb IHt IHe]
    using Statement_induction; intros a; cbn [visit_statement statement_has].
  - apply visit_expression_division.
  - apply visit_expression_division.
  - naive_solver.
  - rewrite visit_all_division, visit_expression_division, orb_true_iff by done.
    naive_solver.
  - destruct eb as [[|s l]|].
    + rewrite visit_all_division, visit_expression_division, !orb_true_iff by done.
      naive_solver.
    + rewrite visit_all_division by (by apply IHe).
      rewrite visit_all_division, visit_expression_division, !orb_true_iff by done.
      naive_solver.
    + rewrite visit_all_division, visit_expression_division, !orb_true_iff by done.
      naive_solver.
Qed.

Lemma visit_expression_sound e a m :
  m ∈ errors (visit_expression e a) -> sound_from a (fun x => mentions x e) m.
Proof.
  unfold sound_from.
  revert a. induction e as [| |name|lhs IHl op rhs IHr|op operand IH]; intros a;
    cbn [visit_expression mentions].
  - naive_solver.
  - naive_solver.
  - unfold visit_identifier. destruct (SymbolTable.lookup _ _) eqn:E; [naive_solver|].
    simpl. rewrite elem_of_app, list_elem_of_singleton. intros [?| ->]; [by left|].
    right. right. exists name. by rewrite bool_decide_eq_true_2.
  - intros Hm.
    assert (Hm' : m ∈ errors (visit_expression rhs (visit_expression lhs a))
                  \/ m = "Division by zero").
    { destruct (_ && _); simpl in Hm; [|by left].
      apply elem_of_app in Hm as [?|?%list_elem_of_singleton]; auto. }
    destruct Hm' as [Hm'|?]; [|by auto].
    apply IHr in Hm' as [Hm'|[?|(x & ? & Hx & ?)]]; [|by auto|].
    + apply IHl in Hm' as [?|[?|(x & ? & Hx & ?)]]; [by auto..|].
      right. right. exists x. split_and!; [done..|]. by apply orb_true_iff; left.
    + right. right. exists x. rewrite visit_expression_table in Hx.
      split_and!; [done..|]. by apply orb_true_iff; right.
  - apply IH.
Qed.

Lemma visit_all_sound l a m :
  Forall (fun s => forall a, m ∈ errors (visit_statement s a) ->
                   sound_from a (fun x => statement_has (mentions x) s) m) l ->
  m ∈ errors (visit_all visit_statement l a) ->
  sound_from a (fun x => existsb (statement_has (mentions x)) l) m.
Proof.
  unfold sound_from.
  intros H. revert a. induction H as [|s l Hs _ IH]; intros a; simpl; [by auto|].
  intros [Hm|[?|(x & ? & Hx & ?)]]%IH; [|by auto|].
  - apply Hs in Hm as [?|[?|(x & ? & Hx & ?)]]; [by auto..|].
    right. right. exists x. split_and!; [done..|]. by apply orb_true_iff; left.
  - right. right. exists x. rewrite visit_statement_defined in Hx.
    apply orb_false_elim in Hx as [_ Hx].
    split_and!; [done..|]. by apply orb_true_iff; right.
Qed.

Lemma visit_statement_sound s a m :
  m ∈ errors (visit_statement s a) ->
  sound_from a (fun x => statement_has (mentions x) s) m.
Proof.
  revert a. induction s as [target operator value|expression|target
                            |condition body IH|condition tb eb IHt IHe]
    using Statement_induction; intros a; cbn [visit_statement statement_has].
  - apply visit_expression_sound.
  - apply visit_expression_sound.
  - unfold sound_from. by auto.
  - intros Hm%visit_all_sound; [|done]. unfold sound_from in *.
    destruct Hm as [Hm|[?|(x & ? & Hx & ?)]]; [|by auto|].
    + apply visit_expression_sound in Hm as [?|[?|(x & ? & Hx & ?)]]; [by auto..|].
      right. right. exists x. split_and!; [done..|]. by apply orb_true_iff; left.
    + right. right. exists x. rewrite visit_expression_table in Hx.
      split_and!; [done..|]. by apply orb_true_iff; right.
  - assert (Hthen :
              m ∈ errors (visit_all visit_statement tb (visit_expression condition a)) ->
              sound_from a (fun x => mentions x condition
                                     || existsb (statement_has (mentions x)) tb) m).
    { intros Hm%visit_all_sound; [|done]. unfold sound_from in *.
      destruct Hm as [Hm|[?|(x & ? & Hx & ?)]]; [|by auto|].
      + apply visit_expression_sound in Hm as [?|[?|(x & ? & Hx & ?)]]; [by auto..|].
        right. right. exists x. split_and!; [done..|]. by apply orb_true_iff; left.
      + right. right. exists x. rewrite visit_expression_table in Hx.
        split_and!; [done..|]. by apply orb_true_iff; right. }
    assert (Hweak : forall b,
              sound_from a (fun x => mentions x condition
                                     || existsb (statement_has (mentions x)) tb) m ->
              sound_from a (fun x => mentions x condition
                                     || existsb (statement_has (mentions x)) tb
                                     || b x) m).
    { unfold sound_from. intros b [?|[?|(x & ? & Hx & Hm)]]; [by auto..|].
      right. right. exists x. by rewrite Hm. }
    destruct eb as [[|s l]|]; [by intros; apply Hweak, Hthen| |by intros; apply Hweak, Hthen].
    intros Hm%visit_all_sound; [|by apply IHe]. unfold sound_from in Hm.
    destruct Hm as [Hm|[?|(x & ? & Hx & Hm)]]; [by apply Hweak, Hthen|unfold sound_from; by auto|].
    unfold sound_from. right. right. exists x.
    rewrite visit_all_defined in Hx
      by (apply Forall_forall; intros; apply visit_statement_defined).
    apply orb_false_elim in Hx as [_ Hx]. rewrite visit_expression_table in Hx.
    split_and!; [done..|]. rewrite Hm. by rewrite orb_true_r.
Qed.

End SemanticFacts.

(** [analyze] has no scopes and follows no control flow: after the call a
    name is defined exactly when it was defined before or is the target of
    an assignment or a [scan] anywhere in the program, at any depth. *)
Theorem analyze_defines (p : Program) (a : SemanticAnalyzer.t) (x : string) :
  SymbolTable.lookup x (SemanticAnalyzer.symbol_table (SemanticAnalyzer.analyze p a).2)
  = existsb (defines x) (statements p)
    || SymbolTable.lookup x (SemanticAnalyzer.symbol_table a).
Proof.
  unfold SemanticAnalyzer.analyze, SemanticAnalyzer.visit_program. simpl.
  rewrite visit_all_defined; [done|].
  apply Forall_forall. intros s _ a'. apply visit_statement_defined.
Qed.

(** ["Division by zero"] is among the diagnostics of [analyze] exactly
    when some expression of the program, at any depth, divides (with [/] or
    [%]) by a number literal that is zero. *)
Theorem division_by_zero_reported (p : Program) (a : SemanticAnalyzer.t) :
  "Division by zero" ∈ (SemanticAnalyzer.analyze p a).1
  <-> existsb (statement_has divides_by_zero) (statements p) = true.
Proof.
  unfold SemanticAnalyzer.analyze, SemanticAnalyzer.visit_program. simpl.
  rewrite visit_all_division.
  - simpl. set_solver.
  - apply Forall_forall. intros s _ a'. apply visit_statement_division.
Qed.

(** Every diagnostic of [analyze] is ["Division by zero"] or
    ["Undefined variable 'x'"] for an identifier [x] that some expression of
    the program mentions and that the analyzer did not hold when the call
    began: a name defined before the call is never reported. *)
Theorem analyze_diagnostics (p : Program) (a : SemanticAnalyzer.t) (m : string) :
  m ∈ (SemanticAnalyzer.analyze p a).1 ->
  m = "Division by zero"
  \/ exists x,
       m = SemanticAnalyzer.undefined_variable x
       /\ SymbolTable.lookup x (SemanticAnalyzer.symbol_table a) = false
       /\ existsb (statement_has (mentions x)) (statements p) = true.
Proof.
  unfold SemanticAnalyzer.analyze, SemanticAnalyzer.visit_program. simpl.
  intros Hm%visit_all_sound.
  - destruct Hm as [Hm|Hm]; [by apply elem_of_nil in Hm|done].
  - apply Forall_forall. intros s _ a'. apply visit_statement_sound.
Qed.

Lemma analyze_diagnostics_witness :
  "Undefined variable 'x'"
    ∈ (SemanticAnalyzer.analyze self_reference_program SemanticAnalyzer.init).1
  /\ ("Undefined variable 'x'" = "Division by zero"
      \/ exists x,
           "Undefined variable 'x'" = SemanticAnalyzer.undefined_variable x
           /\ SymbolTable.lookup x (SemanticAnalyzer.symbol_table SemanticAnalyzer.init)
              = false
           /\ existsb (statement_has (mentions x)) (statements self_reference_program)
              = true).
Proof.
  assert (H : "Undefined variable 'x'"
                ∈ (SemanticAnalyzer.analyze self_reference_program SemanticAnalyzer.init).1)
    by (vm_compute; apply list_elem_of_here).
  split; [exact H|].
  exact (analyze_diagnostics self_reference_program SemanticAnalyzer.init _ H).
Defined.

(** ** Temporaries and labels of the intermediate code *)

Section LoweringFacts.
Import IntermediateCodeGenerator.

Lemma labels_of_app l1 l2 : labels_of (l1 ++ l2) = labels_of l1 ++ labels_of l2.
Proof. apply omap_app. Qed.

Lemma targets_of_app l1 l2 : targets_of (l1 ++ l2) = targets_of l1 ++ targets_of l2.
Proof. apply omap_app. Qed.

(** The instructions of an expression define the next temporaries, in
    order. *)
Lemma visit_expression_temporaries e g :
  exists l,
    code (visit_expression e g).2 = code g ++ l
    /\ result <$> l
       = (fun k => Some (temp_name k)) <$> seq (S (temp_counter g)) (expression_operators e)
    /\ temp_counter (visit_expression e g).2 = temp_counter g + expression_operators e
    /\ label_counter (visit_expression e g).2 = label_counter g
    /\ (has_operator control_operations e = false ->
        labels_of l = [] /\ targets_of l = []).
Proof.
  revert g. induction e as [| | |lhs IHl op rhs IHr|op operand IH]; intros g;
    cbn [visit_expression expression_operators has_operator];
    try (exists []; rewrite app_nil_r, Nat.add_0_r; by split_and!).
  - destruct (IHl g) as (l1 & H1 & R1 & T1 & L1 & C1).
    destruct (visit_expression lhs g) as [l g1].
    destruct (IHr g1) as (l2 & H2 & R2 & T2 & L2 & C2).
    destruct (visit_expression rhs g1) as [r g2].
    cbn [fst snd new_temp emit code temp_counter label_counter] in *.
    exists (l1 ++ l2 ++ [TAC op (Some l) (Some r) (Some (temp_name (S (temp_counter g2))))]).
    split_and!.
    + rewrite H2, H1. by rewrite <- !app_assoc.
    + replace (S (expression_operators lhs + expression_operators rhs))
        with (expression_operators lhs + (expression_operators rhs + 1)) by lia.
      rewrite !seq_app, !fmap_app, R1, R2, T1, T2. simpl.
      do 5 f_equal; try lia.
    + lia.
    + congruence.
    + intros [[Hop Hl]%orb_false_elim Hr]%orb_false_elim.
      destruct (C1 Hl) as [La Ta], (C2 Hr) as [Lb Tb].
      rewrite !labels_of_app, !targets_of_app, La, Ta, Lb, Tb. simpl.
      apply bool_decide_eq_false in Hop. unfold control_operations in Hop.
      unfold labels_of, targets_of. simpl.
      repeat case_decide; set_solver.
  - destruct (IH g) as (l1 & H1 & R1 & T1 & L1 & C1).
    destruct (visit_expression operand g) as [o g1].
    cbn [fst snd new_temp emit code temp_counter label_counter] in *.
    exists (l1 ++ [TAC op (Some o) None (Some (temp_name (S (temp_counter g1))))]).
    split_and!.
    + rewrite H1. by rewrite <- !app_assoc.
    + replace (S (expression_operators operand))
        with (expression_operators operand + 1) by lia.
      rewrite !seq_app, !fmap_app, R1, T1. simpl.
      do 4 f_equal; try lia.
    + lia.
    + congruence.
    + intros [Hop Hl]%orb_false_elim.
      destruct (C1 Hl) as [La Ta].
      rewrite !labels_of_app, !targets_of_app, La, Ta. simpl.
      apply bool_decide_eq_false in Hop. unfold control_operations in Hop.
      unfold labels_of, targets_of. simpl.
      repeat case_decide; set_solver.
Qed.

Lemma labels_free_closed n l :
  labels_of l = [] -> targets_of l = [] -> labels_closed n n l.
Proof.
  intros Hl Ht. exists []. rewrite Hl, Ht. split_and!; [done|constructor|constructor|].
  by intros target ?%elem_of_nil.
Qed.

Lemma labels_closed_app n m k l1 l2 :
  n <= m -> m <= k ->
  labels_closed n m l1 -> labels_closed m k l2 -> labels_closed n k (l1 ++ l2).
Proof.
  intros Hnm Hmk (ns1 & L1 & D1 & R1 & T1) (ns2 & L2 & D2 & R2 & T2).
  exists (ns1 ++ ns2). rewrite labels_of_app, targets_of_app, fmap_app.
  rewrite Forall_forall in R1, R2. split_and!; [by rewrite L1, L2| | |].
  - apply NoDup_app. split_and!; [done| |done].
    intros x H1%R1 H2%R2. lia.
  - apply Forall_app. split; apply Forall_forall; intros x Hx;
      [apply R1 in Hx|apply R2 in Hx]; lia.
  - intros target [H|H]%elem_of_app; apply elem_of_app; auto.
Qed.

Lemma visit_all_labels l g :
  Forall (fun s => forall g,
            statement_has (has_operator control_operations) s = false ->
            exists l, code (visit_statement s g) = code g ++ l
                      /\ label_counter g <= label_counter (visit_statement s g)
                      /\ labels_closed (label_counter g)
                           (label_counter (visit_statement s g)) l) l ->
  existsb (statement_has (has_operator control_operations)) l = false ->
  exists l', code (visit_all visit_statement l g) = code g ++ l'
             /\ label_counter g <= label_counter (visit_all visit_statement l g)
             /\ labels_closed (label_counter g)
                  (label_counter (visit_all visit_statement l g)) l'.
Proof.
  intros H. revert g. induction H as [|s l Hs _ IH]; intros g; simpl.
  - intros _. exists []. rewrite app_nil_r. split_and!; [done..|].
    by apply labels_free_closed.
  - intros [H1 H2]%orb_false_elim.
    destruct (Hs g H1) as (l1 & C1 & N1 & L1).
    destruct (IH (visit_statement s g) H2) as (l2 & C2 & N2 & L2).
    exists (l1 ++ l2). split_and!.
    + rewrite C2, C1. by rewrite <- app_assoc.
    + lia.
    + by eapply labels_closed_app.
Qed.

Lemma labels_closed_perm n n' l l' :
  l ≡ₚ l' -> labels_closed n n' l -> labels_closed n n' l'.
Proof.
  intros Hp (ns & L & D & R & T). exists ns.
  assert (Hl : labels_of l ≡ₚ labels_of l') by (unfold labels_of; by rewrite Hp).
  assert (Ht : targets_of l ≡ₚ targets_of l') by (unfold targets_of; by rewrite Hp).
  split_and!; [by rewrite <- Hl|done..|].
  intros target. rewrite <- Hl, <- Ht. apply T.
Qed.

(** The labels of a piece of code that puts new labels, and jumps to
    them, around a closed body. *)
Lemma labels_closed_around n n' (pre post body : list ThreeAddressCode) news :
  S (S n) <= n' ->
  labels_closed (S (S n)) n' body ->
  labels_of pre ++ labels_of post ≡ₚ (fun k => Some (label_name k)) <$> news ->
  NoDup news -> Forall (fun k => n < k <= S (S n)) news ->
  (forall target, target ∈ targets_of pre ++ targets_of post ->
                  target ∈ (fun k => Some (label_name k)) <$> news) ->
  labels_closed n n' (pre ++ body ++ post).
Proof.
  intros Hn (ns & L & D & R & T) Hnews Hd Hr Ht.
  rewrite Forall_forall in R, Hr.
  exists (news ++ ns). split_and!.
  - rewrite !labels_of_app, L, fmap_app.
    rewrite <- Hnews, <- app_assoc. f_equiv. apply Permutation_app_comm.
  - apply NoDup_app. split_and!; [done| |done]. intros x H1%Hr H2%R. lia.
  - apply Forall_app. split; apply Forall_forall; intros x Hx;
      [apply Hr in Hx|apply R in Hx]; lia.
  - assert (Hin : forall x, x ∈ labels_of pre ++ labels_of post ->
                            x ∈ labels_of (pre ++ body ++ post)).
    { intros x. rewrite !labels_of_app, !elem_of_app. tauto. }
    intros target. rewrite !targets_of_app, !elem_of_app.
    intros [H|[H|H]].
    + apply Hin. rewrite Hnews. apply Ht, elem_of_app. auto.
    + rewrite !labels_of_app, !elem_of_app. auto.
    + apply Hin. rewrite Hnews. apply Ht, elem_of_app. auto.
Qed.

Lemma visit_statement_labels s g :
  statement_has (has_operator control_operations) s = false ->
  exists l, code (visit_statement s g) = code g ++ l
            /\ label_counter g <= label_counter (visit_statement s g)
            /\ labels_closed (label_counter g) (label_counter (visit_statement s g)) l.
Proof.
  revert g. induction s as [target operator value|expression|target
                            |condition body IH|condition tb eb IHt IHe]
    using Statement_induction; intros g; cbn [statement_has].
  - intros Hv. simpl. unfold visit_assignment_statement.
    destruct (visit_expression_temporaries value g) as (l & H & _ & _ & L & C).
    destruct (C Hv) as [Cl Ct].
    destruct (visit_expression value g) as [v g1].
    cbn [fst snd] in *.
    repeat case_decide; cbn [new_temp emit code label_counter]; rewrite ?H, <- ?L;
      eexists; (split_and!; [by rewrite <- ?app_assoc|done|]);
      apply labels_free_closed; rewrite ?labels_of_app, ?targets_of_app, ?Cl, ?Ct; done.
  - intros Hv. simpl. unfold visit_print_statement.
    destruct (visit_expression_temporaries expression g) as (l & H & _ & _ & L & C).
    destruct (C Hv) as [Cl Ct].
    destruct (visit_expression expression g) as [v g1].
    cbn [fst snd emit code label_counter] in *. rewrite H, <- L.
    eexists. split_and!; [by rewrite <- app_assoc|done|].
    apply labels_free_closed; rewrite ?labels_of_app, ?targets_of_app, ?Cl, ?Ct; done.
  - intros _. simpl. eexists. split_and!; [done..|]. by apply labels_free_closed.
  - intros [Hc Hb]%orb_false_elim.
    cbn [visit_statement new_label].
    set (n := label_counter g).
    set (g1 := emit "LABEL" _ _ _ _).
    destruct (visit_expression_temporaries condition g1) as (lc & H1 & _ & _ & L1 & C1).
    destruct (C1 Hc) as [Cl Ct].
    destruct (visit_expression condition g1) as [c g2]. cbn [fst snd] in *.
    set (g3 := emit "IF_FALSE" _ _ _ _).
    destruct (visit_all_labels body g3 IH Hb) as (lb & H2 & N2 & L2).
    assert (Hn3 : label_counter g3 = S (S n)) by (subst g3 g1; simpl; by rewrite L1).
    rewrite Hn3 in N2, L2.
    cbn [emit code label_counter].
    exists (([TAC "LABEL" (Some (label_name (S n))) None None] ++ lc
             ++ [TAC "IF_FALSE" (Some c) (Some (label_name (S (S n)))) None])
            ++ lb
            ++ [TAC "GOTO" (Some (label_name (S n))) None None;
                TAC "LABEL" (Some (label_name (S (S n)))) None None]).
    split_and!.
    + rewrite H2. subst g3. rewrite emit_code, H1. subst g1. rewrite emit_code.
      simpl. by rewrite <- !app_assoc.
    + lia.
    + apply (labels_closed_around _ _ _ _ _ [S n; S (S n)]); [done|done| | | |].
      * rewrite !labels_of_app, Cl. reflexivity.
      * repeat constructor; set_solver by lia.
      * repeat constructor; lia.
      * intros target. rewrite !targets_of_app, Ct. vm_compute targets_of.
        set_solver.
  - intros [[Hc Ht]%orb_false_elim He]%orb_false_elim.
    assert (exists lc lt c gt,
              visit_all visit_statement tb
                (emit "IF_FALSE" (Some (visit_expression condition
                   (mk (code g) (temp_counter g) (S (S (label_counter g))))).1)
                   (Some (label_name (S (label_counter g)))) None
                   (visit_expression condition
                      (mk (code g) (temp_counter g) (S (S (label_counter g))))).2) = gt
              /\ c = (visit_expression condition
                        (mk (code g) (temp_counter g) (S (S (label_counter g))))).1
              /\ code gt = code g ++ lc
                           ++ [TAC "IF_FALSE" (Some c) (Some (label_name (S (label_counter g)))) None] ++ lt
              /\ labels_of lc = [] /\ targets_of lc = []
              /\ S (S (label_counter g)) <= label_counter gt
              /\ labels_closed (S (S (label_counter g))) (label_counter gt) lt)
      as (lc & lt & c & gt & Hgt & Hcv & Hcode & Cl & Ct & Nt & Lt).
    { set (g0 := mk _ _ _).
      destruct (visit_expression_temporaries condition g0) as (lc & H1 & _ & _ & L1 & C1).
      destruct (C1 Hc) as [Cl Ct].
      destruct (visit_expression condition g0) as [c g2]. cbn [fst snd] in *.
      set (g3 := emit "IF_FALSE" _ _ _ _).
      destruct (visit_all_labels tb g3 IHt Ht) as (lt & H2 & N2 & L2).
      assert (Hn3 : label_counter g3 = S (S (label_counter g)))
        by (subst g3 g0; simpl; by rewrite L1).
      rewrite Hn3 in N2, L2.
      exists lc, lt, c, (visit_all visit_statement tb g3).
      split_and!; [done|done| |done..].
      rewrite H2. subst g3. rewrite emit_code, H1. subst g0. simpl.
      by rewrite <- !app_assoc. }
    simpl in Hgt, Hcv.
    destruct eb as [[|s l]|]; cbn [visit_statement new_label];
      destruct (visit_expression condition _) as [c' g2] eqn:Ev;
      cbn [fst snd] in Hgt, Hcv; subst c';
      match goal with
      | |- context [visit_all visit_statement tb ?g3] =>
          replace (visit_all visit_statement tb g3) with gt by (symmetry; exact Hgt)
      end.
    + cbn [emit code label_counter]. rewrite Hcode.
      exists ((lc ++ [TAC "IF_FALSE" (Some c) (Some (label_name (S (label_counter g)))) None])
              ++ lt ++ [TAC "LABEL" (Some (label_name (S (label_counter g)))) None None]).
      split_and!; [by rewrite <- !app_assoc|lia|].
      apply (labels_closed_around _ _ _ _ _ [S (label_counter g)]); [done|done| | | |].
      * rewrite !labels_of_app, Cl. reflexivity.
      * repeat constructor; set_solver.
      * repeat constructor; lia.
      * intros target. rewrite !targets_of_app, Ct. vm_compute targets_of. set_solver.
    + set (g5 := emit "LABEL" _ _ _ (emit "GOTO" _ _ _ _)).
      simpl in He.
      destruct (visit_all_labels (s :: l) g5 (IHe _ eq_refl) He) as (le & H3 & N3 & L3).
      assert (Hn5 : label_counter g5 = label_counter gt) by done.
      rewrite Hn5 in N3, L3.
      cbn [emit code label_counter]. rewrite H3. subst g5. rewrite !emit_code, Hcode.
      set (n := label_counter g) in *.
      exists ((lc ++ [TAC "IF_FALSE" (Some c) (Some (label_name (S n))) None])
              ++ (lt ++ [TAC "GOTO" (Some (label_name (S (S n)))) None None;
                         TAC "LABEL" (Some (label_name (S n))) None None] ++ le)
              ++ [TAC "LABEL" (Some (label_name (S (S n)))) None None]).
      split_and!; [by rewrite <- !app_assoc|lia|].
      apply (labels_closed_perm _ _
               ((lc ++ [TAC "IF_FALSE" (Some c) (Some (label_name (S n))) None;
                        TAC "GOTO" (Some (label_name (S (S n)))) None None;
                        TAC "LABEL" (Some (label_name (S n))) None None])
                ++ (lt ++ le)
                ++ [TAC "LABEL" (Some (label_name (S (S n)))) None None])).
      { rewrite <- !app_assoc. do 1 f_equiv. simpl.
        f_equiv. rewrite !Permutation_middle. rewrite (app_assoc lt).
        rewrite (Permutation_app_comm lt). rewrite <- !app_assoc. simpl. 
        rewrite <- !Permutation_middle. done. }
      apply (labels_closed_around _ _ _ _ _ [S n; S (S n)]); [lia| | | | |].
      * by eapply labels_closed_app.
      * rewrite !labels_of_app, Cl. reflexivity.
      * repeat constructor; set_solver by lia.
      * repeat constructor; lia.
      * intros target. rewrite !targets_of_app, Ct. vm_compute targets_of. set_solver.
    + cbn [emit code label_counter]. rewrite Hcode.
      exists ((lc ++ [TAC "IF_FALSE" (Some c) (Some (label_name (S (label_counter g)))) None])
              ++ lt ++ [TAC "LABEL" (Some (label_name (S (label_counter g)))) None None]).
      split_and!; [by rewrite <- !app_assoc|lia|].
      apply (labels_closed_around _ _ _ _ _ [S (label_counter g)]); [done|done| | | |].
      * rewrite !labels_of_app, Cl. reflexivity.
      * repeat constructor; set_solver.
      * repeat constructor; lia.
      * intros target. rewrite !targets_of_app, Ct. vm_compute targets_of. set_solver.
Qed.

End LoweringFacts.

(** The instructions an expression is lowered to are appended to the code;
    there is one for every operator of the expression, and they define the
    next temporaries of the counter, in order, each once.  The operand that
    stands for an operation is the last of these temporaries. *)
Theorem expression_temporaries (e : Expression) (g : IntermediateCodeGenerator.t) :
  let r := IntermediateCodeGenerator.visit_expression e g in
  let n := IntermediateCodeGenerator.temp_counter g in
  IntermediateCodeGenerator.code r.2
  = IntermediateCodeGenerator.code g ++ emitted g r.2
  /\ result <$> emitted g r.2
     = (fun k => Some (temp_name k)) <$> seq (S n) (expression_operators e)
  /\ NoDup (result <$> emitted g r.2)
  /\ IntermediateCodeGenerator.temp_counter r.2 = n + expression_operators e
  /\ match e with
     | BinaryOperation _ _ _ | UnaryOperation _ _ =>
         r.1 = temp_name (n + expression_operators e)
     | _ => True
     end.
Proof.
  intros r n. subst r n.
  destruct (visit_expression_temporaries e g) as (l & H & R & T & _ & _).
  rewrite (emitted_spec _ _ _ H). split_and!; [done..| |done|].
  - rewrite R. apply NoDup_fmap_2; [|apply NoDup_seq].
    intros a b [= Hab]. by apply str_nat_inj.
  - destruct e as [| | |lhs op rhs|op operand]; try done.
    + rewrite <- T. simpl. by repeat case_match.
    + rewrite <- T. simpl. by repeat case_match.
Qed.

(** In the code [generate] returns for a program whose operators are none
    of LABEL, GOTO and IF_FALSE, no label is defined twice, and every GOTO
    and every IF_FALSE jumps to a label that the code defines. *)
Theorem generated_labels (p : Program) (g : IntermediateCodeGenerator.t) :
  existsb (statement_has (has_operator control_operations)) (statements p) = false ->
  NoDup (labels_of (IntermediateCodeGenerator.generate p g).1)
  /\ forall target,
       target ∈ targets_of (IntermediateCodeGenerator.generate p g).1 ->
       target ∈ labels_of (IntermediateCodeGenerator.generate p g).1.
Proof.
  intros Hp. unfold IntermediateCodeGenerator.generate,
    IntermediateCodeGenerator.visit_program. cbn [fst].
  destruct (visit_all_labels (statements p) (IntermediateCodeGenerator.mk [] 0 0))
    as (l & -> & _ & ns & L & D & _ & T); [|done|].
  { apply Forall_forall. intros s _ g'. apply visit_statement_labels. }
  simpl. split; [|done].
  rewrite L. apply NoDup_fmap_2; [|done].
  intros a b [= Hab]. by apply str_nat_inj.
Qed.

Lemma generated_labels_witness :
  existsb (statement_has (has_operator control_operations)) (statements nested_program)
  = false
  /\ labels_of (IntermediateCodeGenerator.generate nested_program
                  IntermediateCodeGenerator.init).1
     = [Some "L1"; Some "L3"; Some "L4"; Some "L5"; Some "L2"]
  /\ NoDup (labels_of (IntermediateCodeGenerator.generate nested_program
                         IntermediateCodeGenerator.init).1)
  /\ forall target,
       target ∈ targets_of (IntermediateCodeGenerator.generate nested_program
                              IntermediateCodeGenerator.init).1 ->
       target ∈ labels_of (IntermediateCodeGenerator.generate nested_program
                             IntermediateCodeGenerator.init).1.
Proof.
  split_and!; [reflexivity|vm_compute; reflexivity|..];
    apply (generated_labels nested_program IntermediateCodeGenerator.init eq_refl).
Defined.

(** ** The rewrite primitives of the optimizer *)

Section Primitives.
Import RLOptimizer.

Lemma insert_in_place code position instr instr' :
  code !! position = Some instr -> result instr' = result instr ->
  in_place code (<[position := instr']> code) position.
Proof.
  intros Hl Hr. split_and!.
  - apply length_insert.
  - intros i Hi. by apply list_lookup_insert_ne.
  - apply list_eq. intros i. rewrite !list_lookup_fmap.
    destruct (decide (i = position)) as [->|Hne].
    + rewrite list_lookup_insert_eq by eauto using lookup_lt_Some.
      rewrite Hl. simpl. by rewrite Hr.
    + by rewrite list_lookup_insert_ne.
Qed.

Lemma in_place_refl code position : in_place code code position.
Proof. by split_and!. Qed.

Lemma folded_result instr instr' : folded instr = Some instr' -> result instr' = result instr.
Proof.
  unfold folded. case_match; [|done].
  intros Hf. repeat (apply bind_Some in Hf as (? & _ & Hf)).
  by simplify_eq.
Qed.

Lemma strength_reduction_cases code position :
  apply_strength_reduction code position = code
  \/ exists instr x,
       code !! position = Some instr
       /\ apply_strength_reduction code position
          = <[position := TAC "+" x x (result instr)]> code.
Proof.
  unfold apply_strength_reduction.
  destruct (code !! position) as [instr|] eqn:E; [|by left].
  repeat case_match; eauto.
Qed.

End Primitives.

(** Constant folding, common-subexpression elimination and strength
    reduction rewrite in place: each returns a sequence of the same length
    that differs from [code] at [position] at most, and in which every
    instruction defines the result it defined in [code]. *)
Theorem rewrites_in_place (code : list ThreeAddressCode) (position : nat) :
  in_place code (RLOptimizer.apply_constant_folding code position) position
  /\ in_place code (RLOptimizer.apply_common_subexpression_elimination code position) position
  /\ in_place code (RLOptimizer.apply_strength_reduction code position) position.
Proof.
  split_and!.
  - unfold RLOptimizer.apply_constant_folding.
    destruct (code !! position) as [instr|] eqn:E; [|apply in_place_refl].
    destruct (RLOptimizer.folded instr) as [instr'|] eqn:F; [|apply in_place_refl].
    eapply insert_in_place; [done|]. by eapply folded_result.
  - unfold RLOptimizer.apply_common_subexpression_elimination.
    destruct (code !! position) as [current|] eqn:E; [|apply in_place_refl].
    destruct (find _ _) as [i|]; [|apply in_place_refl].
    destruct (code !! i) as [prev|]; [|apply in_place_refl].
    by eapply insert_in_place.
  - unfold RLOptimizer.apply_strength_reduction.
    destruct (code !! position) as [instr|] eqn:E; [|apply in_place_refl].
    repeat case_match; try apply in_place_refl; by eapply insert_in_place.
Qed.

(** Strength reduction is idempotent, and it brings in no multiplication:
    a [*] of its result stood in [code] at the same place. *)
Theorem strength_reduction_idempotent (code : list ThreeAddressCode) (position : nat) :
  RLOptimizer.apply_strength_reduction
    (RLOptimizer.apply_strength_reduction code position) position
  = RLOptimizer.apply_strength_reduction code position
  /\ forall i instr,
       RLOptimizer.apply_strength_reduction code position !! i = Some instr ->
       operation instr = "*" -> code !! i = Some instr.
Proof.
  destruct (strength_reduction_cases code position) as [H|(instr & x & E & H)];
    rewrite !H.
  - done.
  - split.
    + unfold RLOptimizer.apply_strength_reduction.
      rewrite list_lookup_insert_eq by eauto using lookup_lt_Some. done.
    + intros i instr'. destruct (decide (i = position)) as [->|Hne].
      * rewrite list_lookup_insert_eq by eauto using lookup_lt_Some.
        by intros [= <-].
      * by rewrite list_lookup_insert_ne.
Qed.

(** When common-subexpression elimination changes the code, it puts a copy
    of the result of an earlier instruction in the place of the instruction
    at [position]: the two have the same operation and operands, and no
    instruction between them defines the result that is copied. *)
Theorem common_subexpression_reuse (code : list ThreeAddressCode) (position : nat) :
  RLOptimizer.apply_common_subexpression_elimination code position = code
  \/ exists i prev current,
       i < position /\ code !! i = Some prev /\ code !! position = Some current
       /\ operation prev = operation current
       /\ arg1 prev = arg1 current /\ arg2 prev = arg2 current
       /\ PyStr.truthy (result prev) = true
       /\ (forall j c, i < j < position -> code !! j = Some c -> result c <> result prev)
       /\ RLOptimizer.apply_common_subexpression_elimination code position
          = <[position := TAC "ASSIGN" (result prev) None (result current)]> code.
Proof.
  unfold RLOptimizer.apply_common_subexpression_elimination.
  destruct (code !! position) as [current|] eqn:E; [|by left].
  destruct (find _ _) as [i|] eqn:F; [|by left].
  apply find_some in F as [Hi Hr]. apply in_seq in Hi.
  destruct (code !! i) as [prev|] eqn:Ei; [|done].
  right. exists i, prev, current.
  repeat (apply andb_prop in Hr as [Hr ?]).
  repeat match goal with H : bool_decide _ = true |- _ => apply bool_decide_eq_true in H end.
  split_and!; try done; [lia|].
  intros j c Hj Hc Heq.
  match goal with H : negb (existsb _ _) = true |- _ =>
    apply negb_true_iff in H; rewrite <- not_true_iff_false in H; apply H end.
  apply existsb_exists. exists c. split; [|by apply bool_decide_eq_true].
  apply list_elem_of_In, (list_elem_of_lookup_2 _ (j - S i)).
  rewrite lookup_take_lt by lia. rewrite lookup_drop. rewrite <- Hc. f_equal. lia.
Qed.

Lemma loop_invariant_motion_permutes_lemma code code' position loop_idx loops :
  RLOptimizer.apply_loop_invariant_motion code position loop_idx loops = Ok code' ->
  code' ≡ₚ code.
Proof.
  unfold RLOptimizer.apply_loop_invariant_motion.
  destruct (code !! position) as [instr|] eqn:E; [|by intros [= <-]].
  destruct (loops !! loop_idx); [|by intros [= <-]].
  destruct (RLOptimizer.outermost _ _ _) as [current| |]; simpl; [|done..].
  destruct (loops !! current) as [outermost_loop|]; [|done].
  intros [= <-]. unfold RLOptimizer.insert_at.
  rewrite <- Permutation_middle, take_drop.
  symmetry. by apply delete_Permutation.
Qed.

(** Loop-invariant motion moves one instruction: what it returns is a
    permutation of [code]. *)
Theorem loop_invariant_motion_permutes
    (code code' : list ThreeAddressCode) (position loop_idx : nat)
    (loops : list RLOptimizer.Loop) :
  RLOptimizer.apply_loop_invariant_motion code position loop_idx loops = Ok code' ->
  code' ≡ₚ code.
Proof. apply loop_invariant_motion_permutes_lemma. Qed.

(** After [analyze_code(code)], [is_variable_used_later] answers for
    [code]: it is true exactly when an instruction behind [position] has the
    variable as an operand, the variable being a name that is not empty and
    does not read as a literal. *)
Theorem used_later_after_analysis
    (code : list ThreeAddressCode) (o : RLOptimizer.t) (position : nat) (v : string) :
  RLOptimizer.is_variable_used_later (RLOptimizer.analyze_code code o) code position v = true
  <-> exists j instr,
        position < j /\ code !! j = Some instr /\ recorded_use v instr = true.
Proof.
  rewrite is_variable_used_later_spec. split.
  - intros (j & Hj & (instr & ? & ?)%site_of_analyze_code). eauto.
  - intros (j & instr & Hj & ? & ?). exists j. split; [done|].
    apply site_of_analyze_code. eauto.
Qed.

Lemma loop_invariant_motion_permutes_witness :
  RLOptimizer.apply_loop_invariant_motion loop_code 3 0 (RLOptimizer.find_loops loop_code)
  = Ok (TAC "ASSIGN" (Some "5.0") None (Some "a") :: delete 3 loop_code)
  /\ TAC "ASSIGN" (Some "5.0") None (Some "a") :: delete 3 loop_code ≡ₚ loop_code.
Proof.
  assert (H : RLOptimizer.apply_loop_invariant_motion loop_code 3 0
                (RLOptimizer.find_loops loop_code)
              = Ok (TAC "ASSIGN" (Some "5.0") None (Some "a") :: delete 3 loop_code))
    by (vm_compute; reflexivity).
  split; [exact H|].
  exact (loop_invariant_motion_permutes _ _ _ _ _ H).
Defined.

Section Loops.
Import RLOptimizer.

Lemma foldl_invariant {A B} (P : A -> Prop) (f : A -> B -> A) (l : list B) (a : A) :
  P a -> (forall a x, x ∈ l -> P a -> P (f a x)) -> P (foldl f a l).
Proof.
  revert a. induction l as [|x l IH]; intros a Ha Hf; simpl; [done|].
  apply IH; [apply Hf; [left|done]|]. intros a' y Hy. apply Hf. by right.
Qed.

Lemma elem_of_enumerate {A} (l : list A) i x : (i, x) ∈ enumerate l <-> l !! i = Some x.
Proof.
  unfold enumerate. rewrite list_elem_of_lookup. split.
  - intros (k & Hk). rewrite list_lookup_imap in Hk.
    destruct (l !! k) eqn:E; simpl in Hk; by simplify_eq.
  - intros H. exists i. by rewrite list_lookup_imap, H.
Qed.

Lemma find_labels_spec code name i :
  find_labels code !! name = Some i ->
  exists instr, code !! i = Some instr /\ operation instr = "LABEL" /\ arg1 instr = name.
Proof.
  unfold find_labels. revert name i.
  apply (foldl_invariant
           (fun labels => forall name i, labels !! name = Some i ->
              exists instr, code !! i = Some instr /\ operation instr = "LABEL"
                            /\ arg1 instr = name)).
  - intros name i. by rewrite lookup_empty.
  - intros labels [k instr] Hk%elem_of_enumerate IH name i.
    case_decide as Hop; [|apply IH].
    destruct (decide (arg1 instr = name)) as [<-|Hne].
    + rewrite lookup_insert_eq. intros [= <-]. eauto.
    + rewrite lookup_insert_ne by done. apply IH.
Qed.

Lemma back_edge_span code i instr l :
  code !! i = Some instr ->
  back_edge code (find_labels code) i instr = Some l ->
  loop_span code l /\ parent l = None /\ invariant_candidates l = [].
Proof.
  intros Hi. unfold back_edge. case_decide as Hop; [|done].
  destruct (find_labels code !! arg1 instr) as [target|] eqn:Ht; simpl; [|done].
  destruct (Nat.ltb_spec target i); [|done].
  destruct (find _ _) as [condition_pos|] eqn:Hf; simpl; [|done].
  intros [= <-]. simpl.
  apply find_labels_spec in Ht as (li & Hli & Hlop & Hlarg).
  pose proof Hf as Hfirst.
  apply find_some in Hf as [Hin Hc]. apply in_seq in Hin.
  unfold is_operation in Hc. destruct (code !! condition_pos) as [ci|] eqn:Eci; [|done].
  apply bool_decide_eq_true in Hc.
  assert (target <> condition_pos) by (intros <-; congruence).
  split_and!; [|done..]. unfold loop_span. simpl.
  split_and!; [lia|lia|eauto..|].
  intros j cj Hj Hcj Hjop.
  assert (Hnone : is_operation "IF_FALSE" code j = false).
  { clear -Hfirst Hj Hin. revert Hfirst Hj Hin.
    generalize (i - target). intros n. revert target.
    induction n as [|n IH]; intros target; simpl; [done|].
    destruct (is_operation "IF_FALSE" code target) eqn:E.
    - intros [= <-]. lia.
    - intros Hfirst Hj Hin. destruct (decide (j = target)) as [->|]; [done|].
      apply (IH (S target)); [done|lia|lia]. }
  unfold is_operation in Hnone. rewrite Hcj in Hnone.
  by apply bool_decide_eq_false in Hnone.
Qed.

Lemma elem_of_insert_by_start x l sorted :
  x ∈ insert_by_start l sorted <-> x = l \/ x ∈ sorted.
Proof.
  induction sorted as [|l' rest IH]; simpl; [set_solver|].
  case_match; [set_solver|]. rewrite !elem_of_cons, IH. tauto.
Qed.

Lemma elem_of_sort_by_start x loops : x ∈ sort_by_start loops <-> x ∈ loops.
Proof.
  unfold sort_by_start.
  assert (H : forall acc, x ∈ foldl (fun sorted l => insert_by_start l sorted) acc loops
                          <-> x ∈ acc \/ x ∈ loops).
  { induction loops as [|l loops IH]; intros acc; simpl; [set_solver|].
    rewrite IH, elem_of_insert_by_start, elem_of_cons. tauto. }
  rewrite H. set_solver.
Qed.

Lemma insert_by_start_sorted l sorted :
  starts_sorted sorted -> starts_sorted (insert_by_start l sorted).
Proof.
  induction sorted as [|l' rest IH]; simpl; [by repeat constructor|].
  intros [Hall Hs].
  destruct (Nat.ltb_spec (start l) (start l')); simpl.
  - split_and!; [|done..]. constructor; [lia|].
    eapply Forall_impl; [exact Hall|]. simpl. intros. lia.
  - split; [|by apply IH]. apply Forall_forall.
    intros x [->|Hx]%elem_of_insert_by_start; [done|].
    rewrite Forall_forall in Hall. by apply Hall.
Qed.

Lemma sort_by_start_by_start loops : by_start (sort_by_start loops).
Proof.
  assert (Hs : starts_sorted (sort_by_start loops)).
  { unfold sort_by_start. apply foldl_invariant; [done|].
    intros. by apply insert_by_start_sorted. }
  induction (sort_by_start loops) as [|l rest IH]; intros i j li lj Hij Hi Hj; [done|].
  destruct Hs as [Hall Hs].
  destruct i as [|i], j as [|j]; simpl in *; simplify_eq; [done| |lia|].
  - rewrite Forall_forall in Hall. apply Hall. by eapply list_elem_of_lookup_2.
  - eapply IH; [done| |done..]. lia.
Qed.

Lemma by_start_core loops loops' :
  loop_core <$> loops' = loop_core <$> loops -> by_start loops -> by_start loops'.
Proof.
  intros Hc Hs i j li lj Hij Hi Hj.
  assert (Hl : forall k l, loops' !! k = Some l ->
                           exists l0, loops !! k = Some l0 /\ start l0 = start l).
  { intros k l Hk. apply (f_equal (fun x => x !! k)) in Hc.
    rewrite !list_lookup_fmap, Hk in Hc. simpl in Hc.
    destruct (loops !! k) as [l0|]; [|done]. exists l0. split; [done|].
    simpl in Hc. unfold loop_core in Hc. by simplify_eq. }
  destruct (Hl _ _ Hi) as (li0 & Hi0 & <-), (Hl _ _ Hj) as (lj0 & Hj0 & <-).
  by eapply Hs.
Qed.

Lemma insert_core (loops : list Loop) (j : nat) l l' :
  loops !! j = Some l -> loop_core l' = loop_core l ->
  loop_core <$> <[j := l']> loops = loop_core <$> loops.
Proof.
  intros Hj Hc. rewrite list_fmap_insert, Hc.
  apply list_insert_id. by rewrite list_lookup_fmap, Hj.
Qed.

(** One comparison of the nesting pass: it keeps the core of every loop,
    and the parent of the loops up to [i]. *)
Lemma nest_pair_spec i loops j :
  by_start loops ->
  loop_core <$> nest_pair i loops j = loop_core <$> loops
  /\ forall k, k <= i -> parent <$> (nest_pair i loops j !! k) = parent <$> (loops !! k).
Proof.
  intros Hs. unfold nest_pair.
  destruct (loops !! i) as [loop|] eqn:Ei; [|done].
  destruct (loops !! j) as [other_loop|] eqn:Ej; [|done].
  destruct (_ && _) eqn:Hc; [|done].
  apply andb_prop in Hc as [[Hne%negb_true_iff%Nat.eqb_neq Hlt%Nat.ltb_lt]%andb_prop _].
  assert (i < j).
  { destruct (decide (i < j)); [done|]. pose proof (Hs j i _ _ ltac:(lia) Ej Ei). lia. }
  split.
  - rewrite (insert_core _ i loop); [by rewrite (insert_core _ j other_loop)| |done].
    by rewrite list_lookup_insert_ne.
  - intros k Hk. destruct (decide (k = i)) as [->|].
    + rewrite list_lookup_insert_eq
        by (rewrite length_insert; eauto using lookup_lt_Some).
      by rewrite Ei.
    + by rewrite !list_lookup_insert_ne by lia.
Qed.

Lemma nest_pairs_spec i loops js :
  by_start loops ->
  loop_core <$> foldl (nest_pair i) loops js = loop_core <$> loops
  /\ forall k, k <= i ->
       parent <$> (foldl (nest_pair i) loops js !! k) = parent <$> (loops !! k).
Proof.
  intros Hs.
  apply (foldl_invariant
           (fun acc => loop_core <$> acc = loop_core <$> loops
                       /\ forall k, k <= i -> parent <$> (acc !! k) = parent <$> (loops !! k)));
    [done|].
  intros acc j _ [Hc Hp].
  destruct (nest_pair_spec i acc j) as [Hc' Hp']; [by eapply by_start_core|].
  split; [congruence|]. intros k Hk. by rewrite Hp', Hp.
Qed.

(** One round of the nesting pass: the parent of loop [i] is reset, and so
    it stays. *)
Lemma nest_from_spec loops i :
  by_start loops ->
  loop_core <$> nest_from loops i = loop_core <$> loops
  /\ (forall k, k < i -> parent <$> (nest_from loops i !! k) = parent <$> (loops !! k))
  /\ (forall l, nest_from loops i !! i = Some l -> parent l = None).
Proof.
  intros Hs. unfold nest_from.
  destruct (loops !! i) as [loop|] eqn:Ei; [|by split_and!; [..|by rewrite Ei]].
  set (loops' := <[i := set_nesting None [] loop]> loops).
  assert (Hc : loop_core <$> loops' = loop_core <$> loops) by by eapply insert_core.
  destruct (nest_pairs_spec i loops' (seq 0 (length loops))) as [Hc' Hp];
    [by eapply by_start_core|].
  split_and!.
  - congruence.
  - intros k Hk. rewrite Hp by lia. subst loops'. by rewrite list_lookup_insert_ne by lia.
  - intros l Hl. specialize (Hp i (Nat.le_refl _)). rewrite Hl in Hp. subst loops'.
    rewrite list_lookup_insert_eq in Hp by eauto using lookup_lt_Some.
    by simplify_eq.
Qed.

Lemma nesting_spec loops n :
  by_start loops ->
  loop_core <$> foldl nest_from loops (seq 0 n) = loop_core <$> loops
  /\ forall k l, k < n -> foldl nest_from loops (seq 0 n) !! k = Some l -> parent l = None.
Proof.
  intros Hs. induction n as [|n [Hc Hp]]; [by split; [|lia]|].
  rewrite seq_S, foldl_app. simpl.
  destruct (nest_from_spec (foldl nest_from loops (seq 0 n)) n) as (Hc' & Hp' & Hn);
    [by eapply by_start_core|].
  split; [congruence|].
  intros k l Hk Hl. destruct (decide (k = n)) as [->|]; [by apply Hn|].
  specialize (Hp' k ltac:(lia)). rewrite Hl in Hp'.
  destruct (foldl nest_from loops (seq 0 n) !! k) as [l0|] eqn:E; [|done].
  simpl in Hp'. injection Hp' as ->. apply (Hp k l0); [lia|done].
Qed.

(** What [find_loops] returns. *)
Lemma find_loops_spec code l :
  l ∈ find_loops code ->
  loop_span code l /\ parent l = None /\ invariant_candidates l = [].
Proof.
  unfold find_loops. intros (l2 & -> & Hl2)%list_elem_of_fmap.
  set (loops1 := sort_by_start _) in *.
  destruct (nesting_spec loops1 (length loops1) (sort_by_start_by_start _)) as [Hc Hp].
  apply list_elem_of_lookup in Hl2 as [k Hk].
  assert (Hlen : k < length loops1).
  { apply lookup_lt_Some in Hk. apply (f_equal length) in Hc.
    rewrite !length_fmap in Hc. lia. }
  pose proof (Hp k l2 Hlen Hk) as Hparent.
  apply (f_equal (fun x => x !! k)) in Hc. rewrite !list_lookup_fmap, Hk in Hc.
  destruct (loops1 !! k) as [l1|] eqn:E1; [|done]. simpl in Hc.
  assert (Hin : l1 ∈ loops1) by by eapply list_elem_of_lookup_2.
  apply elem_of_sort_by_start, list_elem_of_omap in Hin as ([i instr] & Hi & Hb).
  apply elem_of_enumerate in Hi.
  destruct (back_edge_span code i instr l1 Hi Hb) as (Hspan & _ & Hinv).
  unfold loop_core in Hc. injection Hc as Hs He Hcond Hlabel _ Hcand.
  unfold loop_span, collect_modified. simpl. rewrite Hs, He, Hcond, Hlabel, Hcand.
  done.
Qed.

End Loops.

(** Every loop [find_loops] returns spans a LABEL, an IF_FALSE behind it
    (the first one) and, behind that, a GOTO to the label. *)
Theorem find_loops_spans (code : list ThreeAddressCode) (l : RLOptimizer.Loop) :
  l ∈ RLOptimizer.find_loops code -> loop_span code l.
Proof. by intros (? & _)%find_loops_spec. Qed.

Lemma find_loops_spans_witness :
  exists l, RLOptimizer.find_loops loop_code = [l] /\ loop_span loop_code l.
Proof.
  eexists. split; [vm_compute; reflexivity|].
  apply find_loops_spans. vm_compute. apply list_elem_of_here.
Defined.

(** [find_loops] leaves no loop with a parent: the nesting pass resets the
    parent of every loop after the loops in front of it have set it.
    So the walk to the outermost loop in [apply_loop_invariant_motion] stays
    where it starts, and with the loops of [find_loops] the instruction at
    [position] is moved in front of the start of the loop [loop_idx]
    itself. *)
Theorem loop_invariant_motion_target
    (code : list ThreeAddressCode) (position loop_idx : nat)
    (instr : ThreeAddressCode) (loop : RLOptimizer.Loop) :
  code !! position = Some instr ->
  RLOptimizer.find_loops code !! loop_idx = Some loop ->
  RLOptimizer.parent loop = None
  /\ RLOptimizer.apply_loop_invariant_motion code position loop_idx
       (RLOptimizer.find_loops code)
     = Ok (RLOptimizer.insert_at (RLOptimizer.start loop) instr (delete position code)).
Proof.
  intros Hp Hl.
  assert (Hparent : RLOptimizer.parent loop = None).
  { eapply find_loops_spec, list_elem_of_lookup_2, Hl. }
  split; [done|].
  unfold RLOptimizer.apply_loop_invariant_motion. rewrite Hp, Hl.
  assert (Ho : RLOptimizer.outermost (length (RLOptimizer.find_loops code))
                 (RLOptimizer.find_loops code) loop_idx = Ok loop_idx).
  { destruct (length _); simpl; by rewrite Hl, Hparent. }
  rewrite Ho. simpl. by rewrite Hl.
Qed.

Lemma loop_invariant_motion_target_witness :
  exists loop,
    loop_code !! 3 = Some (TAC "ASSIGN" (Some "5.0") None (Some "a"))
    /\ RLOptimizer.find_loops loop_code !! 0 = Some loop
    /\ RLOptimizer.parent loop = None
    /\ RLOptimizer.apply_loop_invariant_motion loop_code 3 0
         (RLOptimizer.find_loops loop_code)
       = Ok (RLOptimizer.insert_at (RLOptimizer.start loop)
               (TAC "ASSIGN" (Some "5.0") None (Some "a")) (delete 3 loop_code)).
Proof.
  eexists. split; [reflexivity|]. split; [vm_compute; reflexivity|].
  apply loop_invariant_motion_target; [reflexivity|vm_compute; reflexivity].
Defined.

Section Passes.
Import RLOptimizer.

Lemma select_sublist {A} keep (l : list A) : select keep l `sublist_of` l.
Proof.
  revert keep. induction l as [|x l IH]; intros [|[] keep]; simpl;
    try apply sublist_nil_l.
  - by apply sublist_skip.
  - by apply sublist_cons.
Qed.

Lemma loop_invariant_pass_permutes cas loops code log o o' code' log' :
  loop_invariant_pass cas loops code log o = (o', Ok (code', log')) -> code' ≡ₚ code.
Proof.
  revert loops code log o. induction cas as [|ca cas IH]; intros loops code log o;
    cbn [loop_invariant_pass].
  - intros. by simplify_eq.
  - destruct (apply_loop_invariant_motion _ _ _ _) as [new_code| |] eqn:E; [|done..].
    apply loop_invariant_motion_permutes_lemma in E.
    case_decide.
    + apply IH.
    + destruct (find_constant_assignments _ _); [|done..].
      intros Hr%IH. by rewrite Hr.
Qed.

(** The first three passes of [optimize]: what they return is made of
    instructions of [code], each folded or kept. *)
Lemma optimize_passes_submseteq code o o' code' log' :
  optimize_passes code o = (o', Ok (code', log')) ->
  code' ⊆+ (fold_or_keep <$> code).
Proof.
  unfold optimize_passes, early_passes.
  pose proof (constant_folding_pass_code code [] (analyze_code code o)) as Hf.
  destruct (constant_folding_pass code [] (analyze_code code o)) as [[c l] o1].
  simpl in Hf. subst c.
  destruct (find_constant_assignments _ _) as [cas| |]; simpl; [|done..].
  destruct (loop_invariant_pass _ _ _ _ _) as [o2 [[c2 l2]| |]] eqn:E; simpl; [|done..].
  apply loop_invariant_pass_permutes in E.
  intros Hd. unfold dead_code_pass in Hd.
  destruct (dead_code_loop_spec c2 (length c2) [] l2 o2 (Nat.le_refl _))
    as (keep & log1 & o3 & Hd' & _).
  simpl in Hd'. rewrite Hd' in Hd. simplify_eq.
  rewrite <- E. apply sublist_submseteq, select_sublist.
Qed.

Lemma first_some_Some {A B} (f : A -> option B) l b :
  first_some f l = Some b -> exists x, x ∈ l /\ f x = Some b.
Proof.
  induction l as [|x l IH]; simpl; [done|].
  destruct (f x) eqn:E.
  - intros [= <-]. exists x. split; [left|done].
  - intros (y & ? & ?)%IH. exists y. split; [by right|done].
Qed.

Lemma length_insert_at {A} i (x : A) l : length (insert_at i x l) = S (length l).
Proof.
  unfold insert_at. rewrite length_app. simpl.
  rewrite length_take, length_drop. lia.
Qed.

Lemma repair_condition_length code new_code :
  first_repair repair_condition code = Some new_code -> length code <= length new_code.
Proof.
  unfold first_repair. intros ([i instr] & _ & H)%first_some_Some.
  unfold repair_condition in H.
  repeat (case_match; simplify_eq); simpl in *;
    repeat match goal with
           | H : _ ≫= _ = Some _ |- _ => apply bind_Some in H as (? & ? & H)
           end;
    repeat (case_match; simplify_eq); rewrite ?length_insert_at; lia.
Qed.

Lemma repair_increment_length code new_code :
  first_repair repair_increment code = Some new_code -> length code <= length new_code.
Proof.
  unfold first_repair. intros ([i instr] & _ & H)%first_some_Some.
  unfold repair_increment in H.
  repeat (case_match; simplify_eq).
  rewrite length_insert_at, length_insert. lia.
Qed.

Lemma fix_loop_control_flow_spec fuel code code' :
  fix_loop_control_flow fuel code = Ok code' ->
  length code <= length code'
  /\ first_repair repair_condition code' = None
  /\ first_repair repair_increment code' = None.
Proof.
  revert code. induction fuel as [|fuel IH]; intros code; simpl; [done|].
  destruct (first_repair repair_condition code) as [nc|] eqn:E1.
  { intros (? & ? & ?)%IH. apply repair_condition_length in E1.
    split_and!; [lia|done..]. }
  destruct (first_repair repair_increment code) as [nc|] eqn:E2.
  { intros (? & ? & ?)%IH. apply repair_increment_length in E2.
    split_and!; [lia|done..]. }
  intros [= <-]. done.
Qed.

End Passes.

(** The first three passes of [optimize] invent no instruction: what they
    return is made of instructions of [code], each with its constants
    folded or as it was, in some order; it is no longer than [code]. *)
Theorem optimize_passes_instructions
    (code code' : list ThreeAddressCode) (log' : list string) (o o' : RLOptimizer.t) :
  RLOptimizer.optimize_passes code o = (o', Ok (code', log')) ->
  code' ⊆+ (fold_or_keep <$> code) /\ length code' <= length code.
Proof.
  intros H%optimize_passes_submseteq. split; [done|].
  apply submseteq_length in H. by rewrite length_fmap in H.
Qed.

Lemma optimize_passes_instructions_witness :
  exists o' log',
    RLOptimizer.optimize_passes dead_code RLOptimizer.init
    = (o', Ok ([TAC "PRINT" (Some "2.0") None None], log'))
    /\ [TAC "PRINT" (Some "2.0") None None] ⊆+ (fold_or_keep <$> dead_code)
    /\ length [TAC "PRINT" (Some "2.0") None None] <= length dead_code.
Proof.
  eexists _, _. split; [vm_compute; reflexivity|].
  eapply (optimize_passes_instructions dead_code _ _ RLOptimizer.init).
  vm_compute. reflexivity.
Defined.

(** What [fix_loop_control_flow] returns is a fixed point of it, which it
    returns at once, and is no shorter than its argument: the repairs only
    insert. *)
Theorem fix_loop_control_flow_fixed_point
    (fuel : nat) (code code' : list ThreeAddressCode) :
  RLOptimizer.fix_loop_control_flow fuel code = Ok code' ->
  RLOptimizer.fix_loop_control_flow 1 code' = Ok code'
  /\ length code <= length code'.
Proof.
  intros (Hl & H1 & H2)%fix_loop_control_flow_spec. split; [|done].
  simpl. by rewrite H1, H2.
Qed.

Lemma fix_loop_control_flow_fixed_point_witness :
  RLOptimizer.fix_loop_control_flow 2 increment_code
  = Ok [TAC "ASSIGN" (Some "t1") None (Some "i"); TAC "=" (Some "i") None (Some "i")]
  /\ RLOptimizer.fix_loop_control_flow 1
       [TAC "ASSIGN" (Some "t1") None (Some "i"); TAC "=" (Some "i") None (Some "i")]
     = Ok [TAC "ASSIGN" (Some "t1") None (Some "i"); TAC "=" (Some "i") None (Some "i")]
  /\ length increment_code
     <= length [TAC "ASSIGN" (Some "t1") None (Some "i");
                TAC "=" (Some "i") None (Some "i")].
Proof.
  split; [vm_compute; reflexivity|].
  apply (fix_loop_control_flow_fixed_point 2). vm_compute. reflexivity.
Defined.

(** ** The policy *)

Section Policy.
Import RLOptimizer.

Lemma find_loops_no_candidates code position current :
  loop_invariant_action current position (find_loops code) = [].
Proof.
  unfold loop_invariant_action.
  destruct (find _ _) as [[loop_idx loop]|] eqn:F; [|done].
  apply find_some in F as [Hin Hc]. apply bool_decide_eq_true in Hc.
  apply list_elem_of_In, elem_of_enumerate, list_elem_of_lookup_2 in Hin.
  apply find_loops_spec in Hin as (_ & _ & Hcand). rewrite Hcand in Hc.
  by apply elem_of_nil in Hc.
Qed.

(** The action of a kind that [get_possible_actions] proposes. *)
Lemma possible_action_of_kind o code p loops a :
  a ∈ get_possible_actions o code p loops ->
  type a ∈ local_actions ->
  exists current,
    code !! p = Some current /\ position a = p
    /\ (type a = "strength_reduction" ->
        operation current = "*" /\ (is_two (arg1 current) || is_two (arg2 current)) = true)
    /\ (type a = "dead_code_elimination" ->
        (PyStr.truthy (result current)
         && is_variable_used_later o code p (default EmptyString (result current)))
        = false
        /\ operation current <> "PRINT" /\ operation current <> "SCAN").
Proof.
  unfold get_possible_actions, local_actions.
  destruct (code !! p) as [current|] eqn:E; [|by intros ?%elem_of_nil].
  intros Ha Hty. exists current. split; [done|].
  rewrite !elem_of_app in Ha.
  destruct Ha as [Ha|[Ha|[Ha|[Ha|Ha]]]].
  - case_match; [|by apply elem_of_nil in Ha].
    apply list_elem_of_singleton in Ha as ->. by split_and!.
  - case_match eqn:G; [|by apply elem_of_nil in Ha].
    apply list_elem_of_singleton in Ha as ->. split_and!; [done..|].
    intros _. apply andb_prop in G as [[G1 G2%negb_true_iff]%andb_prop G3%negb_true_iff].
    rewrite G1, G2. split; [done|].
    unfold op_in in G3. apply bool_decide_eq_false in G3. set_solver.
  - case_match; [|by apply elem_of_nil in Ha].
    apply list_elem_of_singleton in Ha as ->. by split_and!.
  - case_match eqn:G; [|by apply elem_of_nil in Ha].
    apply list_elem_of_singleton in Ha as ->. split_and!; [done| |done].
    intros _. apply andb_prop in G as [[[G1%bool_decide_eq_true _]%andb_prop _]%andb_prop G4].
    done.
  - unfold loop_invariant_action in Ha. case_match; [|by apply elem_of_nil in Ha].
    case_match. apply list_elem_of_singleton in Ha as ->. simpl in Hty. set_solver.
Qed.

End Policy.

(** [get_possible_actions] proposes every kind of action at most once, in
    a fixed order, and every action at the position asked for; past the
    end of the code it proposes nothing.  With the loops of [find_loops],
    which lists no invariant candidates, it never proposes a
    loop-invariant motion. *)
Theorem possible_actions_kinds
    (o : RLOptimizer.t) (code : list ThreeAddressCode) (position : nat)
    (loops : list RLOptimizer.Loop) :
  Forall (fun a => RLOptimizer.position a = position)
         (RLOptimizer.get_possible_actions o code position loops)
  /\ RLOptimizer.type <$> RLOptimizer.get_possible_actions o code position loops
     `sublist_of` local_actions ++ ["loop_invariant"]
  /\ RLOptimizer.type
       <$> RLOptimizer.get_possible_actions o code position (RLOptimizer.find_loops code)
     `sublist_of` local_actions
  /\ (length code <= position ->
      RLOptimizer.get_possible_actions o code position loops = []).
Proof.
  unfold RLOptimizer.get_possible_actions.
  destruct (code !! position) as [current|] eqn:E.
  2: { split_and!; [constructor|apply sublist_nil_l|apply sublist_nil_l|done]. }
  split_and!.
  - unfold RLOptimizer.loop_invariant_action.
    repeat apply Forall_app_2; repeat case_match; by repeat constructor.
  - unfold RLOptimizer.loop_invariant_action, local_actions.
    repeat case_match; simpl; repeat first [by apply sublist_nil_l
                                           |apply sublist_skip_cons|apply sublist_skip];
      try (by repeat constructor).
  - rewrite find_loops_no_candidates, app_nil_r. unfold local_actions.
    repeat case_match; simpl; by repeat constructor.
  - intros Hlen. apply lookup_lt_Some in E. lia.
Qed.

(** A strength reduction that [get_possible_actions] proposes applies:
    [apply_optimization] puts an addition of one operand to itself in the
    place of the multiplication. *)
Theorem proposed_strength_reduction_applies
    (o : RLOptimizer.t) (code : list ThreeAddressCode) (position : nat)
    (loops : list RLOptimizer.Loop) (a : RLOptimizer.OptimizationAction) :
  a ∈ RLOptimizer.get_possible_actions o code position loops ->
  RLOptimizer.type a = "strength_reduction" ->
  exists instr x,
    code !! position = Some instr /\ operation instr = "*"
    /\ (x = arg1 instr \/ x = arg2 instr)
    /\ RLOptimizer.apply_optimization o code a loops
       = Ok (<[position := TAC "+" x x (result instr)]> code).
Proof.
  intros Ha Hty.
  destruct (possible_action_of_kind _ _ _ _ _ Ha) as (instr & E & Hp & Hsr & _).
  { rewrite Hty. unfold local_actions. set_solver. }
  destruct (Hsr Hty) as [Hop Htwo].
  unfold RLOptimizer.apply_optimization. rewrite Hty, Hp. simpl.
  unfold RLOptimizer.apply_strength_reduction. rewrite E.
  case_decide; [|done].
  destruct (RLOptimizer.is_two (arg2 instr)) eqn:E2.
  - exists instr, (arg1 instr). by split_and!; [..|left|].
  - rewrite orb_false_r in Htwo. rewrite Htwo.
    exists instr, (arg2 instr). by split_and!; [..|right|].
Qed.

Lemma proposed_strength_reduction_applies_witness :
  RLOptimizer.mkAction "strength_reduction" 0 (PyFloat.of_decimal false 5 (-1)) None
    ∈ RLOptimizer.get_possible_actions
        (RLOptimizer.analyze_code doubling_code RLOptimizer.init) doubling_code 0 []
  /\ exists instr x,
       doubling_code !! 0 = Some instr /\ operation instr = "*"
       /\ (x = arg1 instr \/ x = arg2 instr)
       /\ RLOptimizer.apply_optimization
            (RLOptimizer.analyze_code doubling_code RLOptimizer.init) doubling_code
            (RLOptimizer.mkAction "strength_reduction" 0 (PyFloat.of_decimal false 5 (-1))
               None) []
          = Ok (<[0 := TAC "+" x x (result instr)]> doubling_code).
Proof.
  assert (H : RLOptimizer.mkAction "strength_reduction" 0
                (PyFloat.of_decimal false 5 (-1)) None
              ∈ RLOptimizer.get_possible_actions
                  (RLOptimizer.analyze_code doubling_code RLOptimizer.init)
                  doubling_code 0 [])
    by (vm_compute; apply list_elem_of_here).
  split; [exact H|].
  exact (proposed_strength_reduction_applies _ _ _ _ _ H eq_refl).
Defined.

(** A dead-code elimination that [get_possible_actions] proposes deletes
    the instruction when [apply_optimization] applies it, unless the
    instruction is a LABEL, a GOTO or an IF_FALSE: these are proposed when
    they have an unused result, and the primitive refuses them. *)
Theorem proposed_dead_code_elimination_applies
    (o : RLOptimizer.t) (code : list ThreeAddressCode) (position : nat)
    (loops : list RLOptimizer.Loop) (a : RLOptimizer.OptimizationAction) :
  a ∈ RLOptimizer.get_possible_actions o code position loops ->
  RLOptimizer.type a = "dead_code_elimination" ->
  exists instr,
    code !! position = Some instr
    /\ RLOptimizer.apply_optimization o code a loops
       = Ok (if RLOptimizer.op_in (operation instr) ["LABEL"; "GOTO"; "IF_FALSE"]
             then code else delete position code).
Proof.
  intros Ha Hty.
  destruct (possible_action_of_kind _ _ _ _ _ Ha) as (instr & E & Hp & _ & Hdce).
  { rewrite Hty. unfold local_actions. set_solver. }
  destruct (Hdce Hty) as (Hused & Hprint & Hscan).
  exists instr. split; [done|].
  unfold RLOptimizer.apply_optimization. rewrite Hty, Hp. simpl.
  unfold RLOptimizer.apply_dead_code_elimination. rewrite E, Hused.
  unfold RLOptimizer.op_in, RLOptimizer.side_effects.
  do 2 f_equal.
  destruct (bool_decide (operation instr ∈ ["LABEL"; "GOTO"; "IF_FALSE"])) eqn:G.
  - apply bool_decide_eq_true in G. rewrite bool_decide_eq_true_2; [done|set_solver].
  - apply bool_decide_eq_false in G. rewrite bool_decide_eq_false_2; [done|set_solver].
Qed.

Lemma proposed_dead_code_elimination_applies_witness :
  RLOptimizer.mkAction "dead_code_elimination" 0 (PyFloat.of_decimal false 7 (-1)) None
    ∈ RLOptimizer.get_possible_actions
        (RLOptimizer.analyze_code dead_code RLOptimizer.init) dead_code 0 []
  /\ exists instr,
       dead_code !! 0 = Some instr
       /\ RLOptimizer.apply_optimization
            (RLOptimizer.analyze_code dead_code RLOptimizer.init) dead_code
            (RLOptimizer.mkAction "dead_code_elimination" 0
               (PyFloat.of_decimal false 7 (-1)) None) []
          = Ok (if RLOptimizer.op_in (operation instr) ["LABEL"; "GOTO"; "IF_FALSE"]
                then dead_code else delete 0 dead_code).
Proof.
  assert (H : RLOptimizer.mkAction "dead_code_elimination" 0
                (PyFloat.of_decimal false 7 (-1)) None
              ∈ RLOptimizer.get_possible_actions
                  (RLOptimizer.analyze_code dead_code RLOptimizer.init) dead_code 0 [])
    by (vm_compute; apply list_elem_of_here).
  split; [exact H|].
  exact (proposed_dead_code_elimination_applies _ _ _ _ _ H eq_refl).
Defined.

(** ** The Python text *)

Section PythonText.
Import DirectASTToPythonGenerator.

Lemma append_assoc (a b c : string) : (a +:+ b) +:+ c = a +:+ (b +:+ c).
Proof.
  induction a as [|x a IH]; [done|].
  change (String x ((a +:+ b) +:+ c) = String x (a +:+ (b +:+ c))). by rewrite IH.
Qed.

Lemma append_empty_r (a : string) : a +:+ EmptyString = a.
Proof.
  induction a as [|x a IH]; [done|].
  change (String x (a +:+ EmptyString) = String x a). by rewrite IH.
Qed.

Lemma opens_with_refl a : opens_with a a.
Proof. exists EmptyString. by rewrite append_empty_r. Qed.

Lemma opens_with_trans a b c : opens_with a b -> opens_with b c -> opens_with a c.
Proof. intros [r1 ->] [r2 ->]. exists (r1 +:+ r2). apply append_assoc. Qed.

Lemma spaces_S_r n : spaces (S n) = spaces n +:+ "    ".
Proof.
  induction n as [|n IH]; [done|].
  change ("    " +:+ spaces (S n) = ("    " +:+ spaces n) +:+ "    ").
  by rewrite IH, append_assoc.
Qed.

(** A deeper level opens with the indentation of a shallower one. *)
Lemma indent_shift g : opens_with (indent g) (indent (shift 1 g)).
Proof.
  unfold indent, shift. simpl.
  destruct (Z.le_gt_cases 0 (indent_level g)).
  - rewrite Z2Nat.inj_add by lia. rewrite Nat.add_1_r, spaces_S_r. by eexists.
  - replace (Z.to_nat (indent_level g)) with 0 by lia. by eexists.
Qed.

Lemma visit_all_lines l g :
  Forall (fun s => forall g,
            indent_level (visit_statement s g) = indent_level g
            /\ exists new, code_lines (visit_statement s g) = code_lines g ++ new
                           /\ Forall (opens_with (indent g)) new) l ->
  indent_level (visit_all visit_statement l g) = indent_level g
  /\ exists new, code_lines (visit_all visit_statement l g) = code_lines g ++ new
                 /\ Forall (opens_with (indent g)) new.
Proof.
  intros H. revert g. induction H as [|s l Hs _ IH]; intros g; simpl.
  - split; [done|]. exists []. by rewrite app_nil_r.
  - destruct (Hs g) as (L1 & n1 & C1 & F1).
    destruct (IH (visit_statement s g)) as (L2 & n2 & C2 & F2).
    split; [congruence|]. exists (n1 ++ n2). split.
    + rewrite C2, C1. by rewrite <- app_assoc.
    + apply Forall_app. split; [done|].
      unfold indent in *. by rewrite L1 in F2.
Qed.

Lemma emit_lines line g :
  indent_level (emit line g) = indent_level g
  /\ exists new, code_lines (emit line g) = code_lines g ++ new
                 /\ Forall (opens_with (indent g)) new.
Proof.
  split; [done|]. eexists. split; [done|]. apply Forall_singleton. by eexists.
Qed.

(** A block: a header line, and the statements of [body] one level
    deeper. *)
Lemma block_lines header body g :
  Forall (fun s => forall g,
            indent_level (visit_statement s g) = indent_level g
            /\ exists new, code_lines (visit_statement s g) = code_lines g ++ new
                           /\ Forall (opens_with (indent g)) new) body ->
  let g' := shift (-1) (visit_all visit_statement body (shift 1 (emit header g))) in
  indent_level g' = indent_level g
  /\ exists new,
       code_lines g' = code_lines g ++ (indent g +:+ header) :: new
       /\ Forall (opens_with (indent (shift 1 g))) new.
Proof.
  intros H g'. subst g'.
  destruct (visit_all_lines body (shift 1 (emit header g)) H) as (L & new & C & F).
  simpl in *. split; [lia|]. exists new. split.
  - rewrite C. by rewrite <- app_assoc.
  - done.
Qed.

Lemma visit_statement_lines s g :
  indent_level (visit_statement s g) = indent_level g
  /\ exists new, code_lines (visit_statement s g) = code_lines g ++ new
                 /\ Forall (opens_with (indent g)) new.
Proof.
  revert g. induction s as [target operator value|expression|target
                            |condition body IH|condition tb eb IHt IHe]
    using Statement_induction; intros g; cbn [visit_statement].
  - unfold visit_assignment_statement. repeat case_decide; try apply emit_lines.
    split; [done|]. exists []. by rewrite app_nil_r.
  - apply emit_lines.
  - apply emit_lines.
  - destruct (block_lines ("while " +:+ visit_expression condition +:+ ":") body g IH)
      as (L & new & C & F).
    split; [done|]. eexists. split; [exact C|].
    constructor; [by eexists|].
    eapply Forall_impl; [exact F|]. intros line. apply opens_with_trans, indent_shift.
  - destruct (block_lines ("if " +:+ visit_expression condition +:+ ":") tb g IHt)
      as (L & new & C & F).
    set (g1 := shift (-1) _) in *. clearbody g1.
    assert (F1 : Forall (opens_with (indent g))
                   ((indent g +:+ ("if " +:+ visit_expression condition +:+ ":")) :: new)).
    { constructor; [by eexists|].
      eapply Forall_impl; [exact F|]. intros line. apply opens_with_trans, indent_shift. }
    destruct eb as [[|s l]|]; [by eauto| |by eauto].
    destruct (block_lines "else:" (s :: l) g1 (IHe _ eq_refl)) as (L2 & new2 & C2 & F2).
    split; [congruence|]. eexists. split.
    + rewrite C2, C. by rewrite <- app_assoc.
    + apply Forall_app. split; [done|].
      assert (Hi : indent g1 = indent g) by (unfold indent; by rewrite L).
      assert (Hi' : indent (shift 1 g1) = indent (shift 1 g))
        by (unfold indent, shift; cbn [indent_level]; by rewrite L).
      rewrite Hi. constructor; [by eexists|]. rewrite Hi' in F2.
      eapply Forall_impl; [exact F2|]. intros line. apply opens_with_trans, indent_shift.
Qed.



End PythonText.

(** The Python text is indented by blocks: a statement leaves the level
    of indentation as it found it, and every line it emits opens with the
    indentation of that level.  The lines of the body of a [while] open
    with the indentation one level deeper, which is four spaces more when
    the level is not negative; an empty body emits no line. *)
Theorem python_blocks (s : Statement) (g : DirectASTToPythonGenerator.t) :
  let g' := DirectASTToPythonGenerator.visit_statement s g in
  DirectASTToPythonGenerator.indent_level g' = DirectASTToPythonGenerator.indent_level g
  /\ DirectASTToPythonGenerator.code_lines g'
     = DirectASTToPythonGenerator.code_lines g ++ emitted_lines g g'
  /\ Forall (opens_with (DirectASTToPythonGenerator.indent g)) (emitted_lines g g')
  /\ match s with
     | WhileStatement condition body =>
         exists body_lines,
           emitted_lines g g'
           = (DirectASTToPythonGenerator.indent g
              +:+ "while " +:+ DirectASTToPythonGenerator.visit_expression condition +:+ ":")
             :: body_lines
           /\ Forall (opens_with (DirectASTToPythonGenerator.indent
                                    (DirectASTToPythonGenerator.shift 1 g))) body_lines
           /\ (body = [] -> body_lines = [])
     | _ => True
     end
  /\ ((0 <= DirectASTToPythonGenerator.indent_level g)%Z ->
      DirectASTToPythonGenerator.indent (DirectASTToPythonGenerator.shift 1 g)
      = DirectASTToPythonGenerator.indent g +:+ "    ").
Proof.
  intros g'. subst g'.
  destruct (visit_statement_lines s g) as (L & new & C & F).
  assert (He : emitted_lines g (DirectASTToPythonGenerator.visit_statement s g) = new).
  { unfold emitted_lines. by rewrite C, drop_app_length. }
  rewrite He. split_and!; [done..| |].
  - destruct s as [| | |condition body|]; try done.
    destruct (block_lines
                ("while " +:+ DirectASTToPythonGenerator.visit_expression condition +:+ ":")
                body g) as (_ & new' & C' & F').
    { apply Forall_forall. intros s _ g0. apply visit_statement_lines. }
    cbn [DirectASTToPythonGenerator.visit_statement] in C.
    rewrite C' in C. apply app_inv_head in C. subst new.
    exists new'. split_and!; [done..|].
    intros ->. simpl in C'. by apply app_inv_head in C' as [= <-].
  - intros Hl. unfold DirectASTToPythonGenerator.indent, DirectASTToPythonGenerator.shift.
    simpl. rewrite Z2Nat.inj_add by lia. by rewrite Nat.add_1_r, spaces_S_r.
Qed.

